(** * Binary morphology and constrained flood fill: a shallow embedding

    The development follows the C++ sources [binary_image.cpp],
    [erosion.cpp] / [erosion.hpp] and [floodfill.cpp] / [floodfill.hpp].

    Conventions of the embedding.
    - A C++ [int] is a [Z].  The coordinates the engines compute stay
      within one unit of the grid (flood fill) or are sums of a
      coordinate and a structuring-element offset; signed overflow
      (also of [width * height] and of the squares in the disk test) is
      undefined behaviour in C++ and is not modelled.
    - [std::vector<bool>] is a [list bool]; [std::vector<std::vector<PixelState>>]
      is a [list (list PixelState)]; [std::deque] is a [list] whose head
      is the front of the deque.
    - [size_t] counters are [N].
    - Member functions that mutate the object take the object and
      return the new one. *)

From Stdlib Require Import ZArith NArith Lia Bool List.
From stdpp Require Import base decidable list numbers.

Local Open Scope Z_scope.

(** [for (int i = lo; i <= hi; ++i)] visits these values in order. *)
Definition range_incl (lo hi : Z) : list Z := seqZ lo (hi - lo + 1).

(** The doubly nested loop
    [for (y = 0; y < h; ++y) for (x = 0; x < w; ++x) body(x, y)]
    threading the mutated object through the iterations. *)
Definition for_yx {A : Type} (w h : Z) (body : Z → Z → A → A) (a : A) : A :=
  fold_left (λ a y, fold_left (λ a x, body x y a) (seqZ 0 w) a) (seqZ 0 h) a.

(** [for (int i = lo; i < hi; ++i)] visits these values in order. *)
Definition range_excl (lo hi : Z) : list Z := seqZ lo (hi - lo).

(** Two nested [for] loops, the outer one over the rows [ys] and the
    inner one over the columns [xs]. *)
Definition loop_yx {A : Type} (ys xs : list Z) (body : Z → Z → A → A) (a : A) : A :=
  fold_left (λ a y, fold_left (λ a x, body x y a) xs a) ys a.

(** ** binary_image.cpp *)
Module BinaryImage.

Record t : Type := mk {
  width_ : Z;
  height_ : Z;
  pixels_ : list bool  (* row-major storage *)
}.

(** [BinaryImage(width, height, fill_value)] *)
Definition make (width height : Z) (fill_value : bool) : t :=
  {| width_ := width;
     height_ := height;
     pixels_ := replicate (Z.to_nat (width * height)) fill_value |}.

Definition width (img : t) : Z := width_ img.
Definition height (img : t) : Z := height_ img.

(** [get]: false for out-of-bounds access. *)
Definition get (img : t) (x y : Z) : bool :=
  if (x <? 0) || (x >=? width_ img) || (y <? 0) || (y >=? height_ img)
  then false
  else default false (pixels_ img !! Z.to_nat (y * width_ img + x)).

(** [set]: ignored out of bounds. *)
Definition set (img : t) (x y : Z) (value : bool) : t :=
  if (x >=? 0) && (x <? width_ img) && (y >=? 0) && (y <? height_ img)
  then {| width_ := width_ img;
          height_ := height_ img;
          pixels_ := <[Z.to_nat (y * width_ img + x) := value]> (pixels_ img) |}
  else img.

(** [fill] and [clear] *)
Definition fill (img : t) (value : bool) : t :=
  {| width_ := width_ img;
     height_ := height_ img;
     pixels_ := replicate (length (pixels_ img)) value |}.

Definition clear (img : t) : t := fill img false.

(** The class invariant every constructed image satisfies: the vector
    holds [width * height] pixels. *)
Definition wf (img : t) : Prop :=
  0 ≤ width_ img ∧ 0 ≤ height_ img ∧
  length (pixels_ img) = Z.to_nat (width_ img * height_ img).

Definition in_bounds (img : t) (x y : Z) : Prop :=
  0 ≤ x < width_ img ∧ 0 ≤ y < height_ img.

(** Every stored pixel is foreground. *)
Definition all_foreground (img : t) : Prop :=
  ∀ x y, in_bounds img x y → get img x y = true.

(** [clone]: a fresh image of the same dimensions that receives the
    pixel vector. *)
Definition clone (img : t) : t :=
  let copy := make (width_ img) (height_ img) false in
  {| width_ := width_ copy; height_ := height_ copy; pixels_ := pixels_ img |}.

(** The sample shapes.  [/] on [int] is [Z.quot]. *)
Definition createRectangle (width height margin : Z) : t :=
  loop_yx (range_excl margin (height - margin)) (range_excl margin (width - margin))
    (λ x y img, set img x y true)
    (make width height false).

Definition createCross (width height thickness : Z) : t :=
  let img := make width height false in
  let cx := Z.quot width 2 in
  let cy := Z.quot height 2 in
  let half_thick := Z.quot thickness 2 in
  (* horizontal bar *)
  let img :=
    loop_yx (range_incl (cy - half_thick) (cy + half_thick)) (range_excl 2 (width - 2))
      (λ x y img, set img x y true) img in
  (* vertical bar *)
  loop_yx (range_excl 2 (height - 2)) (range_incl (cx - half_thick) (cx + half_thick))
    (λ x y img, set img x y true) img.

Definition createLShape (width height : Z) : t :=
  let img := make width height false in
  let thickness := Z.max 2 (Z.quot (Z.min width height) 4) in
  let margin := 2 in
  (* vertical part of the L *)
  let img :=
    loop_yx (range_excl margin (height - margin)) (range_excl margin (margin + thickness))
      (λ x y img, set img x y true) img in
  (* horizontal part of the L (bottom) *)
  loop_yx (range_excl (height - margin - thickness) (height - margin))
    (range_excl margin (width - margin))
    (λ x y img, set img x y true) img.


End BinaryImage.

(** ** erosion.hpp / erosion.cpp *)
Module StructuringElement.

Record t : Type := mk {
  width : Z;
  height : Z;
  center_x : Z;
  center_y : Z;
  offsets : list (Z * Z)
}.

(** [size / 2] on [int] truncates toward zero: [Z.quot]. *)
Definition createSquare (size : Z) : t :=
  let cx := Z.quot size 2 in
  let cy := Z.quot size 2 in
  {| width := size;
     height := size;
     center_x := cx;
     center_y := cy;
     offsets :=
       dy ← range_incl (- cy) cy;
       dx ← range_incl (- cx) cx;
       [(dx, dy)] |}.

Definition createCross (size : Z) : t :=
  let cx := Z.quot size 2 in
  let cy := Z.quot size 2 in
  {| width := size;
     height := size;
     center_x := cx;
     center_y := cy;
     offsets :=
       [(0, 0)]
       ++ (dx ← range_incl (- cx) cx; if decide (dx ≠ 0) then [(dx, 0)] else [])
       ++ (dy ← range_incl (- cy) cy; if decide (dy ≠ 0) then [(0, dy)] else []) |}.

End StructuringElement.

Inductive BoundaryMode : Type := Zero | One | Extend | Wrap.

Inductive MorphOperation : Type :=
  Erosion | Dilation | InnerBoundary | OuterBoundary | Gradient.

Module Morphology.

Record t : Type := mk {
  se_ : StructuringElement.t;
  operation_ : MorphOperation;
  boundary_ : BoundaryMode
}.

(** [std::clamp(v, lo, hi)] *)
Definition clamp (v lo hi : Z) : Z :=
  if v <? lo then lo else if hi <? v then hi else v.

(** [%] on [int] is the truncated remainder, [Z.rem]. *)
Definition getPixelWithBoundary (m : t) (input : BinaryImage.t) (x y : Z) : bool :=
  let w := BinaryImage.width input in
  let h := BinaryImage.height input in
  if (x >=? 0) && (x <? w) && (y >=? 0) && (y <? h)
  then BinaryImage.get input x y
  else
    match boundary_ m with
    | Zero => false
    | One => true
    | Extend =>
        let x := clamp x 0 (w - 1) in
        let y := clamp y 0 (h - 1) in
        BinaryImage.get input x y
    | Wrap =>
        let x := Z.rem (Z.rem x w + w) w in
        let y := Z.rem (Z.rem y h + h) h in
        BinaryImage.get input x y
    end.

(** The loop returns false at the first offset whose pixel is
    background, true when it runs to the end. *)
Fixpoint erosion_loop (m : t) (input : BinaryImage.t) (x y : Z)
    (offs : list (Z * Z)) : bool :=
  match offs with
  | [] => true
  | (dx, dy) :: rest =>
      if negb (getPixelWithBoundary m input (x + dx) (y + dy))
      then false
      else erosion_loop m input x y rest
  end.

Definition checkErosion (m : t) (input : BinaryImage.t) (x y : Z) : bool :=
  erosion_loop m input x y (StructuringElement.offsets (se_ m)).

Fixpoint dilation_loop (m : t) (input : BinaryImage.t) (x y : Z)
    (offs : list (Z * Z)) : bool :=
  match offs with
  | [] => false
  | (dx, dy) :: rest =>
      if getPixelWithBoundary m input (x + dx) (y + dy)
      then true
      else dilation_loop m input x y rest
  end.

Definition checkDilation (m : t) (input : BinaryImage.t) (x y : Z) : bool :=
  dilation_loop m input x y (StructuringElement.offsets (se_ m)).

(** [a != b] on [bool] is [xorb]. *)
Definition checkPixel (m : t) (input : BinaryImage.t) (x y : Z) : bool :=
  let original := BinaryImage.get input x y in
  match operation_ m with
  | Erosion => checkErosion m input x y
  | Dilation => checkDilation m input x y
  | InnerBoundary => original && negb (checkErosion m input x y)
  | OuterBoundary => checkDilation m input x y && negb original
  | Gradient => xorb (checkDilation m input x y) (checkErosion m input x y)
  end.

Definition apply (m : t) (input : BinaryImage.t) : BinaryImage.t :=
  let output :=
    BinaryImage.make (BinaryImage.width input) (BinaryImage.height input) false in
  for_yx (BinaryImage.width input) (BinaryImage.height input)
    (λ x y output, BinaryImage.set output x y (checkPixel m input x y))
    output.

Definition getCoveredPositions (m : t) (x y : Z) : list (Z * Z) :=
  (λ d : Z * Z, (x + d.1, y + d.2)) <$> StructuringElement.offsets (se_ m).

End Morphology.

(** ** floodfill.hpp / floodfill.cpp *)
Inductive Connectivity : Type := Four | Eight.

Inductive FillAlgorithm : Type := BFS | DFS.

Inductive PixelState : Type :=
  Unvisited | InQueue | Processed | Boundary | Unsafe.

#[global] Instance PixelState_eq_dec : EqDecision PixelState.
Proof. solve_decision. Defined.

#[global] Instance FillAlgorithm_eq_dec : EqDecision FillAlgorithm.
Proof. solve_decision. Defined.

#[global] Instance Connectivity_eq_dec : EqDecision Connectivity.
Proof. solve_decision. Defined.

(** The per-pixel state grid [state_], indexed [state_[y][x]]. *)
Module StateGrid.

Abbreviation t := (list (list PixelState)).

(** [resize(height, vector(width, Unvisited))] on a cleared vector. *)
Definition make (width height : Z) : t :=
  replicate (Z.to_nat height) (replicate (Z.to_nat width) Unvisited).

(** [state_[y][x]] as an rvalue.  The code only indexes after
    [isValid]; an index outside the vectors (undefined in C++) reads
    [Unvisited] here. *)
Definition get (g : t) (x y : Z) : PixelState :=
  match g !! Z.to_nat y with
  | Some row => default Unvisited (row !! Z.to_nat x)
  | None => Unvisited
  end.

(** [state_[y][x] = v]; the code only assigns after [isValid] or at a
    frontier entry, and an index outside the vectors changes nothing
    here. *)
Definition set (g : t) (x y : Z) (v : PixelState) : t :=
  alter (λ row, <[Z.to_nat x := v]> row) (Z.to_nat y) g.

(** Number of cells holding [v]. *)
Definition count_row (v : PixelState) (row : list PixelState) : nat :=
  length (filter (λ u, u = v) row).

Definition count (v : PixelState) (g : t) : nat :=
  sum_list_with (count_row v) g.

Definition shape (g : t) (width height : Z) : Prop :=
  length g = Z.to_nat height ∧ Forall (λ row, length row = Z.to_nat width) g.

End StateGrid.

Module FloodFill.

Record t : Type := mk {
  connectivity_ : Connectivity;
  algorithm_ : FillAlgorithm;
  safety_radius_ : Z;
  offsets_ : list (Z * Z);
  disk_offsets_ : list (Z * Z);
  source_ : BinaryImage.t;
  result_ : BinaryImage.t;
  safety_mask_ : BinaryImage.t;
  state_ : StateGrid.t;
  frontier_ : list (Z * Z);
  current_pixel_ : Z * Z;
  target_value_ : bool;
  initialized_ : bool;
  filled_count_ : N;
  unsafe_count_ : N;
  width_ : Z;
  height_ : Z
}.

(** Field updates used by the member functions. *)
Definition with_state (f : t) (g : StateGrid.t) : t :=
  mk (connectivity_ f) (algorithm_ f) (safety_radius_ f) (offsets_ f)
     (disk_offsets_ f) (source_ f) (result_ f) (safety_mask_ f) g
     (frontier_ f) (current_pixel_ f) (target_value_ f) (initialized_ f)
     (filled_count_ f) (unsafe_count_ f) (width_ f) (height_ f).

Definition with_frontier (f : t) (fr : list (Z * Z)) : t :=
  mk (connectivity_ f) (algorithm_ f) (safety_radius_ f) (offsets_ f)
     (disk_offsets_ f) (source_ f) (result_ f) (safety_mask_ f) (state_ f)
     fr (current_pixel_ f) (target_value_ f) (initialized_ f)
     (filled_count_ f) (unsafe_count_ f) (width_ f) (height_ f).

Definition with_unsafe_count (f : t) (n : N) : t :=
  mk (connectivity_ f) (algorithm_ f) (safety_radius_ f) (offsets_ f)
     (disk_offsets_ f) (source_ f) (result_ f) (safety_mask_ f) (state_ f)
     (frontier_ f) (current_pixel_ f) (target_value_ f) (initialized_ f)
     (filled_count_ f) n (width_ f) (height_ f).

Definition with_filled_count (f : t) (n : N) : t :=
  mk (connectivity_ f) (algorithm_ f) (safety_radius_ f) (offsets_ f)
     (disk_offsets_ f) (source_ f) (result_ f) (safety_mask_ f) (state_ f)
     (frontier_ f) (current_pixel_ f) (target_value_ f) (initialized_ f)
     n (unsafe_count_ f) (width_ f) (height_ f).

Definition with_result (f : t) (r : BinaryImage.t) : t :=
  mk (connectivity_ f) (algorithm_ f) (safety_radius_ f) (offsets_ f)
     (disk_offsets_ f) (source_ f) r (safety_mask_ f) (state_ f)
     (frontier_ f) (current_pixel_ f) (target_value_ f) (initialized_ f)
     (filled_count_ f) (unsafe_count_ f) (width_ f) (height_ f).

Definition with_safety_mask (f : t) (m : BinaryImage.t) : t :=
  mk (connectivity_ f) (algorithm_ f) (safety_radius_ f) (offsets_ f)
     (disk_offsets_ f) (source_ f) (result_ f) m (state_ f)
     (frontier_ f) (current_pixel_ f) (target_value_ f) (initialized_ f)
     (filled_count_ f) (unsafe_count_ f) (width_ f) (height_ f).

Definition with_current_pixel (f : t) (p : Z * Z) : t :=
  mk (connectivity_ f) (algorithm_ f) (safety_radius_ f) (offsets_ f)
     (disk_offsets_ f) (source_ f) (result_ f) (safety_mask_ f) (state_ f)
     (frontier_ f) p (target_value_ f) (initialized_ f)
     (filled_count_ f) (unsafe_count_ f) (width_ f) (height_ f).

Definition with_target_value (f : t) (b : bool) : t :=
  mk (connectivity_ f) (algorithm_ f) (safety_radius_ f) (offsets_ f)
     (disk_offsets_ f) (source_ f) (result_ f) (safety_mask_ f) (state_ f)
     (frontier_ f) (current_pixel_ f) b (initialized_ f)
     (filled_count_ f) (unsafe_count_ f) (width_ f) (height_ f).

Definition with_initialized (f : t) (b : bool) : t :=
  mk (connectivity_ f) (algorithm_ f) (safety_radius_ f) (offsets_ f)
     (disk_offsets_ f) (source_ f) (result_ f) (safety_mask_ f) (state_ f)
     (frontier_ f) (current_pixel_ f) (target_value_ f) b
     (filled_count_ f) (unsafe_count_ f) (width_ f) (height_ f).

(** [updateOffsets]: N, S, W, E, then the diagonals for [Eight]. *)
Definition neighbor_offsets (c : Connectivity) : list (Z * Z) :=
  [(0, -1); (0, 1); (-1, 0); (1, 0)]
  ++ match c with
     | Four => []
     | Eight => [(-1, -1); (1, -1); (-1, 1); (1, 1)]
     end.

(** [updateDiskOffsets]: all [(dx, dy)] with [dx² + dy² ≤ r²], rows
    of increasing [dy], each row by increasing [dx]; empty for
    [r ≤ 0]. *)
Definition disk_offsets (safety_radius : Z) : list (Z * Z) :=
  if safety_radius <=? 0 then []
  else
    let r := safety_radius in
    let r_squared := r * r in
    dy ← range_incl (- r) r;
    dx ← range_incl (- r) r;
    if dx * dx + dy * dy <=? r_squared then [(dx, dy)] else [].

Definition updateOffsets (f : t) : t :=
  mk (connectivity_ f) (algorithm_ f) (safety_radius_ f)
     (neighbor_offsets (connectivity_ f))
     (disk_offsets_ f) (source_ f) (result_ f) (safety_mask_ f) (state_ f)
     (frontier_ f) (current_pixel_ f) (target_value_ f) (initialized_ f)
     (filled_count_ f) (unsafe_count_ f) (width_ f) (height_ f).

Definition updateDiskOffsets (f : t) : t :=
  mk (connectivity_ f) (algorithm_ f) (safety_radius_ f) (offsets_ f)
     (disk_offsets (safety_radius_ f))
     (source_ f) (result_ f) (safety_mask_ f) (state_ f)
     (frontier_ f) (current_pixel_ f) (target_value_ f) (initialized_ f)
     (filled_count_ f) (unsafe_count_ f) (width_ f) (height_ f).

(** The constructor, with the in-class member initialisers of
    floodfill.hpp for the fields it does not name. *)
Definition make (connectivity : Connectivity) (algorithm : FillAlgorithm)
    (safety_radius : Z) : t :=
  updateDiskOffsets (updateOffsets
    {| connectivity_ := connectivity;
       algorithm_ := algorithm;
       safety_radius_ := safety_radius;
       offsets_ := [];
       disk_offsets_ := [];
       source_ := BinaryImage.make 1 1 false;
       result_ := BinaryImage.make 1 1 false;
       safety_mask_ := BinaryImage.make 1 1 false;
       state_ := [];
       frontier_ := [];
       current_pixel_ := (-1, -1);
       target_value_ := false;
       initialized_ := false;
       filled_count_ := 0%N;
       unsafe_count_ := 0%N;
       width_ := 0;
       height_ := 0 |}).

Definition setConnectivity (f : t) (c : Connectivity) : t :=
  updateOffsets
    (mk c (algorithm_ f) (safety_radius_ f) (offsets_ f)
       (disk_offsets_ f) (source_ f) (result_ f) (safety_mask_ f) (state_ f)
       (frontier_ f) (current_pixel_ f) (target_value_ f) (initialized_ f)
       (filled_count_ f) (unsafe_count_ f) (width_ f) (height_ f)).

Definition setAlgorithm (f : t) (a : FillAlgorithm) : t :=
  mk (connectivity_ f) a (safety_radius_ f) (offsets_ f)
     (disk_offsets_ f) (source_ f) (result_ f) (safety_mask_ f) (state_ f)
     (frontier_ f) (current_pixel_ f) (target_value_ f) (initialized_ f)
     (filled_count_ f) (unsafe_count_ f) (width_ f) (height_ f).

Definition setSafetyRadius (f : t) (r : Z) : t :=
  updateDiskOffsets
    (mk (connectivity_ f) (algorithm_ f) r (offsets_ f)
       (disk_offsets_ f) (source_ f) (result_ f) (safety_mask_ f) (state_ f)
       (frontier_ f) (current_pixel_ f) (target_value_ f) (initialized_ f)
       (filled_count_ f) (unsafe_count_ f) (width_ f) (height_ f)).

Definition isValid (f : t) (x y : Z) : bool :=
  (x >=? 0) && (x <? width_ f) && (y >=? 0) && (y <? height_ f).

(** The disk loop of [checkCircleFits]: false at the first position
    that is out of bounds or differs from the target value. *)
Fixpoint circle_loop (f : t) (center_x center_y : Z) (disk : list (Z * Z)) : bool :=
  match disk with
  | [] => true
  | (dx, dy) :: rest =>
      let nx := center_x + dx in
      let ny := center_y + dy in
      if negb (isValid f nx ny) then false
      else if negb (eqb (BinaryImage.get (source_ f) nx ny) (target_value_ f)) then false
      else circle_loop f center_x center_y rest
  end.

Definition checkCircleFits (f : t) (center_x center_y : Z) : bool :=
  if safety_radius_ f <=? 0
  then isValid f center_x center_y
       && eqb (BinaryImage.get (source_ f) center_x center_y) (target_value_ f)
  else circle_loop f center_x center_y (disk_offsets_ f).

Definition getCirclePositions (f : t) (center_x center_y : Z) : list (Z * Z) :=
  (λ d : Z * Z, (center_x + d.1, center_y + d.2)) <$> disk_offsets_ f.

Definition precomputeSafetyMask (f : t) : t :=
  let mask := BinaryImage.make (width_ f) (height_ f) false in
  with_safety_mask f
    (if safety_radius_ f <=? 0
     then
       for_yx (width_ f) (height_ f)
         (λ x y mask,
            if eqb (BinaryImage.get (source_ f) x y) (target_value_ f)
            then BinaryImage.set mask x y true
            else mask)
         mask
     else
       for_yx (width_ f) (height_ f)
         (λ x y mask,
            if eqb (BinaryImage.get (source_ f) x y) (target_value_ f)
            then if checkCircleFits f x y
                 then BinaryImage.set mask x y true
                 else mask
            else mask)
         mask).

(** The first part of [initialize], up to the validity test of the
    start position: bind the source, reset the result and state
    grids, the frontier, the counters and the current pixel. *)
Definition reset (f : t) (image : BinaryImage.t) : t :=
  let w := BinaryImage.width image in
  let h := BinaryImage.height image in
  {| connectivity_ := connectivity_ f;
     algorithm_ := algorithm_ f;
     safety_radius_ := safety_radius_ f;
     offsets_ := offsets_ f;
     disk_offsets_ := disk_offsets_ f;
     source_ := image;
     result_ := BinaryImage.make w h false;
     safety_mask_ := safety_mask_ f;
     state_ := StateGrid.make w h;
     frontier_ := [];
     current_pixel_ := (-1, -1);
     target_value_ := target_value_ f;
     initialized_ := initialized_ f;
     filled_count_ := 0%N;
     unsafe_count_ := 0%N;
     width_ := w;
     height_ := h |}.

Definition initialize (f : t) (image : BinaryImage.t) (start_x start_y : Z) : t :=
  let f0 := reset f image in
  if negb (isValid f0 start_x start_y)
  then with_initialized f0 false
  else
    let f1 := with_target_value f0 (BinaryImage.get (source_ f0) start_x start_y) in
    let f2 := precomputeSafetyMask f1 in
    if negb (BinaryImage.get (safety_mask_ f2) start_x start_y)
    then
      let f3 := with_state f2 (StateGrid.set (state_ f2) start_x start_y Unsafe) in
      let f4 := with_unsafe_count f3 (unsafe_count_ f3 + 1)%N in
      with_initialized f4 true
    else
      let f3 := with_frontier f2 (frontier_ f2 ++ [(start_x, start_y)]) in
      let f4 := with_state f3 (StateGrid.set (state_ f3) start_x start_y InQueue) in
      with_initialized f4 true.

(** One iteration of the neighbour loop of [step] for the pixel
    [(x, y)] and the offset [d]. *)
Definition visit_neighbor (x y : Z) (f : t) (d : Z * Z) : t :=
  let nx := x + d.1 in
  let ny := y + d.2 in
  if negb (isValid f nx ny) then f
  else if negb (bool_decide (StateGrid.get (state_ f) nx ny = Unvisited)) then f
  else if negb (eqb (BinaryImage.get (source_ f) nx ny) (target_value_ f))
  then with_state f (StateGrid.set (state_ f) nx ny Boundary)
  else if negb (BinaryImage.get (safety_mask_ f) nx ny)
  then
    let f1 := with_state f (StateGrid.set (state_ f) nx ny Unsafe) in
    with_unsafe_count f1 (unsafe_count_ f1 + 1)%N
  else
    let f1 := with_frontier f (frontier_ f ++ [(nx, ny)]) in
    with_state f1 (StateGrid.set (state_ f1) nx ny InQueue).

(** [pop_front] / [pop_back] on the deque: the removed element and
    the remaining deque. *)
Definition pop (a : FillAlgorithm) (fr : list (Z * Z)) : option ((Z * Z) * list (Z * Z)) :=
  match a with
  | BFS => match fr with
           | [] => None
           | p :: rest => Some (p, rest)
           end
  | DFS => match list.last fr with
           | None => None
           | Some p => Some (p, List.removelast fr)
           end
  end.

(** [step]: the returned flag and the engine after the call. *)
Definition step (f : t) : bool * t :=
  if negb (initialized_ f) || bool_decide (frontier_ f = [])
  then (false, f)
  else
    match pop (algorithm_ f) (frontier_ f) with
    | None => (false, f)
    | Some (pixel, rest) =>
        let f1 := with_frontier f rest in
        let x := pixel.1 in
        let y := pixel.2 in
        let f2 := with_current_pixel f1 pixel in
        let f3 := with_state f2 (StateGrid.set (state_ f2) x y Processed) in
        let f4 := with_result f3 (BinaryImage.set (result_ f3) x y true) in
        let f5 := with_filled_count f4 (filled_count_ f4 + 1)%N in
        let f6 := fold_left (visit_neighbor x y) (offsets_ f5) f5 in
        (negb (bool_decide (frontier_ f6 = [])), f6)
    end.

Definition isComplete (f : t) : bool :=
  bool_decide (frontier_ f = []) && initialized_ f.

Definition getState (f : t) (x y : Z) : PixelState :=
  if negb (isValid f x y) then Unvisited
  else StateGrid.get (state_ f) x y.

Definition getFrontierSize (f : t) : nat := length (frontier_ f).
Definition getFilledCount (f : t) : N := filled_count_ f.
Definition getUnsafeCount (f : t) : N := unsafe_count_ f.
Definition getFrontierPositions (f : t) : list (Z * Z) := frontier_ f.
Definition getResult (f : t) : BinaryImage.t := result_ f.

(** [n] consecutive calls of [step], results discarded. *)
Fixpoint steps (n : nat) (f : t) : t :=
  match n with
  | O => f
  | S n => steps n (step f).2
  end.

(** The driver loop of the callers: call [step] until it returns
    false, at most [fuel] times. *)
Fixpoint run (fuel : nat) (f : t) : t :=
  match fuel with
  | O => f
  | S fuel =>
      let '(more, f') := step f in
      if more then run fuel f' else f'
  end.

End FloodFill.


(** ** visualizer.hpp / visualizer.cpp: the pixel-by-pixel animation *)
Module Visualizer.

(** [struct AnimationState]. *)
Record AnimationState : Type := mkAnim {
  current_x : Z;
  current_y : Z;
  paused : bool;
  completed : bool;
  speed_ms : Z;
  last_step_time : Z
}.

(** The value of an integer as a [Uint32]. *)
Definition uint32 (z : Z) : Z := z mod 2 ^ 32.

(** [stepAnimation].  [now] is what [SDL_GetTicks] returns at the call;
    the subtraction and the cast of [speed_ms] are unsigned 32-bit.  The
    animation state and the result image are returned. *)
Definition stepAnimation (now : Z) (state : AnimationState)
    (original result : BinaryImage.t) (morph : Morphology.t)
    : AnimationState * BinaryImage.t :=
  if completed state || paused state then (state, result)
  else if uint32 (now - last_step_time state) <? uint32 (speed_ms state)
  then (state, result)
  else
    let survives :=
      Morphology.checkPixel morph original (current_x state) (current_y state) in
    let result := BinaryImage.set result (current_x state) (current_y state) survives in
    let x := current_x state + 1 in
    if x >=? BinaryImage.width original
    then
      let y := current_y state + 1 in
      (mkAnim 0 y (paused state)
         (if y >=? BinaryImage.height original then true else completed state)
         (speed_ms state) now,
       result)
    else
      (mkAnim x (current_y state) (paused state) (completed state)
         (speed_ms state) now,
       result).

End Visualizer.

(** ** floodfill_visualizer.hpp / floodfill_visualizer.cpp *)
Module FloodFillVisualizer.

(** The fields of [struct FloodFillControls] that picking, the hover
    preview and the start of a fill read or write. *)
Record FloodFillControls : Type := mkControls {
  selected_connectivity : Z;
  selected_algorithm : Z;
  safety_radius : Z;
  show_safety_preview : bool;
  fill_started : bool;
  start_x : Z;
  start_y : Z;
  hover_x : Z;
  hover_y : Z
}.

(** The members of the visualizer those functions use; window and
    rendering handles are left out. *)
Record t : Type := mk {
  pixel_size_ : Z;
  gap_ : Z;
  image_width_ : Z;
  image_height_ : Z;
  grid_offset_x_ : Z;
  grid_offset_y_ : Z;
  controls_ : FloodFillControls;
  source_image_ : BinaryImage.t;
  floodfill_ : FloodFill.t;
  paused_ : bool;
  completed_ : bool;
  steps_count_ : Z
}.

Definition with_hover (c : FloodFillControls) (x y : Z) : FloodFillControls :=
  mkControls (selected_connectivity c) (selected_algorithm c) (safety_radius c)
    (show_safety_preview c) (fill_started c) (start_x c) (start_y c) x y.

Definition with_start (c : FloodFillControls) (started : bool) (x y : Z)
    : FloodFillControls :=
  mkControls (selected_connectivity c) (selected_algorithm c) (safety_radius c)
    (show_safety_preview c) started x y (hover_x c) (hover_y c).

Definition with_controls (v : t) (c : FloodFillControls) : t :=
  mk (pixel_size_ v) (gap_ v) (image_width_ v) (image_height_ v)
     (grid_offset_x_ v) (grid_offset_y_ v) c (source_image_ v) (floodfill_ v)
     (paused_ v) (completed_ v) (steps_count_ v).

(** The cell under a mouse position, as [updateHoverPosition] and the
    mouse-button branch of [handleEvents] compute it; [/] truncates. *)
Definition grid_cell (v : t) (mouse_x mouse_y : Z) : Z * Z :=
  let cell_size := pixel_size_ v + gap_ v in
  (Z.quot (mouse_x - grid_offset_x_ v - gap_ v) cell_size,
   Z.quot (mouse_y - grid_offset_y_ v - gap_ v) cell_size).

Definition in_grid (v : t) (grid_x grid_y : Z) : bool :=
  (grid_x >=? 0) && (grid_x <? image_width_ v)
  && (grid_y >=? 0) && (grid_y <? image_height_ v).

Definition updateHoverPosition (v : t) (mouse_x mouse_y : Z) : t :=
  let cell_size := pixel_size_ v + gap_ v in
  let grid_x := Z.quot (mouse_x - grid_offset_x_ v - gap_ v) cell_size in
  let grid_y := Z.quot (mouse_y - grid_offset_y_ v - gap_ v) cell_size in
  if in_grid v grid_x grid_y
  then with_controls v (with_hover (controls_ v) grid_x grid_y)
  else with_controls v (with_hover (controls_ v) (-1) (-1)).

(** The engine [startFillAt] constructs from the controls. *)
Definition new_engine (c : FloodFillControls) : FloodFill.t :=
  let conn := if selected_connectivity c =? 0 then Four else Eight in
  let algo := if selected_algorithm c =? 0 then BFS else DFS in
  FloodFill.make conn algo (safety_radius c).

Definition startFillAt (v : t) (x y : Z) : t :=
  if (x <? 0) || (x >=? image_width_ v) || (y <? 0) || (y >=? image_height_ v)
  then v
  else
    let c := with_start (controls_ v) true x y in
    mk (pixel_size_ v) (gap_ v) (image_width_ v) (image_height_ v)
       (grid_offset_x_ v) (grid_offset_y_ v) c (source_image_ v)
       (FloodFill.initialize (new_engine c) (source_image_ v) x y)
       true false 0.

(** The left-button branch of [handleEvents], for a click the UI does
    not capture. *)
Definition leftButtonDown (v : t) (mx my : Z) : t :=
  let cell_size := pixel_size_ v + gap_ v in
  let grid_x := Z.quot (mx - grid_offset_x_ v - gap_ v) cell_size in
  let grid_y := Z.quot (my - grid_offset_y_ v - gap_ v) cell_size in
  if in_grid v grid_x grid_y then startFillAt v grid_x grid_y else v.

(** The hover preview of [renderGrid]: the circle around the hovered
    cell and whether every pixel of it is a foreground pixel of the
    grid. *)
Definition hover_circle (v : t) : list (Z * Z) :=
  let c := controls_ v in
  if show_safety_preview c && (hover_x c >=? 0) && negb (fill_started c)
  then
    let r := safety_radius c in
    let r_sq := r * r in
    dy ← range_incl (- r) r;
    dx ← range_incl (- r) r;
    if dx * dx + dy * dy <=? r_sq then [(hover_x c + dx, hover_y c + dy)] else []
  else [].

Definition hover_safe (v : t) : bool :=
  let c := controls_ v in
  if show_safety_preview c && (hover_x c >=? 0) && negb (fill_started c)
  then
    forallb
      (λ p : Z * Z,
         negb ((p.1 <? 0) || (p.1 >=? image_width_ v)
               || (p.2 <? 0) || (p.2 >=? image_height_ v)
               || negb (BinaryImage.get (source_image_ v) p.1 p.2)))
      (hover_circle v)
  else false.

End FloodFillVisualizer.
(** * Vocabulary of the statements *)

(** The pixels the raster loop [for_yx] visits, in order. *)
Definition raster (w h : Z) : list (Z * Z) :=
  y ← seqZ 0 h; x ← seqZ 0 w; [(x, y)].

(** A loop body that writes [val x y] at [(x, y)] when [cond x y]
    holds: the shape of the bodies of [Morphology.apply] and
    [FloodFill.precomputeSafetyMask]. *)
Definition paint (cond val : Z → Z → bool) (img : BinaryImage.t) (p : Z * Z)
    : BinaryImage.t :=
  if cond p.1 p.2 then BinaryImage.set img p.1 p.2 (val p.1 p.2) else img.

(** The block of offsets two nested inclusive loops emit, the outer
    loop over [ys] and the inner one over [xs]. *)
Definition block_of (ys xs : list Z) : list (Z * Z) :=
  y ← ys; x ← xs; [(x, y)].

(** ** Flood fill *)

(** Coordinates are pairs [(x, y)]. *)
Definition shift (p d : Z * Z) : Z * Z := (p.1 + d.1, p.2 + d.2).

Definition valid (f : FloodFill.t) (p : Z * Z) : Prop :=
  FloodFill.isValid f p.1 p.2 = true.

(** The stored state of a pixel. *)
Definition st (f : FloodFill.t) (p : Z * Z) : PixelState :=
  StateGrid.get (FloodFill.state_ f) p.1 p.2.

Definition same_value (f : FloodFill.t) (p : Z * Z) : Prop :=
  BinaryImage.get (FloodFill.source_ f) p.1 p.2 = FloodFill.target_value_ f.

Definition safe (f : FloodFill.t) (p : Z * Z) : Prop :=
  BinaryImage.get (FloodFill.safety_mask_ f) p.1 p.2 = true.

(** The pixels a fill from [seed] can reach: the seed when it is safe,
    and every valid safe pixel one neighbour offset away from a reached
    pixel.  Neither the traversal order nor the frontier occurs here. *)
Inductive reach (f : FloodFill.t) (seed : Z * Z) : Z * Z → Prop :=
  | reach_seed :
      valid f seed → safe f seed → reach f seed seed
  | reach_step (q d : Z * Z) :
      reach f seed q → d ∈ FloodFill.offsets_ f →
      valid f (shift q d) → safe f (shift q d) →
      reach f seed (shift q d).

(** The effect of the three marking branches of the neighbour loop on
    the engine: the pixel [n] receives the state [v]; [InQueue] also
    appends [n] to the frontier and [Unsafe] also increments the
    counter. *)
Definition mark (f : FloodFill.t) (n : Z * Z) (v : PixelState) : FloodFill.t :=
  FloodFill.mk
    (FloodFill.connectivity_ f) (FloodFill.algorithm_ f)
    (FloodFill.safety_radius_ f) (FloodFill.offsets_ f)
    (FloodFill.disk_offsets_ f) (FloodFill.source_ f) (FloodFill.result_ f)
    (FloodFill.safety_mask_ f)
    (StateGrid.set (FloodFill.state_ f) n.1 n.2 v)
    (match v with
     | InQueue => FloodFill.frontier_ f ++ [n]
     | _ => FloodFill.frontier_ f
     end)
    (FloodFill.current_pixel_ f) (FloodFill.target_value_ f)
    (FloodFill.initialized_ f) (FloodFill.filled_count_ f)
    (match v with
     | Unsafe => (FloodFill.unsafe_count_ f + 1)%N
     | _ => FloodFill.unsafe_count_ f
     end)
    (FloodFill.width_ f) (FloodFill.height_ f).

(** The condition under which the loop gives [n] the state [v]. *)
Definition class_ok (f : FloodFill.t) (n : Z * Z) (v : PixelState) : Prop :=
  match v with
  | Boundary => ¬ same_value f n
  | Unsafe => same_value f n ∧ ¬ safe f n
  | InQueue => same_value f n ∧ safe f n
  | _ => False
  end.

(** The engine after [pop] and the three assignments that precede the
    neighbour loop of [step]. *)
Definition dequeue (f : FloodFill.t) (pixel : Z * Z) (rest : list (Z * Z))
    : FloodFill.t :=
  FloodFill.mk
    (FloodFill.connectivity_ f) (FloodFill.algorithm_ f)
    (FloodFill.safety_radius_ f) (FloodFill.offsets_ f)
    (FloodFill.disk_offsets_ f) (FloodFill.source_ f)
    (BinaryImage.set (FloodFill.result_ f) pixel.1 pixel.2 true)
    (FloodFill.safety_mask_ f)
    (StateGrid.set (FloodFill.state_ f) pixel.1 pixel.2 Processed)
    rest pixel (FloodFill.target_value_ f)
    (FloodFill.initialized_ f) (FloodFill.filled_count_ f + 1)%N
    (FloodFill.unsafe_count_ f)
    (FloodFill.width_ f) (FloodFill.height_ f).

(** The fields a fill session reads but never writes. *)
Definition same_setup (f f' : FloodFill.t) : Prop :=
  FloodFill.connectivity_ f' = FloodFill.connectivity_ f
  ∧ FloodFill.algorithm_ f' = FloodFill.algorithm_ f
  ∧ FloodFill.safety_radius_ f' = FloodFill.safety_radius_ f
  ∧ FloodFill.offsets_ f' = FloodFill.offsets_ f
  ∧ FloodFill.disk_offsets_ f' = FloodFill.disk_offsets_ f
  ∧ FloodFill.source_ f' = FloodFill.source_ f
  ∧ FloodFill.safety_mask_ f' = FloodFill.safety_mask_ f
  ∧ FloodFill.target_value_ f' = FloodFill.target_value_ f
  ∧ FloodFill.initialized_ f' = FloodFill.initialized_ f
  ∧ FloodFill.width_ f' = FloodFill.width_ f
  ∧ FloodFill.height_ f' = FloodFill.height_ f.

(** The transitions of the per-pixel state machine, and staying put. *)
Definition transition (a b : PixelState) : Prop :=
  a = b
  ∨ (a = Unvisited ∧ b = InQueue)
  ∨ (a = InQueue ∧ b = Processed)
  ∨ (a = Unvisited ∧ b = Boundary)
  ∨ (a = Unvisited ∧ b = Unsafe).

Definition terminal (a : PixelState) : Prop :=
  a = Processed ∨ a = Boundary ∨ a = Unsafe.

(** The invariant of a fill session seeded at [seed].  While the
    neighbour loop of [step] runs for the pixel [cur], [rest] holds the
    offsets still to be visited; between calls [rest] is empty. *)
Record Inv (seed cur : Z * Z) (rest : list (Z * Z)) (f : FloodFill.t) : Prop := {
  inv_init : FloodFill.initialized_ f = true;
  inv_shape :
    StateGrid.shape (FloodFill.state_ f) (FloodFill.width_ f) (FloodFill.height_ f);
  inv_front_valid : ∀ p, p ∈ FloodFill.frontier_ f → valid f p;
  inv_front_state : ∀ p, p ∈ FloodFill.frontier_ f → st f p = InQueue;
  inv_front_nodup : NoDup (FloodFill.frontier_ f);
  inv_inqueue : ∀ p, valid f p → st f p = InQueue → p ∈ FloodFill.frontier_ f;
  inv_result_len :
    length (BinaryImage.pixels_ (FloodFill.result_ f))
    = Z.to_nat (FloodFill.width_ f * FloodFill.height_ f);
  inv_result_w : BinaryImage.width_ (FloodFill.result_ f) = FloodFill.width_ f;
  inv_result_h : BinaryImage.height_ (FloodFill.result_ f) = FloodFill.height_ f;
  inv_result : ∀ p, valid f p →
    BinaryImage.get (FloodFill.result_ f) p.1 p.2 = true ↔ st f p = Processed;
  inv_filled :
    FloodFill.filled_count_ f
    = N.of_nat (StateGrid.count Processed (FloodFill.state_ f));
  inv_unsafe :
    FloodFill.unsafe_count_ f
    = N.of_nat (StateGrid.count Unsafe (FloodFill.state_ f));
  inv_mask : ∀ p, valid f p → safe f p → same_value f p;
  inv_boundary : ∀ p, valid f p → st f p = Boundary → ¬ same_value f p;
  inv_unsafe_class : ∀ p, valid f p → st f p = Unsafe → same_value f p ∧ ¬ safe f p;
  inv_fill : ∀ p, valid f p → st f p = InQueue ∨ st f p = Processed →
    reach f seed p;
  inv_touched : ∀ p, valid f p → st f p ≠ Unvisited →
    p = seed ∨ ∃ q d, valid f q ∧ st f q = Processed
                      ∧ d ∈ FloodFill.offsets_ f ∧ p = shift q d;
  inv_closed : ∀ q d, valid f q → st f q = Processed →
    d ∈ FloodFill.offsets_ f → valid f (shift q d) →
    (q = cur ∧ d ∈ rest) ∨ st f (shift q d) ≠ Unvisited;
  inv_seed : valid f seed ∧ st f seed ≠ Unvisited;
  inv_cur : rest ≠ [] → valid f cur ∧ st f cur = Processed;
  inv_rest : ∀ d, d ∈ rest → d ∈ FloodFill.offsets_ f
}.

(** The coordinates one call of [step] appends to the frontier: what
    follows the dequeued frontier in the frontier after the call. *)
Definition pushed_by_step (f : FloodFill.t) : list (Z * Z) :=
  if negb (FloodFill.initialized_ f) || bool_decide (FloodFill.frontier_ f = [])
  then []
  else
    match FloodFill.pop (FloodFill.algorithm_ f) (FloodFill.frontier_ f) with
    | None => []
    | Some (_, rest) => drop (length rest) (FloodFill.frontier_ (FloodFill.step f).2)
    end.

(** Every coordinate pushed during [n] calls of [step], in order. *)
Fixpoint push_log (n : nat) (f : FloodFill.t) : list (Z * Z) :=
  match n with
  | O => []
  | S n => pushed_by_step f ++ push_log n (FloodFill.step f).2
  end.

(** Number of pixels of the engine's grid. *)
Definition area (f : FloodFill.t) : nat :=
  (Z.to_nat (FloodFill.width_ f) * Z.to_nat (FloodFill.height_ f))%nat.

(** Running a session to completion: the driver loop with one unit of
    fuel per pixel. *)
Definition fill_all (f : FloodFill.t) : FloodFill.t := FloodFill.run (area f) f.

(** The 5×5 all-foreground scenario: radius 1, 4-connectivity, seed
    [(2, 2)], run to completion. *)
Definition scenario5 (a : FillAlgorithm) : FloodFill.t :=
  fill_all (FloodFill.initialize (FloodFill.make Four a 1)
              (BinaryImage.make 5 5 true) 2 2).

(** The outcome the scenario is said to have: the whole outermost ring
    [Unsafe], the inner 3×3 block [Processed], 9 filled and 16 unsafe
    pixels. *)
Definition scenario5_claimed (s : FloodFill.t) : Prop :=
  (∀ x y, 0 ≤ x < 5 → 0 ≤ y < 5 → x = 0 ∨ x = 4 ∨ y = 0 ∨ y = 4 →
          FloodFill.getState s x y = Unsafe)
  ∧ (∀ x y, 1 ≤ x ≤ 3 → 1 ≤ y ≤ 3 → FloodFill.getState s x y = Processed)
  ∧ FloodFill.filled_count_ s = 9%N
  ∧ FloodFill.unsafe_count_ s = 16%N.

(** Two engines bound to the same grid with the same neighbourhood,
    safety mask and target value; the traversal order may differ. *)
Definition agree (a b : FloodFill.t) : Prop :=
  FloodFill.offsets_ a = FloodFill.offsets_ b
  ∧ FloodFill.safety_mask_ a = FloodFill.safety_mask_ b
  ∧ FloodFill.source_ a = FloodFill.source_ b
  ∧ FloodFill.target_value_ a = FloodFill.target_value_ b
  ∧ FloodFill.width_ a = FloodFill.width_ b
  ∧ FloodFill.height_ a = FloodFill.height_ b.

(** ** Relations between images *)

(** [a] lies inside [b]: same dimensions, and every foreground pixel of
    [a] is foreground in [b]. *)
Definition subimage (a b : BinaryImage.t) : Prop :=
  BinaryImage.width_ a = BinaryImage.width_ b
  ∧ BinaryImage.height_ a = BinaryImage.height_ b
  ∧ ∀ x y, BinaryImage.get a x y = true → BinaryImage.get b x y = true.

(** [b] is the pixelwise complement of [a] inside the common bounds. *)
Definition complement_of (a b : BinaryImage.t) : Prop :=
  BinaryImage.width_ a = BinaryImage.width_ b
  ∧ BinaryImage.height_ a = BinaryImage.height_ b
  ∧ ∀ x y, BinaryImage.in_bounds a x y →
           BinaryImage.get b x y = negb (BinaryImage.get a x y).

(** The boundary mode that assigns the complementary virtual values. *)
Definition dual_mode (bm : BoundaryMode) : BoundaryMode :=
  match bm with
  | Zero => One
  | One => Zero
  | Extend => Extend
  | Wrap => Wrap
  end.

(** ** More flood-fill vocabulary *)

(** The class invariant the constructor and [setSafetyRadius] keep:
    the disk offsets are those of the current safety radius. *)
Definition disk_consistent (f : FloodFill.t) : Prop :=
  FloodFill.disk_offsets_ f = FloodFill.disk_offsets (FloodFill.safety_radius_ f).

(** A pixel the traversal looks at: the seed, or a pixel one neighbour
    offset away from a reached pixel. *)
Definition touched (f : FloodFill.t) (seed p : Z * Z) : Prop :=
  p = seed
  ∨ ∃ q d, reach f seed q ∧ d ∈ FloodFill.offsets_ f ∧ p = shift q d.

(** A session in which the caller picks the traversal order anew
    before every call of [step]. *)
Definition steps_with (order : list FillAlgorithm) (f : FloodFill.t) : FloodFill.t :=
  fold_left (λ s a, (FloodFill.step (FloodFill.setAlgorithm s a)).2) order f.


(** ** Vocabulary for the visualizers *)

(** The animation driven by a sequence of clock readings, one call of
    [stepAnimation] per reading. *)
Definition animate (morph : Morphology.t) (original : BinaryImage.t)
    (ticks : list Z) (sr : Visualizer.AnimationState * BinaryImage.t)
    : Visualizer.AnimationState * BinaryImage.t :=
  fold_left (λ sr now, Visualizer.stepAnimation now sr.1 original sr.2 morph)
    ticks sr.

(** Number of pixels the animation has written: the raster index of the
    cursor, or the whole grid once completed. *)
Definition progress (original : BinaryImage.t) (state : Visualizer.AnimationState) : Z :=
  if Visualizer.completed state
  then BinaryImage.width original * BinaryImage.height original
  else Visualizer.current_y state * BinaryImage.width original
       + Visualizer.current_x state.

(** The screen rectangle [renderGrid] draws for the cell [(x, y)],
    extended by the gap to the next cell: the pixel [(mx, my)] lies in
    it. *)
Definition in_cell_rect (v : FloodFillVisualizer.t) (x y mx my : Z) : Prop :=
  let cell_size := FloodFillVisualizer.pixel_size_ v + FloodFillVisualizer.gap_ v in
  let px := FloodFillVisualizer.grid_offset_x_ v + FloodFillVisualizer.gap_ v
            + x * cell_size in
  let py := FloodFillVisualizer.grid_offset_y_ v + FloodFillVisualizer.gap_ v
            + y * cell_size in
  px ≤ mx < px + cell_size ∧ py ≤ my < py + cell_size.

(** What holds between two calls of [stepAnimation] on a result image
    that started as [result0]: the result keeps the dimensions of the
    original, the cursor of a running animation is inside the grid, the
    pixels before the cursor hold the operation's value and the others
    are untouched. *)
Definition anim_inv (morph : Morphology.t) (original result0 : BinaryImage.t)
    (sr : Visualizer.AnimationState * BinaryImage.t) : Prop :=
  BinaryImage.wf sr.2
  ∧ BinaryImage.width_ sr.2 = BinaryImage.width_ original
  ∧ BinaryImage.height_ sr.2 = BinaryImage.height_ original
  ∧ (Visualizer.completed sr.1 = false →
     0 ≤ Visualizer.current_x sr.1 < BinaryImage.width_ original
     ∧ 0 ≤ Visualizer.current_y sr.1 < BinaryImage.height_ original)
  ∧ ∀ x y, BinaryImage.in_bounds original x y →
      BinaryImage.get sr.2 x y
      = if y * BinaryImage.width_ original + x <? progress original sr.1
        then Morphology.checkPixel morph original x y
        else BinaryImage.get result0 x y.
(** * Properties of the grid container *)

Section BinaryImageFacts.

Import BinaryImage.

Lemma index_lt (w h x y : Z) :
  0 ≤ x < w → 0 ≤ y < h → (Z.to_nat (y * w + x) < Z.to_nat (w * h))%nat.
Proof. intros. apply Z2Nat.inj_lt; nia. Qed.

Lemma index_inj (w x y x' y' : Z) :
  0 ≤ x < w → 0 ≤ x' < w → 0 ≤ y → 0 ≤ y' →
  Z.to_nat (y * w + x) = Z.to_nat (y' * w + x') → x = x' ∧ y = y'.
Proof.
  intros Hx Hx' Hy Hy' E. apply Z2Nat.inj in E; [|nia..].
  assert (y = y') by nia. subst. lia.
Qed.

Lemma wf_make (w h : Z) (b : bool) : 0 ≤ w → 0 ≤ h → wf (make w h b).
Proof. intros. unfold wf, make; simpl. by rewrite length_replicate. Qed.

Lemma get_out_of_bounds (img : t) (x y : Z) :
  ¬ in_bounds img x y → get img x y = false.
Proof.
  unfold in_bounds, get. intros H.
  destruct (x <? 0) eqn:E1; [done|].
  destruct (x >=? width_ img) eqn:E2; [done|].
  destruct (y <? 0) eqn:E3; [done|].
  destruct (y >=? height_ img) eqn:E4; [done|]. simpl.
  exfalso. apply H. lia.
Qed.

Lemma get_in_bounds (img : t) (x y : Z) :
  in_bounds img x y →
  get img x y = default false (pixels_ img !! Z.to_nat (y * width_ img + x)).
Proof.
  unfold in_bounds, get. intros H.
  replace (x <? 0) with false by lia.
  replace (x >=? width_ img) with false by lia.
  replace (y <? 0) with false by lia.
  replace (y >=? height_ img) with false by lia. done.
Qed.

Lemma get_make (w h x y : Z) (b : bool) :
  0 ≤ x < w → 0 ≤ y < h → get (make w h b) x y = b.
Proof.
  intros Hx Hy. rewrite get_in_bounds by done. simpl.
  rewrite lookup_replicate_2; [done|]. by apply index_lt.
Qed.

Lemma set_in_bounds (img : t) (x y : Z) (v : bool) :
  in_bounds img x y →
  set img x y v =
    mk (width_ img) (height_ img)
       (<[Z.to_nat (y * width_ img + x) := v]> (pixels_ img)).
Proof.
  unfold in_bounds, set. intros H.
  replace (x >=? 0) with true by lia.
  replace (x <? width_ img) with true by lia.
  replace (y >=? 0) with true by lia.
  replace (y <? height_ img) with true by lia. done.
Qed.

Lemma set_out_of_bounds (img : t) (x y : Z) (v : bool) :
  ¬ in_bounds img x y → set img x y v = img.
Proof.
  unfold in_bounds, set. intros H.
  destruct (x >=? 0) eqn:E1; [|done].
  destruct (x <? width_ img) eqn:E2; [|done].
  destruct (y >=? 0) eqn:E3; [|done].
  destruct (y <? height_ img) eqn:E4; [|done]. simpl.
  exfalso. apply H. lia.
Qed.

Lemma in_bounds_dec (img : t) (x y : Z) :
  in_bounds img x y ∨ ¬ in_bounds img x y.
Proof. unfold in_bounds. lia. Qed.

Lemma width_set (img : t) (x y : Z) (v : bool) :
  width_ (set img x y v) = width_ img.
Proof.
  destruct (in_bounds_dec img x y) as [H|H].
  - by rewrite set_in_bounds.
  - by rewrite set_out_of_bounds.
Qed.

Lemma height_set (img : t) (x y : Z) (v : bool) :
  height_ (set img x y v) = height_ img.
Proof.
  destruct (in_bounds_dec img x y) as [H|H].
  - by rewrite set_in_bounds.
  - by rewrite set_out_of_bounds.
Qed.

Lemma wf_set (img : t) (x y : Z) (v : bool) : wf img → wf (set img x y v).
Proof.
  intros (Hw & Hh & Hl).
  destruct (in_bounds_dec img x y) as [H|H].
  - rewrite set_in_bounds by done. unfold wf; simpl.
    by rewrite length_insert.
  - by rewrite set_out_of_bounds.
Qed.

Lemma in_bounds_set (img : t) (x y : Z) (v : bool) (x' y' : Z) :
  in_bounds (set img x y v) x' y' ↔ in_bounds img x' y'.
Proof. unfold in_bounds. by rewrite width_set, height_set. Qed.

(** Reading back a written pixel, and reading any other pixel. *)
Lemma get_set_same (img : t) (x y : Z) (v : bool) :
  wf img → in_bounds img x y → get (set img x y v) x y = v.
Proof.
  intros (Hw & Hh & Hl) Hin.
  rewrite get_in_bounds by (by apply in_bounds_set).
  rewrite set_in_bounds by done. simpl.
  rewrite list_lookup_insert_eq; [done|].
  rewrite Hl. destruct Hin. by apply index_lt.
Qed.

Lemma get_set_other (img : t) (x y : Z) (v : bool) (x' y' : Z) :
  (x, y) ≠ (x', y') → get (set img x y v) x' y' = get img x' y'.
Proof.
  intros Hne.
  destruct (in_bounds_dec img x y) as [H|H];
    [|by rewrite set_out_of_bounds].
  destruct (in_bounds_dec img x' y') as [H'|H'].
  - rewrite !get_in_bounds by (by try apply in_bounds_set).
    rewrite set_in_bounds by done. simpl.
    rewrite list_lookup_insert_ne; [done|].
    intros E. destruct H, H'.
    apply index_inj in E; [|lia..]. destruct E. congruence.
  - rewrite !get_out_of_bounds; [done|done|].
    by rewrite in_bounds_set.
Qed.

End BinaryImageFacts.


Section BinaryImageExtensionality.

Import BinaryImage.

(** Two images of the same dimensions with the same pixels are the
    same object. *)
Lemma image_ext (a b : t) :
  width_ a = width_ b → height_ a = height_ b →
  length (pixels_ a) = Z.to_nat (width_ a * height_ a) →
  length (pixels_ b) = Z.to_nat (width_ b * height_ b) →
  0 ≤ width_ a → 0 ≤ height_ a →
  (∀ x y, in_bounds a x y → get a x y = get b x y) →
  a = b.
Proof.
  destruct a as [w h pa], b as [w' h' pb]. simpl.
  intros <- <- Hla Hlb Hw Hh Hget. f_equal.
  apply list_eq. intros i.
  destruct (decide (i < length pa)%nat) as [Hi|Hi].
  - assert (0 < w) as Hwpos by nia.
    set (x := Z.of_nat i mod w). set (y := Z.of_nat i / w).
    assert (0 ≤ x < w) as Hx by (by apply Z.mod_pos_bound).
    assert (0 ≤ y < h) as Hy.
    { split; [apply Z.div_pos; lia|]. apply Z.div_lt_upper_bound; nia. }
    assert (Z.to_nat (y * w + x) = i) as Hidx.
    { unfold x, y. rewrite Z.mul_comm, <- Z.div_mod by lia. apply Nat2Z.id. }
    specialize (Hget x y). rewrite !get_in_bounds in Hget by done.
    simpl in Hget. rewrite Hidx in Hget.
    destruct (lookup_lt_is_Some_2 pa i) as [u Hu]; [done|].
    destruct (lookup_lt_is_Some_2 pb i) as [u' Hu']; [lia|].
    rewrite Hu, Hu' in Hget |- *. simpl in Hget. f_equal. apply Hget. done.
  - rewrite !lookup_ge_None_2; [done|lia|lia].
Qed.

End BinaryImageExtensionality.
(** * The raster loop *)

Section RasterLoop.

Import BinaryImage.

Lemma elem_of_raster (w h : Z) (p : Z * Z) :
  p ∈ raster w h ↔ 0 ≤ p.1 < w ∧ 0 ≤ p.2 < h.
Proof.
  unfold raster. rewrite list_elem_of_bind. split.
  - intros (y & Hp & Hy). apply list_elem_of_bind in Hp as (x & Hp & Hx).
    apply list_elem_of_singleton in Hp as ->. simpl.
    apply elem_of_seqZ in Hx, Hy. lia.
  - intros [Hx Hy]. exists p.2. split; [|apply elem_of_seqZ; lia].
    apply list_elem_of_bind. exists p.1. split; [|apply elem_of_seqZ; lia].
    destruct p. apply list_elem_of_singleton. done.
Qed.

Lemma for_yx_raster {A : Type} (w h : Z) (body : Z → Z → A → A) (a : A) :
  for_yx w h body a = fold_left (λ a p, body p.1 p.2 a) (raster w h) a.
Proof.
  unfold for_yx, raster. generalize (seqZ 0 h) as ys. generalize (seqZ 0 w) as xs.
  intros xs ys. revert a. induction ys as [|y ys IH]; intros a; [done|].
  rewrite bind_cons, fold_left_app. simpl. rewrite IH. f_equal.
  clear. revert a. induction xs as [|x xs IH]; intros a; [done|].
  simpl. by rewrite IH.
Qed.

Variable cond : Z → Z → bool.
Variable val : Z → Z → bool.

Lemma wf_paint (img : t) (p : Z * Z) : wf img → wf (paint cond val img p).
Proof.
  intros. unfold paint. destruct (cond p.1 p.2); [by apply wf_set|done].
Qed.

Lemma in_bounds_paint (img : t) (p : Z * Z) (x y : Z) :
  in_bounds (paint cond val img p) x y ↔ in_bounds img x y.
Proof.
  unfold paint. destruct (cond p.1 p.2); [by apply in_bounds_set|done].
Qed.

Lemma paint_dims (ps : list (Z * Z)) (img : t) :
  wf img →
  wf (fold_left (paint cond val) ps img)
  ∧ width_ (fold_left (paint cond val) ps img) = width_ img
  ∧ height_ (fold_left (paint cond val) ps img) = height_ img.
Proof.
  revert img. induction ps as [|p ps IH]; intros img Hwf; [done|].
  simpl. destruct (IH (paint cond val img p)) as (H1 & H2 & H3); [by apply wf_paint|].
  split; [done|]. rewrite H2, H3. unfold paint.
  destruct (cond p.1 p.2); [|done]. by rewrite width_set, height_set.
Qed.

Lemma paint_untouched (ps : list (Z * Z)) (img : t) (x y : Z) :
  (∀ p, p ∈ ps → p = (x, y) → cond x y = false) →
  get (fold_left (paint cond val) ps img) x y = get img x y.
Proof.
  revert img. induction ps as [|p ps IH]; intros img Hps; [done|].
  simpl. rewrite IH.
  - unfold paint. destruct (cond p.1 p.2) eqn:E; [|done].
    apply get_set_other. intros Heq. destruct p as [px py]; simpl in *.
    injection Heq as -> ->.
    rewrite (Hps (x, y)) in E; [done| |done]. left.
  - intros q Hq. apply Hps. by right.
Qed.

Lemma paint_touched (ps : list (Z * Z)) (img : t) (x y : Z) :
  wf img → in_bounds img x y → (x, y) ∈ ps → cond x y = true →
  get (fold_left (paint cond val) ps img) x y = val x y.
Proof.
  revert img. induction ps as [|p ps IH]; intros img Hwf Hin Hel Hc.
  { by apply elem_of_nil in Hel. }
  simpl.
  assert (wf (paint cond val img p)) as Hwf' by (by apply wf_paint).
  assert (in_bounds (paint cond val img p) x y) as Hin' by (by apply in_bounds_paint).
  destruct (decide ((x, y) ∈ ps)) as [Hps|Hps]; [by apply IH|].
  apply elem_of_cons in Hel as [<-|Hel]; [|done].
  assert (get (fold_left (paint cond val) ps (paint cond val img (x, y))) x y
          = get (paint cond val img (x, y)) x y) as ->.
  { clear IH Hwf' Hin'. generalize (paint cond val img (x, y)) as im.
    induction ps as [|q ps IHq]; intros im; [done|]. simpl.
    apply not_elem_of_cons in Hps as [Hq Hps].
    rewrite IHq by done. unfold paint at 1.
    destruct (cond q.1 q.2); [|done]. apply get_set_other.
    destruct q; simpl. congruence. }
  unfold paint. simpl. rewrite Hc. by apply get_set_same.
Qed.

End RasterLoop.

(** * Structuring elements *)

Section StructuringElementFacts.

Import StructuringElement.

Lemma elem_of_range_incl (lo hi k : Z) : k ∈ range_incl lo hi ↔ lo ≤ k ≤ hi.
Proof. unfold range_incl. rewrite elem_of_seqZ. lia. Qed.

Lemma length_range_incl (lo hi : Z) :
  length (range_incl lo hi) = Z.to_nat (hi - lo + 1).
Proof. unfold range_incl. apply length_seqZ. Qed.

Lemma NoDup_range_incl (lo hi : Z) : NoDup (range_incl lo hi).
Proof. apply NoDup_seqZ. Qed.

Lemma elem_of_block (ys xs : list Z) (dx dy : Z) :
  (dx, dy) ∈ block_of ys xs ↔ dx ∈ xs ∧ dy ∈ ys.
Proof.
  unfold block_of. rewrite list_elem_of_bind. split.
  - intros (y & Hp & Hy). apply list_elem_of_bind in Hp as (x & Hp & Hx).
    apply list_elem_of_singleton in Hp. by simplify_eq.
  - intros [Hx Hy]. exists dy. split; [|done].
    apply list_elem_of_bind. exists dx. split; [|done].
    by apply list_elem_of_singleton.
Qed.

Lemma length_block (ys xs : list Z) :
  length (block_of ys xs) = (length ys * length xs)%nat.
Proof.
  unfold block_of. induction ys as [|y ys IH]; [done|].
  rewrite bind_cons, length_app, IH. simpl. f_equal.
  clear. induction xs as [|x xs IH]; [done|].
  rewrite bind_cons. simpl. by rewrite IH.
Qed.

Lemma NoDup_block (ys xs : list Z) :
  NoDup ys → NoDup xs → NoDup (block_of ys xs).
Proof.
  intros Hys Hxs. unfold block_of. apply NoDup_bind; [| |done].
  - intros y1 y2 p _ _ H1 H2.
    apply list_elem_of_bind in H1 as (x1 & H1 & _).
    apply list_elem_of_bind in H2 as (x2 & H2 & _).
    apply list_elem_of_singleton in H1, H2. by simplify_eq.
  - intros y _. apply NoDup_bind; [| |done].
    + intros x1 x2 p _ _ H1 H2.
      apply list_elem_of_singleton in H1, H2. by simplify_eq.
    + intros x _. apply NoDup_singleton.
Qed.

Lemma createSquare_offsets (n : Z) :
  offsets (createSquare n)
  = block_of (range_incl (- Z.quot n 2) (Z.quot n 2))
             (range_incl (- Z.quot n 2) (Z.quot n 2)).
Proof. done. Qed.

Lemma createSquare_has_origin (n : Z) : 0 ≤ n → (0, 0) ∈ offsets (createSquare n).
Proof.
  intros Hn. rewrite createSquare_offsets, elem_of_block, !elem_of_range_incl.
  pose proof (Z.quot_pos n 2). lia.
Qed.

Lemma createCross_has_origin (n : Z) : (0, 0) ∈ offsets (createCross n).
Proof. simpl. left. Qed.

End StructuringElementFacts.

(** C8: for every size [n ≥ 1], [createSquare n] centres at [n / 2]
    (integer division) on both axes and its offset list holds exactly
    the pairs [(dx, dy)] with [-(n/2) ≤ dx, dy ≤ n/2], each once, that is
    [(2 (n/2) + 1)²] offsets; for [n = 4] the declared width stays 4
    while the offsets span [-2 .. 2] on each axis, five columns wide. *)
Theorem createSquare_footprint (n : Z) :
  1 ≤ n →
  let se := StructuringElement.createSquare n in
  StructuringElement.center_x se = n / 2
  ∧ StructuringElement.center_y se = n / 2
  ∧ (∀ dx dy, (dx, dy) ∈ StructuringElement.offsets se
              ↔ - (n / 2) ≤ dx ≤ n / 2 ∧ - (n / 2) ≤ dy ≤ n / 2)
  ∧ NoDup (StructuringElement.offsets se)
  ∧ Z.of_nat (length (StructuringElement.offsets se)) = (2 * (n / 2) + 1) ^ 2
  ∧ (let se4 := StructuringElement.createSquare 4 in
     StructuringElement.width se4 = 4
     ∧ StructuringElement.center_x se4 = 2
     ∧ (∀ dx dy, (dx, dy) ∈ StructuringElement.offsets se4
                 ↔ -2 ≤ dx ≤ 2 ∧ -2 ≤ dy ≤ 2)
     ∧ remove_dups (fst <$> StructuringElement.offsets se4) = [-2; -1; 0; 1; 2]
     ∧ length (StructuringElement.offsets se4) = 25%nat).
Proof.
  intros Hn se.
  assert (Z.quot n 2 = n / 2) as Hq by (apply Z.quot_div_nonneg; lia).
  assert (0 ≤ n / 2) by (apply Z.div_pos; lia).
  split; [exact Hq|]. split; [exact Hq|].
  split; [|split; [|split]].
  - intros dx dy. subst se. rewrite createSquare_offsets, Hq.
    by rewrite elem_of_block, !elem_of_range_incl.
  - subst se. rewrite createSquare_offsets.
    apply NoDup_block; apply NoDup_range_incl.
  - subst se. rewrite createSquare_offsets, Hq, length_block, length_range_incl.
    lia.
  - split; [done|]. split; [done|]. split; [|split; [|done]].
    + intros dx dy. rewrite createSquare_offsets.
      rewrite elem_of_block, !elem_of_range_incl.
      change (Z.quot 4 2) with 2. lia.
    + by vm_compute.
Qed.

Lemma createSquare_footprint_witness :
  1 ≤ 3
  ∧ StructuringElement.center_x (StructuringElement.createSquare 3) = 3 / 2
  ∧ Z.of_nat (length (StructuringElement.offsets (StructuringElement.createSquare 3)))
    = (2 * (3 / 2) + 1) ^ 2.
Proof.
  split; [lia|].
  pose proof (createSquare_footprint 3 ltac:(lia)) as (H1 & _ & _ & _ & H5 & _).
  split; [exact H1|exact H5].
Defined.

(** * The morphology engine *)

Section MorphologyFacts.

Import Morphology.

Lemma erosion_loop_true (m : t) (input : BinaryImage.t) (x y : Z)
    (offs : list (Z * Z)) :
  erosion_loop m input x y offs = true
  ↔ ∀ d, d ∈ offs → getPixelWithBoundary m input (x + d.1) (y + d.2) = true.
Proof.
  induction offs as [|[dx dy] offs IH]; simpl.
  - split; [|done]. intros _ d Hd. by apply elem_of_nil in Hd.
  - destruct (getPixelWithBoundary m input (x + dx) (y + dy)) eqn:E; simpl.
    + rewrite IH. split.
      * intros H d Hd. apply elem_of_cons in Hd as [->|Hd]; [done|by apply H].
      * intros H d Hd. apply H. by right.
    + split; [done|]. intros H. specialize (H (dx, dy)). simpl in H.
      rewrite E in H. apply H. left.
Qed.

Lemma dilation_loop_true (m : t) (input : BinaryImage.t) (x y : Z)
    (offs : list (Z * Z)) :
  dilation_loop m input x y offs = true
  ↔ ∃ d, d ∈ offs ∧ getPixelWithBoundary m input (x + d.1) (y + d.2) = true.
Proof.
  induction offs as [|[dx dy] offs IH]; simpl.
  - split; [done|]. intros (d & Hd & _). by apply elem_of_nil in Hd.
  - destruct (getPixelWithBoundary m input (x + dx) (y + dy)) eqn:E; simpl.
    + split; [|done]. intros _. exists (dx, dy). split; [left|done].
    + rewrite IH. split.
      * intros (d & Hd & H). exists d. split; [by right|done].
      * intros (d & Hd & H). apply elem_of_cons in Hd as [->|Hd].
        -- simpl in H. congruence.
        -- by exists d.
Qed.

Lemma getPixelWithBoundary_in_bounds (m : t) (input : BinaryImage.t) (x y : Z) :
  BinaryImage.in_bounds input x y →
  getPixelWithBoundary m input x y = BinaryImage.get input x y.
Proof.
  unfold BinaryImage.in_bounds, getPixelWithBoundary,
    BinaryImage.width, BinaryImage.height. intros H.
  replace (x >=? 0) with true by lia.
  replace (x <? BinaryImage.width_ input) with true by lia.
  replace (y >=? 0) with true by lia.
  replace (y <? BinaryImage.height_ input) with true by lia. done.
Qed.

(** With the origin among the offsets, the eroded pixel is below the
    stored one, which is below the dilated one. *)
Lemma erosion_le_original (m : t) (input : BinaryImage.t) (x y : Z) :
  (0, 0) ∈ StructuringElement.offsets (se_ m) →
  BinaryImage.in_bounds input x y →
  checkErosion m input x y = true → BinaryImage.get input x y = true.
Proof.
  intros H0 Hin He. unfold checkErosion in He.
  rewrite erosion_loop_true in He. specialize (He _ H0). simpl in He.
  rewrite !Z.add_0_r in He. by rewrite getPixelWithBoundary_in_bounds in He.
Qed.

Lemma original_le_dilation (m : t) (input : BinaryImage.t) (x y : Z) :
  (0, 0) ∈ StructuringElement.offsets (se_ m) →
  BinaryImage.in_bounds input x y →
  BinaryImage.get input x y = true → checkDilation m input x y = true.
Proof.
  intros H0 Hin Hg. unfold checkDilation. rewrite dilation_loop_true.
  exists (0, 0). split; [done|]. simpl. rewrite !Z.add_0_r.
  by rewrite getPixelWithBoundary_in_bounds.
Qed.

(** What [apply] computes: the dimensions of the input, and
    [checkPixel] at every pixel. *)
Lemma apply_dims (m : t) (input : BinaryImage.t) :
  BinaryImage.width_ (apply m input) = BinaryImage.width_ input
  ∧ BinaryImage.height_ (apply m input) = BinaryImage.height_ input.
Proof.
  unfold apply. rewrite for_yx_raster.
  assert (∀ ps out,
    BinaryImage.width_
      (fold_left (λ a p, BinaryImage.set a p.1 p.2 (checkPixel m input p.1 p.2)) ps out)
    = BinaryImage.width_ out
    ∧ BinaryImage.height_
        (fold_left (λ a p, BinaryImage.set a p.1 p.2 (checkPixel m input p.1 p.2)) ps out)
      = BinaryImage.height_ out) as Hgen.
  { induction ps as [|p ps IH]; intros out; [done|]. simpl.
    destruct (IH (BinaryImage.set out p.1 p.2 (checkPixel m input p.1 p.2)))
      as [-> ->].
    by rewrite width_set, height_set. }
  destruct (Hgen (raster (BinaryImage.width input) (BinaryImage.height input))
              (BinaryImage.make (BinaryImage.width input)
                 (BinaryImage.height input) false)) as [-> ->].
  done.
Qed.

Lemma apply_get (m : t) (input : BinaryImage.t) (x y : Z) :
  BinaryImage.in_bounds input x y →
  BinaryImage.get (apply m input) x y = checkPixel m input x y.
Proof.
  intros Hin. unfold apply. rewrite for_yx_raster.
  pose proof (paint_touched (λ _ _, true) (checkPixel m input)
                (raster (BinaryImage.width input) (BinaryImage.height input))
                (BinaryImage.make (BinaryImage.width input)
                   (BinaryImage.height input) false) x y) as H.
  unfold paint in H. apply H; [| | |done].
  - destruct Hin. apply wf_make; unfold BinaryImage.width, BinaryImage.height; lia.
  - exact Hin.
  - apply elem_of_raster. exact Hin.
Qed.

End MorphologyFacts.

Section BoundaryOperations.

Import Morphology.

Lemma clamp_range (v hi : Z) : 0 ≤ hi → 0 ≤ clamp v 0 hi ≤ hi.
Proof.
  intros. unfold clamp.
  destruct (v <? 0) eqn:E1; [lia|]. destruct (hi <? v) eqn:E2; lia.
Qed.

Lemma wrap_range (v d : Z) : 0 < d → 0 ≤ Z.rem (Z.rem v d + d) d < d.
Proof.
  intros Hd. apply Z.rem_bound_pos; [|done].
  destruct (Z.le_ge_cases 0 v) as [Hv|Hv].
  - pose proof (Z.rem_bound_pos v d Hv Hd). lia.
  - pose proof (Z.rem_bound_pos_neg v d Hd Hv). lia.
Qed.

(** On a non-empty all-foreground grid, replication and wrap-around
    resolve every coordinate to a foreground pixel. *)
Lemma probe_all_foreground (m : t) (input : BinaryImage.t) (x y : Z) :
  BinaryImage.all_foreground input →
  0 < BinaryImage.width_ input → 0 < BinaryImage.height_ input →
  boundary_ m = Extend ∨ boundary_ m = Wrap →
  getPixelWithBoundary m input x y = true.
Proof.
  intros Hall Hw Hh Hb. unfold getPixelWithBoundary.
  destruct ((x >=? 0) && (x <? BinaryImage.width input)
            && (y >=? 0) && (y <? BinaryImage.height input)) eqn:E.
  - apply Hall. unfold BinaryImage.in_bounds, BinaryImage.width,
      BinaryImage.height in *. lia.
  - unfold BinaryImage.width, BinaryImage.height.
    destruct Hb as [-> | ->]; apply Hall; split.
    + pose proof (clamp_range x (BinaryImage.width_ input - 1)). lia.
    + pose proof (clamp_range y (BinaryImage.height_ input - 1)). lia.
    + by apply wrap_range.
    + by apply wrap_range.
Qed.

(** Erosion and dilation at a pixel do not read the operation field. *)
Lemma probe_operation_irrelevant (m m' : t) (input : BinaryImage.t) (x y : Z) :
  boundary_ m = boundary_ m' →
  getPixelWithBoundary m input x y = getPixelWithBoundary m' input x y.
Proof. unfold getPixelWithBoundary. by intros ->. Qed.

Lemma checkErosion_operation_irrelevant (m m' : t) (input : BinaryImage.t) (x y : Z) :
  se_ m = se_ m' → boundary_ m = boundary_ m' →
  checkErosion m input x y = checkErosion m' input x y.
Proof.
  intros Hse Hb. unfold checkErosion. rewrite Hse.
  induction (StructuringElement.offsets (se_ m')) as [|[dx dy] offs IH]; [done|].
  simpl. by rewrite IH, (probe_operation_irrelevant m m').
Qed.

Lemma checkDilation_operation_irrelevant (m m' : t) (input : BinaryImage.t) (x y : Z) :
  se_ m = se_ m' → boundary_ m = boundary_ m' →
  checkDilation m input x y = checkDilation m' input x y.
Proof.
  intros Hse Hb. unfold checkDilation. rewrite Hse.
  induction (StructuringElement.offsets (se_ m')) as [|[dx dy] offs IH]; [done|].
  simpl. by rewrite IH, (probe_operation_irrelevant m m').
Qed.

End BoundaryOperations.

(** C2, as stated, fails for a structuring element that does not
    contain the origin: with the offsets [(-1,0); (1,0)], [Zero]
    boundary and the 3×1 grid [0 1 0], the centre pixel is in the inner
    boundary but not in the gradient. *)
Lemma gradient_union_counterexample :
  ¬ (∀ (A : BinaryImage.t) (se : StructuringElement.t) (bm : BoundaryMode) (x y : Z),
       BinaryImage.wf A → BinaryImage.in_bounds A x y →
       BinaryImage.get (Morphology.apply (Morphology.mk se Gradient bm) A) x y
       = BinaryImage.get (Morphology.apply (Morphology.mk se InnerBoundary bm) A) x y
         || BinaryImage.get (Morphology.apply (Morphology.mk se OuterBoundary bm) A) x y).
Proof.
  intros H.
  specialize (H (BinaryImage.mk 3 1 [false; true; false])
                (StructuringElement.mk 3 1 1 0 [(-1, 0); (1, 0)]) Zero 1 0).
  assert (BinaryImage.wf (BinaryImage.mk 3 1 [false; true; false])) as Hwf.
  { unfold BinaryImage.wf. simpl. lia. }
  assert (BinaryImage.in_bounds (BinaryImage.mk 3 1 [false; true; false]) 1 0) as Hin.
  { unfold BinaryImage.in_bounds. simpl. lia. }
  specialize (H Hwf Hin). vm_compute in H. discriminate H.
Qed.

(** C2 (amended): for every grid, every boundary mode and every
    structuring element whose offsets contain the origin [(0,0)], the
    Gradient result equals, at every in-bounds pixel, the disjunction
    of the InnerBoundary and OuterBoundary results. *)
Theorem gradient_is_union_of_boundaries
    (A : BinaryImage.t) (se : StructuringElement.t) (bm : BoundaryMode) (x y : Z) :
  (0, 0) ∈ StructuringElement.offsets se →
  BinaryImage.in_bounds A x y →
  BinaryImage.get (Morphology.apply (Morphology.mk se Gradient bm) A) x y
  = BinaryImage.get (Morphology.apply (Morphology.mk se InnerBoundary bm) A) x y
    || BinaryImage.get (Morphology.apply (Morphology.mk se OuterBoundary bm) A) x y.
Proof.
  intros H0 Hin. rewrite !apply_get by done.
  unfold Morphology.checkPixel. simpl.
  pose proof (erosion_le_original (Morphology.mk se Gradient bm) A x y H0 Hin) as He.
  pose proof (original_le_dilation (Morphology.mk se Gradient bm) A x y H0 Hin) as Hd.
  rewrite (checkErosion_operation_irrelevant (Morphology.mk se InnerBoundary bm)
             (Morphology.mk se Gradient bm)) by done.
  rewrite (checkDilation_operation_irrelevant (Morphology.mk se OuterBoundary bm)
             (Morphology.mk se Gradient bm)) by done.
  destruct (Morphology.checkErosion _ A x y), (Morphology.checkDilation _ A x y),
    (BinaryImage.get A x y); simpl; try done.
  all: try (by specialize (He eq_refl)); by specialize (Hd eq_refl).
Qed.

Lemma gradient_is_union_of_boundaries_witness :
  let A := BinaryImage.mk 3 3 [false; true; false; true; true; false; false; false; false] in
  let se := StructuringElement.createSquare 3 in
  (0, 0) ∈ StructuringElement.offsets se
  ∧ BinaryImage.in_bounds A 1 1
  ∧ BinaryImage.get (Morphology.apply (Morphology.mk se Gradient Zero) A) 1 1
    = BinaryImage.get (Morphology.apply (Morphology.mk se InnerBoundary Zero) A) 1 1
      || BinaryImage.get (Morphology.apply (Morphology.mk se OuterBoundary Zero) A) 1 1.
Proof.
  intros A se.
  assert ((0, 0) ∈ StructuringElement.offsets se) as H0.
  { apply createSquare_has_origin. lia. }
  assert (BinaryImage.in_bounds A 1 1) as Hin.
  { unfold BinaryImage.in_bounds. simpl. lia. }
  split; [exact H0|]. split; [exact Hin|].
  exact (gradient_is_union_of_boundaries A se Zero 1 1 H0 Hin).
Defined.

(** C5, as stated, fails for Dilation with a structuring element that
    has no offsets: the OR-reduction over nothing is false, so the 1×1
    foreground grid dilates to background under [Extend]. *)
Lemma all_foreground_counterexample :
  ¬ (∀ (A : BinaryImage.t) (se : StructuringElement.t)
       (op : MorphOperation) (bm : BoundaryMode),
       BinaryImage.wf A → BinaryImage.all_foreground A →
       op = Erosion ∨ op = Dilation →
       bm = Extend ∨ bm = Wrap →
       BinaryImage.all_foreground (Morphology.apply (Morphology.mk se op bm) A)).
Proof.
  intros H.
  specialize (H (BinaryImage.make 1 1 true)
                (StructuringElement.mk 1 1 0 0 []) Dilation Extend).
  assert (BinaryImage.wf (BinaryImage.make 1 1 true)) as Hwf.
  { apply wf_make; lia. }
  assert (BinaryImage.all_foreground (BinaryImage.make 1 1 true)) as Hall.
  { intros x y [Hx Hy]. simpl in Hx, Hy. apply get_make; lia. }
  specialize (H Hwf Hall (or_intror eq_refl) (or_introl eq_refl) 0 0).
  assert (BinaryImage.in_bounds
            (Morphology.apply
               (Morphology.mk (StructuringElement.mk 1 1 0 0 []) Dilation Extend)
               (BinaryImage.make 1 1 true)) 0 0) as Hin.
  { unfold BinaryImage.in_bounds. vm_compute. done. }
  specialize (H Hin). vm_compute in H. discriminate H.
Qed.

(** C5 (amended): for every all-foreground grid, under the [Extend]
    and under the [Wrap] boundary mode, Erosion with any structuring
    element and Dilation with any structuring element that has at
    least one offset yield an all-foreground grid of the same
    dimensions. *)
Theorem all_foreground_preserved
    (A : BinaryImage.t) (se : StructuringElement.t)
    (op : MorphOperation) (bm : BoundaryMode) :
  BinaryImage.all_foreground A →
  bm = Extend ∨ bm = Wrap →
  op = Erosion ∨ (op = Dilation ∧ StructuringElement.offsets se ≠ []) →
  let out := Morphology.apply (Morphology.mk se op bm) A in
  BinaryImage.width_ out = BinaryImage.width_ A
  ∧ BinaryImage.height_ out = BinaryImage.height_ A
  ∧ BinaryImage.all_foreground out.
Proof.
  intros Hall Hbm Hop out.
  destruct (apply_dims (Morphology.mk se op bm) A) as [Hw Hh].
  split; [exact Hw|]. split; [exact Hh|].
  intros x y Hin. unfold BinaryImage.in_bounds in Hin.
  subst out. rewrite Hw, Hh in Hin.
  rewrite apply_get by exact Hin.
  assert (∀ x' y', Morphology.getPixelWithBoundary (Morphology.mk se op bm) A x' y'
                   = true) as Hprobe.
  { intros x' y'. apply probe_all_foreground; [done|lia|lia|done]. }
  unfold Morphology.checkPixel. destruct Hop as [-> | [-> Hne]]; simpl.
  - unfold Morphology.checkErosion. apply erosion_loop_true.
    intros d _. apply Hprobe.
  - unfold Morphology.checkDilation. apply dilation_loop_true. simpl.
    destruct (StructuringElement.offsets se) as [|d offs]; [done|].
    exists d. split; [left|apply Hprobe].
Qed.

Lemma all_foreground_preserved_witness :
  let A := BinaryImage.make 2 2 true in
  let se := StructuringElement.createCross 3 in
  BinaryImage.all_foreground A
  ∧ (Wrap = Extend ∨ Wrap = Wrap)
  ∧ (Dilation = Erosion ∨ (Dilation = Dilation ∧ StructuringElement.offsets se ≠ []))
  ∧ BinaryImage.all_foreground (Morphology.apply (Morphology.mk se Dilation Wrap) A).
Proof.
  intros A se.
  assert (BinaryImage.all_foreground A) as Hall.
  { intros x y [Hx Hy]. simpl in Hx, Hy. apply get_make; lia. }
  assert (Dilation = Erosion ∨ (Dilation = Dilation ∧ StructuringElement.offsets se ≠ []))
    as Hop.
  { right. split; [reflexivity|]. vm_compute. discriminate. }
  split; [exact Hall|]. split; [right; reflexivity|]. split; [exact Hop|].
  exact (proj2 (proj2 (all_foreground_preserved A se Dilation Wrap Hall
                         (or_intror eq_refl) Hop))).
Defined.

(** * The state grid *)

Section StateGridFacts.

Import StateGrid.

Lemma shape_make (w h : Z) : shape (make w h) w h.
Proof.
  unfold shape, make. split; [by rewrite length_replicate|].
  apply Forall_replicate. by rewrite length_replicate.
Qed.

Lemma shape_set (g : t) (w h x y : Z) (v : PixelState) :
  shape g w h → shape (set g x y v) w h.
Proof.
  intros [Hl Hr]. unfold shape, set. split; [by rewrite length_alter|].
  apply Forall_alter; [done|]. intros row _ Hrow. simpl.
  by rewrite length_insert.
Qed.

Lemma state_get_make (w h x y : Z) : get (make w h) x y = Unvisited.
Proof.
  unfold get, make.
  destruct (replicate (Z.to_nat h) _ !! Z.to_nat y) as [row|] eqn:E; [|done].
  apply lookup_replicate in E as [-> _].
  destruct (replicate (Z.to_nat w) Unvisited !! Z.to_nat x) as [u|] eqn:E; [|done].
  by apply lookup_replicate in E as [-> _].
Qed.

(** Inside the grid every cell is stored. *)
Lemma lookup_cell (g : t) (w h x y : Z) :
  shape g w h → 0 ≤ x < w → 0 ≤ y < h →
  ∃ row u, g !! Z.to_nat y = Some row ∧ row !! Z.to_nat x = Some u
           ∧ get g x y = u.
Proof.
  intros [Hl Hr] Hx Hy.
  destruct (lookup_lt_is_Some_2 g (Z.to_nat y)) as [row Hrow]; [lia|].
  assert (length row = Z.to_nat w) as Hlen by (exact (Forall_lookup_1 _ _ _ _ Hr Hrow)).
  destruct (lookup_lt_is_Some_2 row (Z.to_nat x)) as [u Hu]; [lia|].
  exists row, u. unfold get. by rewrite Hrow, Hu.
Qed.

Lemma state_get_set_same (g : t) (w h x y : Z) (v : PixelState) :
  shape g w h → 0 ≤ x < w → 0 ≤ y < h → get (set g x y v) x y = v.
Proof.
  intros Hs Hx Hy.
  destruct (lookup_cell g w h x y) as (row & u & Hrow & Hu & _); [done..|].
  unfold get, set. rewrite list_lookup_alter_eq, Hrow. simpl.
  rewrite list_lookup_insert_eq; [done|]. by eapply lookup_lt_Some.
Qed.

Lemma state_get_set_other (g : t) (x y x' y' : Z) (v : PixelState) :
  0 ≤ x → 0 ≤ y → 0 ≤ x' → 0 ≤ y' → (x, y) ≠ (x', y') →
  get (set g x y v) x' y' = get g x' y'.
Proof.
  intros Hx Hy Hx' Hy' Hne. unfold get, set.
  destruct (decide (Z.to_nat y = Z.to_nat y')) as [E|E].
  - rewrite E, list_lookup_alter_eq.
    destruct (g !! Z.to_nat y') as [row|]; [|done]. simpl.
    rewrite list_lookup_insert_ne; [done|].
    intros E'. apply Hne. f_equal; lia.
  - by rewrite list_lookup_alter_ne.
Qed.

(** Two grids of the same shape with the same cells are the same
    vector of vectors. *)
Lemma grid_ext (g g' : t) (w h : Z) :
  shape g w h → shape g' w h →
  (∀ x y, 0 ≤ x < w → 0 ≤ y < h → get g x y = get g' x y) →
  g = g'.
Proof.
  intros Hs Hs' Hc. apply list_eq. intros j.
  destruct (decide (j < length g)%nat) as [Hj|Hj].
  - destruct Hs as [Hl Hr], Hs' as [Hl' Hr'].
    destruct (lookup_lt_is_Some_2 g j) as [row Hrow]; [done|].
    destruct (lookup_lt_is_Some_2 g' j) as [row' Hrow']; [lia|].
    rewrite Hrow, Hrow'. f_equal.
    assert (length row = Z.to_nat w) as Hlen by (exact (Forall_lookup_1 _ _ _ _ Hr Hrow)).
    assert (length row' = Z.to_nat w) as Hlen' by (exact (Forall_lookup_1 _ _ _ _ Hr' Hrow')).
    apply list_eq. intros i.
    destruct (decide (i < length row)%nat) as [Hi|Hi].
    + specialize (Hc (Z.of_nat i) (Z.of_nat j)).
      unfold get in Hc. rewrite !Nat2Z.id, Hrow, Hrow' in Hc.
      destruct (lookup_lt_is_Some_2 row i) as [u Hu]; [done|].
      destruct (lookup_lt_is_Some_2 row' i) as [u' Hu']; [lia|].
      rewrite Hu, Hu' in Hc. simpl in Hc. rewrite Hu, Hu'. f_equal.
      apply Hc; lia.
    + rewrite !lookup_ge_None_2; [done|lia|lia].
  - destruct Hs as [Hl _], Hs' as [Hl' _].
    rewrite !lookup_ge_None_2; [done|lia|lia].
Qed.

(** Counting cells. *)
Lemma count_row_app (v : PixelState) (a b : list PixelState) :
  count_row v (a ++ b) = (count_row v a + count_row v b)%nat.
Proof. unfold count_row. by rewrite list.filter_app, length_app. Qed.

Lemma count_row_cons (v u : PixelState) (a : list PixelState) :
  count_row v (u :: a)
  = ((if decide (u = v) then 1 else 0) + count_row v a)%nat.
Proof.
  unfold count_row. rewrite filter_cons. by destruct (decide (u = v)).
Qed.

Lemma count_row_insert (v old new : PixelState) (row : list PixelState) (i : nat) :
  row !! i = Some old →
  (count_row v (<[i := new]> row) + (if decide (old = v) then 1 else 0)
   = count_row v row + (if decide (new = v) then 1 else 0))%nat.
Proof.
  intros Hi. rewrite insert_take_drop by (by eapply lookup_lt_Some).
  rewrite <- (take_drop_middle row i old Hi) at 3.
  rewrite !count_row_app, !count_row_cons. lia.
Qed.

Lemma count_app (v : PixelState) (a b : t) :
  count v (a ++ b) = (count v a + count v b)%nat.
Proof. unfold count. by rewrite sum_list_with_app. Qed.

Lemma count_cons (v : PixelState) (row : list PixelState) (a : t) :
  count v (row :: a) = (count_row v row + count v a)%nat.
Proof. done. Qed.

Lemma count_set (v old new : PixelState) (g : t) (w h x y : Z) :
  shape g w h → 0 ≤ x < w → 0 ≤ y < h → get g x y = old →
  (count v (set g x y new) + (if decide (old = v) then 1 else 0)
   = count v g + (if decide (new = v) then 1 else 0))%nat.
Proof.
  intros Hs Hx Hy Hold.
  destruct (lookup_cell g w h x y) as (row & u & Hrow & Hu & Hget); [done..|].
  assert (u = old) as -> by congruence.
  unfold set.
  assert (alter (λ row, <[Z.to_nat x := new]> row) (Z.to_nat y) g
          = take (Z.to_nat y) g ++ <[Z.to_nat x := new]> row :: drop (S (Z.to_nat y)) g)
    as ->.
  { apply list_eq. intros j.
    destruct (decide (j = Z.to_nat y)) as [->|Hj].
    - rewrite list_lookup_alter_eq, Hrow. simpl.
      rewrite lookup_app_r by (rewrite length_take; apply lookup_lt_Some in Hrow; lia).
      rewrite length_take.
      apply lookup_lt_Some in Hrow.
      replace (Z.to_nat y - Z.to_nat y `min` length g)%nat with 0%nat by lia.
      done.
    - rewrite list_lookup_alter_ne by done.
      rewrite <- (take_drop_middle g (Z.to_nat y) row Hrow) at 1.
      apply lookup_lt_Some in Hrow.
      destruct (decide (j < Z.to_nat y)%nat).
      + rewrite !lookup_app_l by (rewrite length_take; lia). done.
      + rewrite !lookup_app_r by (rewrite length_take; lia).
        rewrite length_take.
        destruct (j - Z.to_nat y `min` length g)%nat eqn:E; [lia|done]. }
  rewrite <- (take_drop_middle g (Z.to_nat y) row Hrow) at 3.
  rewrite !count_app, !count_cons.
  pose proof (count_row_insert v old new row (Z.to_nat x) Hu). lia.
Qed.

Lemma count_make (v : PixelState) (w h : Z) :
  v ≠ Unvisited → count v (make w h) = 0%nat.
Proof.
  intros Hv. unfold count, make.
  assert (count_row v (replicate (Z.to_nat w) Unvisited) = 0%nat) as Hrow.
  { unfold count_row. induction (Z.to_nat w) as [|k IH]; [done|]. simpl.
    rewrite filter_cons_False; [done|congruence]. }
  induction (Z.to_nat h) as [|k IH]; [done|]. simpl. by rewrite Hrow, IH.
Qed.

Lemma count_le (v : PixelState) (g : t) (w : Z) :
  Forall (λ row, length row = Z.to_nat w) g →
  (count v g ≤ length g * Z.to_nat w)%nat.
Proof.
  induction 1 as [|row g Hrow _ IH]; [done|].
  rewrite count_cons. simpl.
  pose proof (length_filter (λ u, u = v) row). unfold count_row. lia.
Qed.

(** A cell that does not hold [v] keeps the count of [v] below the
    number of cells. *)
Lemma count_lt (v : PixelState) (g : t) (w h x y : Z) :
  shape g w h → 0 ≤ x < w → 0 ≤ y < h → get g x y ≠ v →
  (count v g < Z.to_nat w * Z.to_nat h)%nat.
Proof.
  intros Hs Hx Hy Hne.
  destruct (lookup_cell g w h x y) as (row & u & Hrow & Hu & Hget); [done..|].
  destruct Hs as [Hl Hr].
  rewrite <- (take_drop_middle g (Z.to_nat y) row Hrow) in Hr |- *.
  apply list.Forall_app in Hr as [Hr1 Hr2]. apply list.Forall_cons in Hr2 as [Hlen Hr2].
  rewrite count_app, count_cons.
  pose proof (count_le v _ w Hr1) as H1. pose proof (count_le v _ w Hr2) as H2.
  rewrite length_take in H1. rewrite length_drop in H2.
  assert (count_row v row < length row)%nat as H3.
  { unfold count_row. apply (length_filter_lt (λ u, u = v) row u).
    - by eapply list_elem_of_lookup_2.
    - congruence. }
  apply lookup_lt_Some in Hrow. nia.
Qed.

End StateGridFacts.

(** * The flood-fill engine: structure of a step *)

Section FloodFillStructure.

Import FloodFill.

Lemma valid_iff (f : t) (p : Z * Z) :
  valid f p ↔ 0 ≤ p.1 < width_ f ∧ 0 ≤ p.2 < height_ f.
Proof. unfold valid, isValid. lia. Qed.

Lemma valid_dec (f : t) (p : Z * Z) : valid f p ∨ ¬ valid f p.
Proof. unfold valid. destruct (isValid f p.1 p.2); [by left|by right]. Qed.

Lemma same_setup_refl (f : t) : same_setup f f.
Proof. by repeat split. Qed.

Lemma same_setup_trans (f g h : t) :
  same_setup f g → same_setup g h → same_setup f h.
Proof.
  unfold same_setup.
  intros (?&?&?&?&?&?&?&?&?&?&?) (?&?&?&?&?&?&?&?&?&?&?).
  repeat split; congruence.
Qed.

Lemma same_setup_mark (f : t) (n : Z * Z) (v : PixelState) :
  same_setup f (mark f n v).
Proof. by repeat split. Qed.

Lemma same_setup_dequeue (f : t) (pixel : Z * Z) (rest : list (Z * Z)) :
  same_setup f (dequeue f pixel rest).
Proof. by repeat split. Qed.

Lemma same_setup_valid (f f' : t) (p : Z * Z) :
  same_setup f f' → valid f' p ↔ valid f p.
Proof.
  intros (_&_&_&_&_&_&_&_&_&Hw&Hh). unfold valid, isValid. by rewrite Hw, Hh.
Qed.

(** The branches of one iteration of the neighbour loop. *)
Lemma visit_neighbor_cases (x y : Z) (f : t) (d : Z * Z) :
  (visit_neighbor x y f d = f
   ∧ (¬ valid f (shift (x, y) d) ∨ st f (shift (x, y) d) ≠ Unvisited))
  ∨ (∃ v, visit_neighbor x y f d = mark f (shift (x, y) d) v
          ∧ valid f (shift (x, y) d)
          ∧ st f (shift (x, y) d) = Unvisited
          ∧ class_ok f (shift (x, y) d) v).
Proof.
  unfold visit_neighbor, shift, valid, st. simpl.
  destruct (isValid f (x + d.1) (y + d.2)) eqn:Hv; simpl.
  2:{ left. split; [done|]. left. congruence. }
  destruct (decide (StateGrid.get (state_ f) (x + d.1) (y + d.2) = Unvisited))
    as [Hu|Hu].
  2:{ rewrite bool_decide_eq_false_2 by done. simpl. left. split; [done|by right]. }
  rewrite bool_decide_eq_true_2 by done. simpl. right.
  destruct (eqb (BinaryImage.get (source_ f) (x + d.1) (y + d.2)) (target_value_ f))
    eqn:Hs; simpl.
  - apply eqb_prop in Hs.
    destruct (BinaryImage.get (safety_mask_ f) (x + d.1) (y + d.2)) eqn:Hm; simpl.
    + exists InQueue. repeat split; done.
    + exists Unsafe. repeat split; try done. unfold safe. simpl. congruence.
  - exists Boundary. repeat split; try done. unfold same_value. simpl.
    intros E. rewrite E, eqb_reflx in Hs. discriminate.
Qed.

Lemma same_setup_visit (x y : Z) (f : t) (d : Z * Z) :
  same_setup f (visit_neighbor x y f d).
Proof.
  destruct (visit_neighbor_cases x y f d) as [[-> _]|(v & -> & _)].
  - apply same_setup_refl.
  - apply same_setup_mark.
Qed.

Lemma same_setup_loop (x y : Z) (offs : list (Z * Z)) (f : t) :
  same_setup f (fold_left (visit_neighbor x y) offs f).
Proof.
  revert f. induction offs as [|d offs IH]; intros f; simpl.
  - apply same_setup_refl.
  - eapply same_setup_trans; [apply same_setup_visit|apply IH].
Qed.

(** The two ends of the deque. *)
Lemma pop_Some (a : FillAlgorithm) (fr : list (Z * Z)) (p : Z * Z)
    (rest : list (Z * Z)) :
  pop a fr = Some (p, rest) →
  match a with BFS => fr = p :: rest | DFS => fr = rest ++ [p] end.
Proof.
  destruct a; simpl.
  - destruct fr; intros E; by simplify_eq.
  - destruct (list.last fr) as [q|] eqn:E; [|done].
    intros E'. simplify_eq. apply last_Some in E as [l' ->].
    by rewrite removelast_last.
Qed.

Lemma pop_nonempty (a : FillAlgorithm) (fr : list (Z * Z)) :
  fr ≠ [] → ∃ p rest, pop a fr = Some (p, rest).
Proof.
  intros Hne. destruct a; simpl.
  - destruct fr as [|p rest]; [done|]. by exists p, rest.
  - destruct (list.last fr) as [q|] eqn:E.
    + by exists q, (List.removelast fr).
    + by apply last_None in E.
Qed.

Lemma pop_perm (a : FillAlgorithm) (fr : list (Z * Z)) (p : Z * Z)
    (rest : list (Z * Z)) :
  pop a fr = Some (p, rest) → fr ≡ₚ p :: rest.
Proof.
  intros H. apply pop_Some in H. destruct a; subst; [done|].
  by rewrite Permutation_app_comm.
Qed.

(** A call of [step] either does nothing or dequeues one pixel and
    runs the neighbour loop from it. *)
Lemma step_idle (f : t) :
  initialized_ f = false ∨ frontier_ f = [] → step f = (false, f).
Proof.
  unfold step. intros [-> | ->]; [done|]. by rewrite orb_true_r.
Qed.

Lemma step_active (f : t) :
  initialized_ f = true → frontier_ f ≠ [] →
  ∃ pixel rest,
    pop (algorithm_ f) (frontier_ f) = Some (pixel, rest)
    ∧ step f =
        (negb (bool_decide
                 (frontier_ (fold_left (visit_neighbor pixel.1 pixel.2) (offsets_ f)
                               (dequeue f pixel rest)) = [])),
         fold_left (visit_neighbor pixel.1 pixel.2) (offsets_ f)
           (dequeue f pixel rest)).
Proof.
  intros Hi Hne. destruct (pop_nonempty (algorithm_ f) _ Hne) as (pixel & rest & Hp).
  exists pixel, rest. split; [done|]. unfold step.
  rewrite Hi, bool_decide_eq_false_2 by done. simpl. by rewrite Hp.
Qed.

Lemma step_cases (f : t) :
  (step f = (false, f) ∧ (initialized_ f = false ∨ frontier_ f = []))
  ∨ (initialized_ f = true ∧ frontier_ f ≠ []
     ∧ ∃ pixel rest,
         pop (algorithm_ f) (frontier_ f) = Some (pixel, rest)
         ∧ step f =
             (negb (bool_decide
                      (frontier_ (fold_left (visit_neighbor pixel.1 pixel.2)
                                    (offsets_ f) (dequeue f pixel rest)) = [])),
              fold_left (visit_neighbor pixel.1 pixel.2) (offsets_ f)
                (dequeue f pixel rest))).
Proof.
  destruct (initialized_ f) eqn:Hi.
  - destruct (decide (frontier_ f = [])) as [He|Hne].
    + left. split; [apply step_idle; by right|by right].
    + right. split; [done|]. split; [done|]. by apply step_active.
  - left. split; [apply step_idle; by left|by left].
Qed.

Lemma same_setup_step (f : t) : same_setup f (step f).2.
Proof.
  destruct (step_cases f) as [[-> _]|(_ & _ & pixel & rest & _ & ->)]; simpl.
  - apply same_setup_refl.
  - eapply same_setup_trans; [apply same_setup_dequeue|apply same_setup_loop].
Qed.

Lemma same_setup_steps (n : nat) (f : t) : same_setup f (steps n f).
Proof.
  revert f. induction n as [|n IH]; intros f; simpl.
  - apply same_setup_refl.
  - eapply same_setup_trans; [apply same_setup_step|apply IH].
Qed.

(** Once [step] has returned false it keeps returning false and
    changes nothing. *)
Lemma step_false_idle (f : t) :
  (step f).1 = false → step (step f).2 = (false, (step f).2).
Proof.
  destruct (step_cases f) as [[E H]|(_ & _ & pixel & rest & _ & E)];
    rewrite E; simpl.
  - intros _. by apply step_idle.
  - intros H. apply negb_false_iff, bool_decide_eq_true_1 in H.
    apply step_idle. by right.
Qed.

Lemma steps_idle (n : nat) (f : t) : step f = (false, f) → steps n f = f.
Proof. intros E. induction n as [|n IH]; simpl; [done|]. by rewrite E. Qed.

Lemma steps_succ (n : nat) (f : t) : steps (S n) f = (step (steps n f)).2.
Proof. revert f. induction n as [|n IH]; intros f; [done|]. simpl. by rewrite <- IH. Qed.

Lemma steps_add (n m : nat) (f : t) : steps (n + m) f = steps m (steps n f).
Proof. revert f. induction n as [|n IH]; intros f; [done|]. simpl. by rewrite IH. Qed.

(** The driver loop is [n] calls of [step]: the calls after the first
    false are idle. *)
Lemma run_steps (n : nat) (f : t) : run n f = steps n f.
Proof.
  revert f. induction n as [|n IH]; intros f; [done|]. simpl.
  destruct (step f) as [more f'] eqn:E.
  destruct more; [by rewrite IH|]. simpl.
  pose proof (step_false_idle f) as H. rewrite E in H. simpl in H.
  symmetry. apply steps_idle. by apply H.
Qed.

End FloodFillStructure.

(** * Initialisation *)

Section Initialisation.

Import FloodFill.

Lemma precompute_setup (f : t) :
  width_ (precomputeSafetyMask f) = width_ f
  ∧ height_ (precomputeSafetyMask f) = height_ f
  ∧ source_ (precomputeSafetyMask f) = source_ f
  ∧ target_value_ (precomputeSafetyMask f) = target_value_ f
  ∧ state_ (precomputeSafetyMask f) = state_ f
  ∧ frontier_ (precomputeSafetyMask f) = frontier_ f.
Proof. by repeat split. Qed.

Lemma initialize_width (f : t) (img : BinaryImage.t) (sx sy : Z) :
  width_ (initialize f img sx sy) = BinaryImage.width_ img.
Proof.
  unfold initialize. destruct (negb (isValid _ sx sy)); [done|].
  destruct (negb (BinaryImage.get _ sx sy)); done.
Qed.

Lemma initialize_height (f : t) (img : BinaryImage.t) (sx sy : Z) :
  height_ (initialize f img sx sy) = BinaryImage.height_ img.
Proof.
  unfold initialize. destruct (negb (isValid _ sx sy)); [done|].
  destruct (negb (BinaryImage.get _ sx sy)); done.
Qed.

Lemma initialize_source (f : t) (img : BinaryImage.t) (sx sy : Z) :
  source_ (initialize f img sx sy) = img.
Proof.
  unfold initialize. destruct (negb (isValid _ sx sy)); [done|].
  destruct (negb (BinaryImage.get _ sx sy)); done.
Qed.

Lemma initialize_radius (f : t) (img : BinaryImage.t) (sx sy : Z) :
  safety_radius_ (initialize f img sx sy) = safety_radius_ f.
Proof.
  unfold initialize. destruct (negb (isValid _ sx sy)); [done|].
  destruct (negb (BinaryImage.get _ sx sy)); done.
Qed.

Lemma initialize_offsets (f : t) (img : BinaryImage.t) (sx sy : Z) :
  offsets_ (initialize f img sx sy) = offsets_ f.
Proof.
  unfold initialize. destruct (negb (isValid _ sx sy)); [done|].
  destruct (negb (BinaryImage.get _ sx sy)); done.
Qed.

Lemma initialize_valid (f : t) (img : BinaryImage.t) (sx sy : Z) (p : Z * Z) :
  valid (initialize f img sx sy) p ↔ BinaryImage.in_bounds img p.1 p.2.
Proof.
  rewrite valid_iff, initialize_width, initialize_height. done.
Qed.

(** An out-of-bounds seed leaves a reset, not-initialized engine. *)
Lemma initialize_out_of_bounds (f : t) (img : BinaryImage.t) (sx sy : Z) :
  ¬ BinaryImage.in_bounds img sx sy →
  initialize f img sx sy =
    mk (connectivity_ f) (algorithm_ f) (safety_radius_ f) (offsets_ f)
       (disk_offsets_ f) img
       (BinaryImage.make (BinaryImage.width img) (BinaryImage.height img) false)
       (safety_mask_ f)
       (StateGrid.make (BinaryImage.width img) (BinaryImage.height img))
       [] (-1, -1) (target_value_ f) false 0%N 0%N
       (BinaryImage.width img) (BinaryImage.height img).
Proof.
  intros Hout. unfold initialize.
  match goal with |- context [negb (isValid ?g sx sy)] =>
    destruct (isValid g sx sy) eqn:E end; [|done].
  exfalso. apply Hout. revert E.
  unfold isValid, reset, BinaryImage.in_bounds, BinaryImage.width, BinaryImage.height.
  simpl. lia.
Qed.

Lemma initialize_initialized (f : t) (img : BinaryImage.t) (sx sy : Z) :
  initialized_ (initialize f img sx sy) = true ↔ BinaryImage.in_bounds img sx sy.
Proof.
  split.
  - intros Hi. destruct (in_bounds_dec img sx sy) as [H|H]; [done|].
    rewrite initialize_out_of_bounds in Hi by done. done.
  - intros Hin. unfold initialize.
    match goal with |- context [negb (isValid ?g sx sy)] =>
      destruct (isValid g sx sy) eqn:E end; simpl.
    + match goal with |- context [negb (BinaryImage.get ?m sx sy)] =>
        destruct (BinaryImage.get m sx sy) end; done.
    + exfalso. revert E Hin.
      unfold isValid, reset, BinaryImage.in_bounds, BinaryImage.width, BinaryImage.height.
      simpl. lia.
Qed.

Lemma initialize_target (f : t) (img : BinaryImage.t) (sx sy : Z) :
  BinaryImage.in_bounds img sx sy →
  target_value_ (initialize f img sx sy) = BinaryImage.get img sx sy.
Proof.
  intros Hin. unfold initialize.
  match goal with |- context [negb (isValid ?g sx sy)] =>
    destruct (isValid g sx sy) eqn:E end; simpl.
  - match goal with |- context [negb (BinaryImage.get ?m sx sy)] =>
      destruct (BinaryImage.get m sx sy) end; done.
  - exfalso. revert E Hin.
    unfold isValid, reset, BinaryImage.in_bounds, BinaryImage.width, BinaryImage.height.
    simpl. lia.
Qed.

End Initialisation.

(** * Read accessors and inert sessions *)

(** C10: [getState] answers [Unvisited] at every coordinate that fails
    the engine's bounds test, whatever the engine holds; in particular
    everywhere on a freshly constructed engine, everywhere after an
    [initialize] with an out-of-bounds seed, and outside the bound grid
    at any point of a session. *)
Theorem getState_out_of_bounds :
  (∀ (f : FloodFill.t) (x y : Z),
     FloodFill.isValid f x y = false → FloodFill.getState f x y = Unvisited)
  ∧ (∀ (c : Connectivity) (a : FillAlgorithm) (r x y : Z),
       FloodFill.getState (FloodFill.make c a r) x y = Unvisited)
  ∧ (∀ (f : FloodFill.t) (img : BinaryImage.t) (sx sy : Z) (n : nat) (x y : Z),
       ¬ BinaryImage.in_bounds img sx sy →
       FloodFill.getState (FloodFill.steps n (FloodFill.initialize f img sx sy)) x y
       = Unvisited)
  ∧ (∀ (f : FloodFill.t) (img : BinaryImage.t) (sx sy : Z) (n : nat) (x y : Z),
       ¬ BinaryImage.in_bounds img x y →
       FloodFill.getState (FloodFill.steps n (FloodFill.initialize f img sx sy)) x y
       = Unvisited).
Proof.
  split; [|split; [|split]].
  - intros f x y H. unfold FloodFill.getState. by rewrite H.
  - intros c a r x y. unfold FloodFill.getState, FloodFill.isValid. simpl.
    destruct (x >=? 0) eqn:E1; [|done].
    destruct (x <? 0) eqn:E2; [lia|done].
  - intros f img sx sy n x y Hout.
    rewrite steps_idle.
    2:{ apply step_idle. left. by rewrite initialize_out_of_bounds. }
    rewrite initialize_out_of_bounds by done.
    unfold FloodFill.getState. simpl.
    destruct (negb _); [done|]. apply state_get_make.
  - intros f img sx sy n x y Hout.
    unfold FloodFill.getState.
    destruct (FloodFill.isValid _ x y) eqn:E; [|done]. exfalso. apply Hout.
    change (valid (FloodFill.steps n (FloodFill.initialize f img sx sy)) (x, y)) in E.
    apply (proj1 (same_setup_valid _ _ _ (same_setup_steps n _))) in E.
    by apply initialize_valid in E.
Qed.

Lemma getState_out_of_bounds_witness :
  FloodFill.isValid (FloodFill.make Four BFS 0) 3 (-1) = false
  ∧ FloodFill.getState (FloodFill.make Four BFS 0) 3 (-1) = Unvisited
  ∧ ¬ BinaryImage.in_bounds (BinaryImage.make 2 2 true) 2 0
  ∧ FloodFill.getState
      (FloodFill.steps 3 (FloodFill.initialize (FloodFill.make Four BFS 0)
                            (BinaryImage.make 2 2 true) 2 0)) 0 0 = Unvisited
  ∧ FloodFill.getState
      (FloodFill.steps 3 (FloodFill.initialize (FloodFill.make Four BFS 0)
                            (BinaryImage.make 2 2 true) 0 0)) 2 0 = Unvisited.
Proof.
  assert (¬ BinaryImage.in_bounds (BinaryImage.make 2 2 true) 2 0) as Hout.
  { unfold BinaryImage.in_bounds. simpl. lia. }
  destruct getState_out_of_bounds as (H1 & _ & H3 & H4).
  split; [reflexivity|].
  split; [apply H1; reflexivity|].
  split; [exact Hout|].
  split; [apply H3; exact Hout|apply H4; exact Hout].
Defined.

(** C6: after [initialize] with a seed outside the grid the engine is
    not initialized and not complete, and every later [step] returns
    false and leaves the whole engine (result grid, state grid,
    counters, frontier and all other fields) as [initialize] left it. *)
Theorem out_of_bounds_seed_is_inert
    (f : FloodFill.t) (img : BinaryImage.t) (sx sy : Z) :
  ¬ BinaryImage.in_bounds img sx sy →
  let s := FloodFill.initialize f img sx sy in
  FloodFill.initialized_ s = false
  ∧ FloodFill.isComplete s = false
  ∧ FloodFill.frontier_ s = []
  ∧ FloodFill.filled_count_ s = 0%N
  ∧ FloodFill.unsafe_count_ s = 0%N
  ∧ ∀ n : nat,
      FloodFill.steps n s = s
      ∧ FloodFill.step (FloodFill.steps n s) = (false, s).
Proof.
  intros Hout s.
  assert (FloodFill.initialized_ s = false) as Hi.
  { subst s. by rewrite initialize_out_of_bounds. }
  assert (FloodFill.step s = (false, s)) as Hstep.
  { apply step_idle. by left. }
  split; [done|]. split.
  { unfold FloodFill.isComplete. rewrite Hi. apply andb_false_r. }
  split; [subst s; by rewrite initialize_out_of_bounds|].
  split; [subst s; by rewrite initialize_out_of_bounds|].
  split; [subst s; by rewrite initialize_out_of_bounds|].
  intros n. rewrite steps_idle by done. done.
Qed.

Lemma out_of_bounds_seed_is_inert_witness :
  let img := BinaryImage.make 3 3 true in
  let s := FloodFill.initialize (FloodFill.make Eight DFS 1) img 3 1 in
  ¬ BinaryImage.in_bounds img 3 1
  ∧ FloodFill.initialized_ s = false
  ∧ FloodFill.step (FloodFill.steps 4 s) = (false, s).
Proof.
  intros img s.
  assert (¬ BinaryImage.in_bounds img 3 1) as Hout.
  { unfold BinaryImage.in_bounds. simpl. lia. }
  split; [exact Hout|].
  pose proof (out_of_bounds_seed_is_inert (FloodFill.make Eight DFS 1) img 3 1 Hout)
    as (H1 & _ & _ & _ & _ & H6).
  split; [exact H1|exact (proj2 (H6 4%nat))].
Defined.

(** C9: in a session started by [initialize] with an in-bounds seed on
    an engine whose safety radius is at most 0, at any number of steps,
    [checkCircleFits cx cy] is true exactly when [(cx, cy)] lies inside
    the source grid and the source pixel there equals the target value
    captured at the seed. *)
Theorem checkCircleFits_without_radius
    (f : FloodFill.t) (img : BinaryImage.t) (sx sy : Z) (n : nat) (cx cy : Z) :
  BinaryImage.in_bounds img sx sy →
  FloodFill.safety_radius_ f ≤ 0 →
  let s := FloodFill.steps n (FloodFill.initialize f img sx sy) in
  FloodFill.initialized_ s = true
  ∧ FloodFill.source_ s = img
  ∧ FloodFill.target_value_ s = BinaryImage.get img sx sy
  ∧ (FloodFill.checkCircleFits s cx cy = true
     ↔ BinaryImage.in_bounds (FloodFill.source_ s) cx cy
       ∧ BinaryImage.get (FloodFill.source_ s) cx cy = FloodFill.target_value_ s).
Proof.
  intros Hin Hr s.
  pose proof (same_setup_steps n (FloodFill.initialize f img sx sy))
    as (_&_&Hrad&_&_&Hsrc&_&Htv&Hi&Hw&Hh).
  fold s in Hrad, Hsrc, Htv, Hi, Hw, Hh.
  rewrite initialize_radius in Hrad. rewrite initialize_source in Hsrc.
  rewrite initialize_target in Htv by done.
  rewrite initialize_width in Hw. rewrite initialize_height in Hh.
  split. { rewrite Hi. by apply initialize_initialized. }
  split; [done|]. split; [done|].
  unfold FloodFill.checkCircleFits.
  replace (FloodFill.safety_radius_ s <=? 0) with true by lia.
  rewrite andb_true_iff, eqb_true_iff.
  unfold FloodFill.isValid, BinaryImage.in_bounds.
  rewrite Hw, Hh, Hsrc. split; intros [H1 H2]; (split; [lia|done]).
Qed.

Lemma checkCircleFits_without_radius_witness :
  let img := BinaryImage.mk 2 2 [true; false; true; true] in
  let s := FloodFill.steps 1 (FloodFill.initialize (FloodFill.make Four BFS 0) img 0 0) in
  BinaryImage.in_bounds img 0 0
  ∧ FloodFill.safety_radius_ (FloodFill.make Four BFS 0) ≤ 0
  ∧ (FloodFill.checkCircleFits s 1 1 = true
     ↔ BinaryImage.in_bounds (FloodFill.source_ s) 1 1
       ∧ BinaryImage.get (FloodFill.source_ s) 1 1 = FloodFill.target_value_ s).
Proof.
  intros img s.
  assert (BinaryImage.in_bounds img 0 0) as Hin.
  { unfold BinaryImage.in_bounds. simpl. lia. }
  assert (FloodFill.safety_radius_ (FloodFill.make Four BFS 0) ≤ 0) as Hr.
  { simpl. lia. }
  split; [exact Hin|]. split; [exact Hr|].
  exact (proj2 (proj2 (proj2
    (checkCircleFits_without_radius (FloodFill.make Four BFS 0) img 0 0 1 1 1 Hin Hr)))).
Defined.

(** * The 5×5 scenario *)

(** C1, as stated, fails: with 4-connectivity the corner [(0,0)] is
    adjacent only to ring pixels, which are never processed, so no
    neighbour loop ever reaches it; it stays [Unvisited] and only 12
    pixels are counted unsafe.  This holds for both traversal orders. *)
Lemma scenario5_counterexample :
  ¬ scenario5_claimed (scenario5 BFS) ∧ ¬ scenario5_claimed (scenario5 DFS).
Proof.
  split; intros (Hring & _ & _ & _);
    specialize (Hring 0 0 ltac:(lia) ltac:(lia) ltac:(lia));
    vm_compute in Hring; discriminate Hring.
Qed.

(** C1 (amended): on the 5×5 all-foreground grid with safety radius 1,
    4-connectivity and seed [(2,2)], run to completion under either
    traversal order, the twelve non-corner pixels of the outermost
    ring are [Unsafe], the four corners stay [Unvisited], the inner 3×3
    block is [Processed], [filled_count] is 9 and [unsafe_count] is 12. *)
Theorem scenario5_outcome (a : FillAlgorithm) :
  FloodFill.state_ (scenario5 a) =
    [ [Unvisited; Unsafe;    Unsafe;    Unsafe;    Unvisited];
      [Unsafe;    Processed; Processed; Processed; Unsafe];
      [Unsafe;    Processed; Processed; Processed; Unsafe];
      [Unsafe;    Processed; Processed; Processed; Unsafe];
      [Unvisited; Unsafe;    Unsafe;    Unsafe;    Unvisited] ]
  ∧ FloodFill.filled_count_ (scenario5 a) = 9%N
  ∧ FloodFill.unsafe_count_ (scenario5 a) = 12%N
  ∧ FloodFill.isComplete (scenario5 a) = true
  ∧ FloodFill.getState (scenario5 a) 0 0 = Unvisited
  ∧ FloodFill.getState (scenario5 a) 4 0 = Unvisited
  ∧ FloodFill.getState (scenario5 a) 0 4 = Unvisited
  ∧ FloodFill.getState (scenario5 a) 4 4 = Unvisited.
Proof. destruct a; vm_compute; repeat split; reflexivity. Qed.

(** * The session invariant *)

Section InvariantSteps.

Import FloodFill.

Lemma shift_pair (p d : Z * Z) : shift (p.1, p.2) d = shift p d.
Proof. by destruct p. Qed.

Lemma reach_same_setup (f f' : t) (seed p : Z * Z) :
  same_setup f f' → reach f seed p → reach f' seed p.
Proof.
  intros Hs. pose proof Hs as (_&_&_&Ho&_&_&Hm&_&_&_&_).
  induction 1 as [Hv Hsafe|q d _ IH Hd Hv Hsafe].
  - apply reach_seed; [by apply (same_setup_valid f f')|].
    unfold safe. by rewrite Hm.
  - apply reach_step; [done|by rewrite Ho|by apply (same_setup_valid f f')|].
    unfold safe. by rewrite Hm.
Qed.

Lemma reach_valid_safe (f : t) (seed p : Z * Z) :
  reach f seed p → valid f p ∧ safe f p.
Proof. by destruct 1. Qed.

(** The state of a pixel after a cell of the state grid is written. *)
Lemma st_mark (f : t) (n : Z * Z) (v : PixelState) (p : Z * Z) :
  StateGrid.shape (state_ f) (width_ f) (height_ f) →
  valid f n → valid f p →
  st (mark f n v) p = if decide (p = n) then v else st f p.
Proof.
  intros Hs Hn Hp. apply valid_iff in Hn, Hp. unfold st, mark. simpl.
  destruct (decide (p = n)) as [->|Hne].
  - destruct Hp. by apply (state_get_set_same _ (width_ f) (height_ f)).
  - apply state_get_set_other; try lia.
    destruct p, n. simpl in *. congruence.
Qed.

Lemma st_dequeue (f : t) (pixel : Z * Z) (rest : list (Z * Z)) (p : Z * Z) :
  StateGrid.shape (state_ f) (width_ f) (height_ f) →
  valid f pixel → valid f p →
  st (dequeue f pixel rest) p = if decide (p = pixel) then Processed else st f p.
Proof.
  intros Hs Hn Hp. apply valid_iff in Hn, Hp. unfold st, dequeue. simpl.
  destruct (decide (p = pixel)) as [->|Hne].
  - destruct Hp. by apply (state_get_set_same _ (width_ f) (height_ f)).
  - apply state_get_set_other; try lia.
    destruct p, pixel. simpl in *. congruence.
Qed.

Lemma class_ok_cases (f : t) (n : Z * Z) (v : PixelState) :
  class_ok f n v → v = InQueue ∨ v = Boundary ∨ v = Unsafe.
Proof. destruct v; simpl; auto; done. Qed.

(** The loop invariant is not sensitive to the current pixel when no
    offset is pending. *)
Lemma Inv_cur_irrelevant (seed c c' : Z * Z) (f : t) :
  Inv seed c [] f → Inv seed c' [] f.
Proof.
  intros [].
  constructor; try done.
  intros q d Hq Hst Hd Hv.
  destruct (inv_closed0 q d Hq Hst Hd Hv) as [[_ Hin]|H]; [|by right].
  by apply elem_of_nil in Hin.
Qed.

(** An iteration of the neighbour loop that takes a [continue]
    branch before any assignment. *)
Lemma Inv_skip (seed cur d : Z * Z) (rest : list (Z * Z)) (f : t) :
  Inv seed cur (d :: rest) f →
  ¬ valid f (shift cur d) ∨ st f (shift cur d) ≠ Unvisited →
  Inv seed cur rest f.
Proof.
  intros [] Hskip.
  constructor; try done.
  - intros q d' Hq Hst Hd Hv.
    destruct (inv_closed0 q d' Hq Hst Hd Hv) as [[-> Hin]|H]; [|by right].
    apply elem_of_cons in Hin as [->|Hin]; [|by left].
    right. by destruct Hskip.
  - intros _. by apply inv_cur0.
  - intros d' Hd'. apply inv_rest0. by right.
Qed.


(** An iteration of the neighbour loop that marks the neighbour. *)
Lemma Inv_mark (seed cur d n : Z * Z) (rest : list (Z * Z)) (f : t)
    (v : PixelState) :
  Inv seed cur (d :: rest) f →
  n = shift cur d →
  valid f n →
  st f n = Unvisited →
  class_ok f n v →
  Inv seed cur rest (mark f n v).
Proof.
  intros HI Heq Hn Hu Hc.
  pose proof (inv_shape _ _ _ _ HI) as Hshape.
  assert (∀ p, valid f p →
            st (mark f n v) p = if decide (p = n) then v else st f p) as Hst.
  { intros p Hp. by apply st_mark. }
  assert (v ≠ Unvisited ∧ v ≠ Processed) as [HvU HvP].
  { destruct (class_ok_cases _ _ _ Hc) as [->|[->| ->]]; done. }
  destruct (inv_cur _ _ _ _ HI) as [Hcv Hcs]; [done|].
  assert (cur ≠ n) as Hcn by (intros E; congruence).
  assert (same_setup f (mark f n v)) as Hsetup by apply same_setup_mark.
  assert (∀ p, p ∈ frontier_ f → p ≠ n) as Hfr_ne.
  { intros p Hp ->. pose proof (inv_front_state _ _ _ _ HI _ Hp). congruence. }
  constructor.
  - exact (inv_init _ _ _ _ HI).
  - apply shape_set. exact Hshape.
  - (* frontier entries are valid *)
    intros p Hp. change (valid f p).
    assert (p ∈ frontier_ f ∨ p = n) as [H| ->]; [|by eapply inv_front_valid|done].
    revert Hp. simpl. destruct v; auto.
    rewrite elem_of_app, list_elem_of_singleton. done.
  - (* frontier entries are InQueue *)
    intros p Hp.
    assert (p ∈ frontier_ f ∨ (p = n ∧ v = InQueue)) as [H|[-> ->]].
    { revert Hp. simpl. destruct v; auto.
      rewrite elem_of_app, list_elem_of_singleton. intros [H| ->]; auto. }
    + rewrite Hst by (by eapply inv_front_valid).
      rewrite decide_False by (by apply Hfr_ne).
      by eapply inv_front_state.
    + rewrite Hst by done. by rewrite decide_True.
  - (* no duplicates *)
    pose proof (inv_front_nodup _ _ _ _ HI) as Hnd. simpl.
    destruct v; try done.
    apply list.NoDup_app. split; [done|]. split; [|apply NoDup_singleton].
    intros p Hp Hp'. apply list_elem_of_singleton in Hp'. by apply (Hfr_ne p).
  - (* InQueue pixels are in the frontier *)
    intros p Hp. change (valid f p) in Hp. rewrite Hst by done.
    destruct (decide (p = n)) as [->|Hne].
    + intros ->. simpl. rewrite elem_of_app, list_elem_of_singleton. by right.
    + intros Hq. pose proof (inv_inqueue _ _ _ _ HI _ Hp Hq) as Hin.
      simpl. destruct v; try done. rewrite elem_of_app. by left.
  - exact (inv_result_len _ _ _ _ HI).
  - exact (inv_result_w _ _ _ _ HI).
  - exact (inv_result_h _ _ _ _ HI).
  - (* result grid *)
    intros p Hp. change (valid f p) in Hp. rewrite Hst by done.
    change (result_ (mark f n v)) with (result_ f).
    rewrite (inv_result _ _ _ _ HI p Hp).
    destruct (decide (p = n)) as [->|Hne]; [|done].
    rewrite Hu. split; [done|]. intros E. by rewrite E in HvP.
  - (* filled_count *)
    change (filled_count_ (mark f n v)) with (filled_count_ f).
    rewrite (inv_filled _ _ _ _ HI). f_equal. simpl.
    apply valid_iff in Hn as [Hnx Hny].
    pose proof (count_set Processed Unvisited v (state_ f) _ _ _ _
                  Hshape Hnx Hny Hu) as Hcnt.
    rewrite decide_False in Hcnt by done.
    rewrite (decide_False (P := v = Processed)) in Hcnt by done. lia.
  - (* unsafe_count *)
    apply valid_iff in Hn as [Hnx Hny].
    pose proof (count_set Unsafe Unvisited v (state_ f) _ _ _ _
                  Hshape Hnx Hny Hu) as Hcnt.
    rewrite decide_False in Hcnt by done.
    pose proof (inv_unsafe _ _ _ _ HI) as Hold. simpl.
    destruct v; simpl in *; try (rewrite Hold; f_equal; lia); done.
  - exact (inv_mask _ _ _ _ HI).
  - (* Boundary pixels differ from the target *)
    intros p Hp. change (valid f p) in Hp. rewrite Hst by done.
    change (same_value (mark f n v) p) with (same_value f p).
    destruct (decide (p = n)) as [->|Hne]; [|by apply (inv_boundary _ _ _ _ HI)].
    intros ->. exact Hc.
  - (* Unsafe pixels *)
    intros p Hp. change (valid f p) in Hp. rewrite Hst by done.
    change (same_value (mark f n v) p) with (same_value f p).
    change (safe (mark f n v) p) with (safe f p).
    destruct (decide (p = n)) as [->|Hne]; [|by apply (inv_unsafe_class _ _ _ _ HI)].
    intros ->. exact Hc.
  - (* filled pixels are reachable *)
    intros p Hp. change (valid f p) in Hp. rewrite Hst by done.
    intros Hq. apply (reach_same_setup f); [done|].
    destruct (decide (p = n)) as [->|Hne]; [|by apply (inv_fill _ _ _ _ HI)].
    destruct Hq as [->| ->]; [|done]. destruct Hc as [_ Hsafe].
    rewrite Heq in Hn, Hsafe |- *.
    apply reach_step; [|apply (inv_rest _ _ _ _ HI); left|done|done].
    apply (inv_fill _ _ _ _ HI); [done|by right].
  - (* every marked pixel is the seed or next to a processed pixel *)
    intros p Hp. change (valid f p) in Hp. rewrite Hst by done.
    change (offsets_ (mark f n v)) with (offsets_ f).
    destruct (decide (p = n)) as [->|Hne].
    + intros _. right. exists cur, d. split; [done|].
      split; [|split; [apply (inv_rest _ _ _ _ HI); left|done]].
      rewrite Hst by done. by rewrite decide_False.
    + intros Hq. destruct (inv_touched _ _ _ _ HI p Hp Hq)
        as [->|(q & d' & Hqv & Hqs & Hd' & ->)]; [by left|].
      right. exists q, d'. split; [done|]. split; [|done].
      rewrite Hst by done. rewrite decide_False; [done|]. intros E. congruence.
  - (* the neighbours of processed pixels are marked *)
    intros q d' Hq. change (valid f q) in Hq. rewrite Hst by done.
    change (offsets_ (mark f n v)) with (offsets_ f).
    destruct (decide (q = n)) as [->|Hne]; [done|].
    intros Hqs Hd' Hv'. change (valid f (shift q d')) in Hv'.
    rewrite Hst by done.
    destruct (decide (shift q d' = n)) as [E|E]; [by right|].
    destruct (inv_closed _ _ _ _ HI q d' Hq Hqs Hd' Hv') as [[-> Hin]|H];
      [|by right].
    apply elem_of_cons in Hin as [->|Hin]; [by rewrite Heq in E|by left].
  - (* the seed is marked *)
    destruct (inv_seed _ _ _ _ HI) as [Hsv Hss]. split; [done|].
    rewrite Hst by done. by destruct (decide (seed = n)).
  - intros _. split; [done|]. rewrite Hst by done. by rewrite decide_False.
  - intros d' Hd'. apply (inv_rest _ _ _ _ HI). by right.
Qed.


(** The neighbour loop drains the pending offsets. *)
Lemma Inv_loop (seed cur : Z * Z) (rest : list (Z * Z)) (f : t) :
  Inv seed cur rest f →
  Inv seed cur [] (fold_left (visit_neighbor cur.1 cur.2) rest f).
Proof.
  revert f. induction rest as [|d rest IH]; intros f HI; [done|].
  simpl. apply IH.
  destruct (visit_neighbor_cases cur.1 cur.2 f d)
    as [[-> Hskip]|(v & -> & Hv & Hu & Hc)]; rewrite shift_pair in *.
  - by eapply Inv_skip.
  - by eapply Inv_mark.
Qed.

(** Dequeuing a pixel and marking it [Processed] opens the loop for
    it with every neighbour offset pending. *)
Lemma Inv_dequeue (seed c : Z * Z) (f : t) (pixel : Z * Z) (rest : list (Z * Z)) :
  Inv seed c [] f →
  frontier_ f ≡ₚ pixel :: rest →
  Inv seed pixel (offsets_ f) (dequeue f pixel rest).
Proof.
  intros HI Hperm.
  pose proof (inv_shape _ _ _ _ HI) as Hshape.
  assert (pixel ∈ frontier_ f) as Hpin by (rewrite Hperm; left).
  pose proof (inv_front_valid _ _ _ _ HI _ Hpin) as Hpv.
  pose proof (inv_front_state _ _ _ _ HI _ Hpin) as Hps.
  assert (NoDup (pixel :: rest)) as Hnd.
  { rewrite <- Hperm. exact (inv_front_nodup _ _ _ _ HI). }
  apply list.NoDup_cons in Hnd as [Hnotin Hnd].
  assert (∀ p, valid f p →
            st (dequeue f pixel rest) p
            = if decide (p = pixel) then Processed else st f p) as Hst.
  { intros p Hp. by apply st_dequeue. }
  assert (same_setup f (dequeue f pixel rest)) as Hsetup
    by apply same_setup_dequeue.
  assert (BinaryImage.wf (result_ f)) as Hwf.
  { apply valid_iff in Hpv. unfold BinaryImage.wf.
    rewrite (inv_result_w _ _ _ _ HI), (inv_result_h _ _ _ _ HI).
    split; [lia|]. split; [lia|]. exact (inv_result_len _ _ _ _ HI). }
  assert (BinaryImage.in_bounds (result_ f) pixel.1 pixel.2) as Hrin.
  { apply valid_iff in Hpv. unfold BinaryImage.in_bounds.
    by rewrite (inv_result_w _ _ _ _ HI), (inv_result_h _ _ _ _ HI). }
  constructor.
  - exact (inv_init _ _ _ _ HI).
  - apply shape_set. exact Hshape.
  - intros p Hp. change (valid f p). apply (inv_front_valid _ _ _ _ HI).
    rewrite Hperm. by right.
  - intros p Hp.
    assert (p ∈ frontier_ f) as Hin by (rewrite Hperm; by right).
    rewrite Hst by (by eapply inv_front_valid).
    rewrite decide_False by (intros ->; done).
    by apply (inv_front_state _ _ _ _ HI).
  - exact Hnd.
  - intros p Hp. change (valid f p) in Hp. rewrite Hst by done.
    destruct (decide (p = pixel)) as [->|Hne]; [done|].
    intros Hq. pose proof (inv_inqueue _ _ _ _ HI _ Hp Hq) as Hin.
    rewrite Hperm in Hin. apply elem_of_cons in Hin as [?|?]; done.
  - change (length (BinaryImage.pixels_
              (BinaryImage.set (result_ f) pixel.1 pixel.2 true))
            = Z.to_nat (width_ f * height_ f)).
    rewrite set_in_bounds by done. simpl. rewrite length_insert.
    exact (inv_result_len _ _ _ _ HI).
  - change (BinaryImage.width_ (BinaryImage.set (result_ f) pixel.1 pixel.2 true)
            = width_ f).
    rewrite width_set. exact (inv_result_w _ _ _ _ HI).
  - change (BinaryImage.height_ (BinaryImage.set (result_ f) pixel.1 pixel.2 true)
            = height_ f).
    rewrite height_set. exact (inv_result_h _ _ _ _ HI).
  - intros p Hp. change (valid f p) in Hp. rewrite Hst by done.
    change (result_ (dequeue f pixel rest))
      with (BinaryImage.set (result_ f) pixel.1 pixel.2 true).
    destruct (decide (p = pixel)) as [->|Hne].
    + by rewrite get_set_same.
    + rewrite get_set_other; [by apply (inv_result _ _ _ _ HI)|].
      destruct p, pixel. simpl. congruence.
  - change (filled_count_ (dequeue f pixel rest)) with (filled_count_ f + 1)%N.
    change (state_ (dequeue f pixel rest))
      with (StateGrid.set (state_ f) pixel.1 pixel.2 Processed).
    apply valid_iff in Hpv as [Hx Hy].
    pose proof (count_set Processed InQueue Processed (state_ f) _ _ _ _
                  Hshape Hx Hy Hps) as Hcnt.
    rewrite decide_False in Hcnt by done. rewrite decide_True in Hcnt by done.
    rewrite (inv_filled _ _ _ _ HI). lia.
  - change (unsafe_count_ (dequeue f pixel rest)) with (unsafe_count_ f).
    change (state_ (dequeue f pixel rest))
      with (StateGrid.set (state_ f) pixel.1 pixel.2 Processed).
    apply valid_iff in Hpv as [Hx Hy].
    pose proof (count_set Unsafe InQueue Processed (state_ f) _ _ _ _
                  Hshape Hx Hy Hps) as Hcnt.
    rewrite !decide_False in Hcnt by done.
    rewrite (inv_unsafe _ _ _ _ HI). lia.
  - exact (inv_mask _ _ _ _ HI).
  - intros p Hp. change (valid f p) in Hp. rewrite Hst by done.
    change (same_value (dequeue f pixel rest) p) with (same_value f p).
    destruct (decide (p = pixel)) as [->|Hne]; [done|].
    by apply (inv_boundary _ _ _ _ HI).
  - intros p Hp. change (valid f p) in Hp. rewrite Hst by done.
    change (same_value (dequeue f pixel rest) p) with (same_value f p).
    change (safe (dequeue f pixel rest) p) with (safe f p).
    destruct (decide (p = pixel)) as [->|Hne]; [done|].
    by apply (inv_unsafe_class _ _ _ _ HI).
  - intros p Hp. change (valid f p) in Hp. rewrite Hst by done.
    intros Hq. apply (reach_same_setup f); [done|].
    apply (inv_fill _ _ _ _ HI); [done|].
    destruct (decide (p = pixel)) as [->|Hne]; [by left|done].
  - intros p Hp. change (valid f p) in Hp. rewrite Hst by done.
    change (offsets_ (dequeue f pixel rest)) with (offsets_ f).
    intros Hq.
    assert (st f p ≠ Unvisited) as Hq'.
    { destruct (decide (p = pixel)) as [->|Hne]; [congruence|done]. }
    destruct (inv_touched _ _ _ _ HI p Hp Hq')
      as [->|(q & d' & Hqv & Hqs & Hd' & ->)]; [by left|].
    right. exists q, d'. split; [done|]. split; [|done].
    rewrite Hst by done. by destruct (decide (q = pixel)).
  - intros q d Hq. change (valid f q) in Hq. rewrite Hst by done.
    change (offsets_ (dequeue f pixel rest)) with (offsets_ f).
    intros Hqs Hd Hv. change (valid f (shift q d)) in Hv.
    rewrite Hst by done.
    destruct (decide (q = pixel)) as [->|Hne]; [by left|].
    right. destruct (decide (shift q d = pixel)); [done|].
    destruct (inv_closed _ _ _ _ HI q d Hq Hqs Hd Hv) as [[_ Hin]|H]; [|done].
    by apply elem_of_nil in Hin.
  - destruct (inv_seed _ _ _ _ HI) as [Hsv Hss]. split; [done|].
    rewrite Hst by done. by destruct (decide (seed = pixel)).
  - intros _. split; [done|]. rewrite Hst by done. by rewrite decide_True.
  - done.
Qed.

(** One call of [step] preserves the invariant. *)
Lemma Inv_step (seed c : Z * Z) (f : t) :
  Inv seed c [] f → Inv seed c [] (step f).2.
Proof.
  intros HI.
  destruct (step_cases f) as [[-> _]|(_ & _ & pixel & rest & Hpop & ->)];
    [done|]. simpl.
  apply (Inv_cur_irrelevant seed pixel).
  apply Inv_loop. apply (Inv_dequeue seed c); [done|].
  by eapply pop_perm.
Qed.

Lemma Inv_steps (seed c : Z * Z) (n : nat) (f : t) :
  Inv seed c [] f → Inv seed c [] (steps n f).
Proof.
  revert f. induction n as [|n IH]; intros f HI; [done|].
  simpl. apply IH. by apply Inv_step.
Qed.

(** Every index [step] uses on the state grid is inside the vectors:
    a frontier entry and a neighbour that passed [isValid] both
    address a stored cell. *)
Lemma Inv_cell_stored (seed c : Z * Z) (rest : list (Z * Z)) (f : t) (p : Z * Z) :
  Inv seed c rest f → valid f p →
  ∃ row u, state_ f !! Z.to_nat p.2 = Some row ∧ row !! Z.to_nat p.1 = Some u
           ∧ st f p = u.
Proof.
  intros HI Hp. apply valid_iff in Hp as [Hx Hy].
  by apply (lookup_cell _ (width_ f) (height_ f)); [apply (inv_shape _ _ _ _ HI)|..].
Qed.

End InvariantSteps.

Section InvariantStart.

Import FloodFill.

Lemma fold_left_pointwise {A B : Type} (g g' : A → B → A) (l : list B) (a : A) :
  (∀ a x, g a x = g' a x) → fold_left g l a = fold_left g' l a.
Proof.
  intros H. revert a. induction l as [|x l IH]; intros a; [done|].
  simpl. by rewrite H, IH.
Qed.

(** A pixel the precomputed mask marks safe has the target value. *)
Lemma precompute_mask_same_value (f : t) (p : Z * Z) :
  valid f p →
  safe (precomputeSafetyMask f) p → same_value f p.
Proof.
  intros Hp. apply valid_iff in Hp as [Hx Hy].
  unfold safe, same_value, precomputeSafetyMask. simpl.
  set (cond1 := λ x y : Z, eqb (BinaryImage.get (source_ f) x y) (target_value_ f)).
  set (cond2 := λ x y : Z,
         eqb (BinaryImage.get (source_ f) x y) (target_value_ f)
         && checkCircleFits f x y).
  assert (∀ cond : Z → Z → bool,
            (∀ x y, cond x y = true →
                    BinaryImage.get (source_ f) x y = target_value_ f) →
            BinaryImage.get
              (fold_left (paint cond (λ _ _, true)) (raster (width_ f) (height_ f))
                 (BinaryImage.make (width_ f) (height_ f) false)) p.1 p.2 = true →
            BinaryImage.get (source_ f) p.1 p.2 = target_value_ f) as Hgen.
  { intros cond Hcond Hget. destruct (cond p.1 p.2) eqn:E; [by apply Hcond|].
    rewrite paint_untouched in Hget.
    - rewrite get_make in Hget by done. done.
    - intros q _ ->. done. }
  destruct (safety_radius_ f <=? 0); rewrite for_yx_raster.
  - apply (Hgen cond1). intros x y. unfold cond1. apply eqb_prop.
  - intros Hget. apply (Hgen cond2).
    + intros x y. unfold cond2. rewrite andb_true_iff. intros [H _].
      by apply eqb_prop.
    + erewrite fold_left_pointwise; [exact Hget|].
      intros a x. unfold paint, cond2.
      destruct (eqb (BinaryImage.get (source_ f) x.1 x.2) (target_value_ f)),
        (checkCircleFits f x.1 x.2); done.
Qed.

(** The engine [initialize] leaves for an in-bounds seed: the seed is
    queued when the mask marks it safe and marked [Unsafe] when not. *)
Lemma initialize_in_bounds (f : t) (img : BinaryImage.t) (sx sy : Z) :
  BinaryImage.in_bounds img sx sy →
  initialize f img sx sy =
    let g := precomputeSafetyMask
               (with_target_value (reset f img) (BinaryImage.get img sx sy)) in
    with_initialized
      (mark g (sx, sy)
         (if BinaryImage.get (safety_mask_ g) sx sy then InQueue else Unsafe))
      true.
Proof.
  intros Hin. unfold initialize.
  destruct (isValid (reset f img) sx sy) eqn:E; simpl.
  - destruct (BinaryImage.get _ sx sy); done.
  - exfalso. revert E Hin.
    unfold isValid, reset, BinaryImage.in_bounds, BinaryImage.width,
      BinaryImage.height. simpl. lia.
Qed.

(** The invariant holds when a session starts. *)
Lemma Inv_start (g : t) (seed : Z * Z) (v : PixelState) :
  state_ g = StateGrid.make (width_ g) (height_ g) →
  frontier_ g = [] →
  filled_count_ g = 0%N →
  unsafe_count_ g = 0%N →
  result_ g = BinaryImage.make (width_ g) (height_ g) false →
  valid g seed →
  same_value g seed →
  (∀ p, valid g p → safe g p → same_value g p) →
  (v = InQueue ∧ safe g seed) ∨ (v = Unsafe ∧ ¬ safe g seed) →
  Inv seed seed [] (with_initialized (mark g seed v) true).
Proof.
  intros Hstate Hfr Hfc Huc Hres Hsv Hsame Hmask Hv.
  assert (StateGrid.shape (state_ g) (width_ g) (height_ g)) as Hshape.
  { rewrite Hstate. apply shape_make. }
  assert (∀ p, valid g p →
            st (with_initialized (mark g seed v) true) p
            = if decide (p = seed) then v else Unvisited) as Hst.
  { intros p Hp. change (st (with_initialized (mark g seed v) true) p)
      with (st (mark g seed v) p).
    rewrite st_mark by done. destruct (decide (p = seed)); [done|].
    unfold st. rewrite Hstate. apply state_get_make. }
  assert (v ≠ Unvisited ∧ v ≠ Processed ∧ v ≠ Boundary) as (HvU & HvP & HvB).
  { destruct Hv as [[-> _]|[-> _]]; done. }
  assert (st g seed = Unvisited) as Hu.
  { unfold st. rewrite Hstate. apply state_get_make. }
  constructor.
  - done.
  - apply shape_set. exact Hshape.
  - intros p. simpl. rewrite Hfr. destruct v; simpl;
      rewrite ?list_elem_of_singleton; try (intros H; by apply elem_of_nil in H).
    by intros ->.
  - intros p. simpl. rewrite Hfr. destruct v; simpl;
      rewrite ?list_elem_of_singleton; try (intros H; by apply elem_of_nil in H).
    intros ->. rewrite Hst by done. by rewrite decide_True.
  - simpl. rewrite Hfr. destruct v; simpl; try apply NoDup_nil_2.
    apply NoDup_singleton.
  - intros p Hp. change (valid g p) in Hp. rewrite Hst by done.
    destruct (decide (p = seed)) as [->|Hne]; [|done].
    intros ->. simpl. rewrite Hfr. simpl. left.
  - simpl. rewrite Hres. simpl. by rewrite length_replicate.
  - simpl. by rewrite Hres.
  - simpl. by rewrite Hres.
  - intros p Hp. change (valid g p) in Hp. rewrite Hst by done.
    simpl. rewrite Hres. apply valid_iff in Hp as [Hx Hy].
    rewrite get_make by done.
    destruct (decide (p = seed)); split; try done.
  - simpl. rewrite Hfc. apply valid_iff in Hsv as [Hx Hy].
    pose proof (count_set Processed Unvisited v (state_ g) _ _ _ _
                  Hshape Hx Hy Hu) as Hcnt.
    rewrite decide_False in Hcnt by done.
    rewrite (decide_False (P := v = Processed)) in Hcnt by done.
    rewrite Hstate in Hcnt at 2. rewrite count_make in Hcnt by done. lia.
  - simpl. rewrite Huc. apply valid_iff in Hsv as [Hx Hy].
    pose proof (count_set Unsafe Unvisited v (state_ g) _ _ _ _
                  Hshape Hx Hy Hu) as Hcnt.
    rewrite decide_False in Hcnt by done.
    rewrite Hstate in Hcnt at 2. rewrite count_make in Hcnt by done.
    destruct Hv as [[-> _]|[-> _]]; simpl in Hcnt; lia.
  - exact Hmask.
  - intros p Hp. change (valid g p) in Hp. rewrite Hst by done.
    destruct (decide (p = seed)); [|done]. intros E. by rewrite E in HvB.
  - intros p Hp. change (valid g p) in Hp. rewrite Hst by done.
    destruct (decide (p = seed)) as [->|Hne]; [|done].
    intros ->. destruct Hv as [[? _]|[_ Hns]]; [done|]. by split.
  - intros p Hp. change (valid g p) in Hp. rewrite Hst by done.
    destruct (decide (p = seed)) as [->|Hne]; [|by intros [?|?]].
    intros Hq. destruct Hv as [[_ Hsafe]|[-> _]]; [|by destruct Hq].
    by apply reach_seed.
  - intros p Hp. change (valid g p) in Hp. rewrite Hst by done.
    destruct (decide (p = seed)) as [->|Hne]; [by left|done].
  - intros q d Hq. change (valid g q) in Hq. rewrite Hst by done.
    destruct (decide (q = seed)); [|done]. intros E. by rewrite E in HvP.
  - split; [done|]. rewrite Hst by done. by rewrite decide_True.
  - done.
  - intros d Hd. by apply elem_of_nil in Hd.
Qed.

Lemma Inv_initialize (f : t) (img : BinaryImage.t) (sx sy : Z) :
  BinaryImage.in_bounds img sx sy →
  Inv (sx, sy) (sx, sy) [] (initialize f img sx sy).
Proof.
  intros Hin. rewrite initialize_in_bounds by done. cbv zeta.
  set (g0 := with_target_value (reset f img) (BinaryImage.get img sx sy)).
  assert (valid g0 (sx, sy)) as Hv.
  { apply valid_iff. exact Hin. }
  apply Inv_start; try done.
  - intros p Hp Hsafe. change (same_value g0 p).
    apply precompute_mask_same_value; [exact Hp|exact Hsafe].
  - unfold safe. cbn [fst snd].
    destruct (BinaryImage.get (safety_mask_ (precomputeSafetyMask g0)) sx sy);
      [by left|by right].
Qed.

End InvariantStart.

(** * The per-pixel state machine *)

Section Transitions.

Import FloodFill.

Lemma shape_visit (x y : Z) (f : t) (d : Z * Z) :
  StateGrid.shape (state_ f) (width_ f) (height_ f) →
  StateGrid.shape (state_ (visit_neighbor x y f d))
    (width_ (visit_neighbor x y f d)) (height_ (visit_neighbor x y f d)).
Proof.
  intros Hs.
  destruct (visit_neighbor_cases x y f d) as [[-> _]|(v & -> & _)]; [done|].
  by apply shape_set.
Qed.

(** The neighbour loop only moves pixels out of [Unvisited], into
    [InQueue], [Boundary] or [Unsafe]. *)
Lemma loop_transition (x y : Z) (offs : list (Z * Z)) (f : t) (p : Z * Z) :
  StateGrid.shape (state_ f) (width_ f) (height_ f) →
  valid f p →
  st (fold_left (visit_neighbor x y) offs f) p = st f p
  ∨ (st f p = Unvisited
     ∧ (st (fold_left (visit_neighbor x y) offs f) p = InQueue
        ∨ st (fold_left (visit_neighbor x y) offs f) p = Boundary
        ∨ st (fold_left (visit_neighbor x y) offs f) p = Unsafe)).
Proof.
  revert f. induction offs as [|d offs IH]; intros f Hs Hp; [by left|].
  simpl.
  pose proof (shape_visit x y f d Hs) as Hs1.
  assert (valid (visit_neighbor x y f d) p) as Hp1.
  { by apply (same_setup_valid f _ _ (same_setup_visit x y f d)). }
  specialize (IH _ Hs1 Hp1).
  destruct (visit_neighbor_cases x y f d)
    as [[E _]|(v & E & Hv & Hu & Hc)]; rewrite E in *; [done|].
  rewrite st_mark in IH by done.
  destruct (decide (p = shift (x, y) d)) as [->|Hne]; [|done].
  right. split; [done|].
  destruct IH as [IH|[IH _]].
  - rewrite IH. by apply (class_ok_cases f (shift (x, y) d)).
  - destruct (class_ok_cases _ _ _ Hc) as [->|[->| ->]]; done.
Qed.

(** One call of [step] moves every pixel along the state machine. *)
Lemma step_transition (seed c : Z * Z) (f : t) (p : Z * Z) :
  Inv seed c [] f → valid f p →
  transition (st f p) (st (step f).2 p).
Proof.
  intros HI Hp.
  destruct (step_cases f) as [[-> _]|(_ & _ & pixel & rest & Hpop & ->)];
    [by left|]. simpl.
  pose proof (pop_perm _ _ _ _ Hpop) as Hperm.
  assert (pixel ∈ frontier_ f) as Hpin by (rewrite Hperm; left).
  pose proof (inv_front_valid _ _ _ _ HI _ Hpin) as Hpv.
  pose proof (inv_front_state _ _ _ _ HI _ Hpin) as Hps.
  pose proof (inv_shape _ _ _ _ HI) as Hshape.
  assert (StateGrid.shape (state_ (dequeue f pixel rest))
            (width_ (dequeue f pixel rest)) (height_ (dequeue f pixel rest)))
    as Hshape' by (by apply shape_set).
  pose proof (loop_transition pixel.1 pixel.2 (offsets_ f)
                (dequeue f pixel rest) p Hshape' Hp) as Hloop.
  rewrite st_dequeue in Hloop by done.
  destruct Hloop as [E|[Hu E]].
  - rewrite E. destruct (decide (p = pixel)) as [->|Hne]; [|by left].
    right. right. left. done.
  - destruct (decide (p = pixel)) as [->|Hne]; [done|].
    unfold transition. rewrite Hu.
    destruct E as [->|[->| ->]]; [right; left|right; right; right; left
                                 |right; right; right; right]; done.
Qed.

Lemma getState_st (f : t) (x y : Z) :
  getState f x y = if isValid f x y then st f (x, y) else Unvisited.
Proof. unfold getState. by destruct (isValid f x y). Qed.

Lemma transition_refl (a : PixelState) : transition a a.
Proof. by left. Qed.

(** The same, on the public accessor and for every session. *)
Lemma session_step_transition (f : t) (img : BinaryImage.t) (sx sy : Z)
    (n : nat) (x y : Z) :
  transition
    (getState (steps n (initialize f img sx sy)) x y)
    (getState (step (steps n (initialize f img sx sy))).2 x y).
Proof.
  set (s := steps n (initialize f img sx sy)).
  destruct (in_bounds_dec img sx sy) as [Hin|Hout].
  - pose proof (Inv_steps _ _ n _ (Inv_initialize f img sx sy Hin)) as HI.
    fold s in HI. rewrite !getState_st.
    destruct (isValid s x y) eqn:E.
    + assert (isValid (step s).2 x y = true) as ->.
      { by apply (same_setup_valid s _ (x, y) (same_setup_step s)). }
      by eapply step_transition.
    + assert (isValid (step s).2 x y = false) as ->; [|by left].
      destruct (isValid (step s).2 x y) eqn:E'; [|done].
      apply (same_setup_valid s _ (x, y) (same_setup_step s)) in E'.
      unfold valid in E'. simpl in E'. congruence.
  - assert (step s = (false, s)) as ->; [|by left].
    apply step_idle. left.
    pose proof (same_setup_steps n (initialize f img sx sy))
      as (_&_&_&_&_&_&_&_&Hi&_&_).
    fold s in Hi. rewrite Hi. by rewrite initialize_out_of_bounds.
Qed.

Lemma transition_terminal (a b : PixelState) :
  transition a b → terminal a → b = a.
Proof.
  unfold transition, terminal.
  intros [->|[[-> _]|[[-> _]|[[-> _]|[-> _]]]]] [?|[?|?]]; done.
Qed.

Lemma transition_visited (a b : PixelState) :
  transition a b → a ≠ Unvisited → b ≠ Unvisited.
Proof.
  unfold transition.
  intros [->|[[-> _]|[[_ ->]|[[-> _]|[-> _]]]]] H; done.
Qed.

Lemma st_with_initialized (g : t) (b : bool) (p : Z * Z) :
  st (with_initialized g b) p = st g p.
Proof. done. Qed.

(** What [initialize] does to the freshly reset grid. *)
Lemma initialize_transition (f : t) (img : BinaryImage.t) (sx sy x y : Z) :
  getState (initialize f img sx sy) x y = Unvisited
  ∨ ((x, y) = (sx, sy)
     ∧ (getState (initialize f img sx sy) x y = InQueue
        ∨ getState (initialize f img sx sy) x y = Unsafe)).
Proof.
  destruct (in_bounds_dec img sx sy) as [Hin|Hout].
  - rewrite getState_st.
    destruct (isValid (initialize f img sx sy) x y) eqn:E; [|by left].
    revert E. rewrite initialize_in_bounds by done. cbv zeta. intros E.
    rewrite !st_with_initialized, st_mark.
    + destruct (decide ((x, y) = (sx, sy))) as [Heq|Hne].
      * right. split; [done|].
        match goal with |- context [if ?b then InQueue else Unsafe] =>
          destruct b end; [by left|by right].
      * left. unfold st. simpl. apply state_get_make.
    + apply shape_make.
    + apply valid_iff. exact Hin.
    + exact E.
  - left. rewrite getState_st, initialize_out_of_bounds by done.
    destruct (isValid _ x y); [|done]. unfold st. simpl. apply state_get_make.
Qed.

End Transitions.

(** C4: in every session ([initialize], then any number of [step]
    calls) each call of [step] leaves a pixel's state unchanged or moves
    it along one of Unvisited→InQueue, InQueue→Processed,
    Unvisited→Boundary, Unvisited→Unsafe; [initialize] leaves every
    pixel Unvisited except the seed, which it may make InQueue or
    Unsafe; a pixel that is Processed, Boundary or Unsafe keeps that
    state through all later steps; and a pixel that has left Unvisited
    never returns to it. *)
Theorem pixel_state_machine
    (f : FloodFill.t) (img : BinaryImage.t) (sx sy : Z) (x y : Z) :
  let s := λ n : nat, FloodFill.steps n (FloodFill.initialize f img sx sy) in
  (∀ n, transition (FloodFill.getState (s n) x y)
                   (FloodFill.getState (FloodFill.step (s n)).2 x y))
  ∧ (∀ n, FloodFill.getState (s (S n)) x y
          = FloodFill.getState (FloodFill.step (s n)).2 x y)
  ∧ (FloodFill.getState (s 0%nat) x y = Unvisited
     ∨ ((x, y) = (sx, sy)
        ∧ (FloodFill.getState (s 0%nat) x y = InQueue
           ∨ FloodFill.getState (s 0%nat) x y = Unsafe)))
  ∧ (∀ n k, terminal (FloodFill.getState (s n) x y) →
            FloodFill.getState (s (n + k)%nat) x y = FloodFill.getState (s n) x y)
  ∧ (∀ n k, FloodFill.getState (s n) x y ≠ Unvisited →
            FloodFill.getState (s (n + k)%nat) x y ≠ Unvisited).
Proof.
  intros s.
  assert (∀ n, transition (FloodFill.getState (s n) x y)
                          (FloodFill.getState (s (S n)) x y)) as Hstep.
  { intros n. unfold s. rewrite steps_succ. apply session_step_transition. }
  split; [intros n; apply session_step_transition|].
  split; [intros n; unfold s; by rewrite steps_succ|].
  split; [apply initialize_transition|].
  split.
  - intros n k Ht. induction k as [|k IH]; [by rewrite Nat.add_0_r|].
    rewrite Nat.add_succ_r.
    rewrite (transition_terminal _ _ (Hstep (n + k)%nat)); [done|].
    by rewrite IH.
  - intros n k Hv. induction k as [|k IH]; [by rewrite Nat.add_0_r|].
    rewrite Nat.add_succ_r.
    by apply (transition_visited _ _ (Hstep (n + k)%nat)).
Qed.

Lemma pixel_state_machine_witness :
  let s := λ n : nat,
    FloodFill.steps n (FloodFill.initialize (FloodFill.make Four BFS 0)
                         (BinaryImage.mk 2 2 [true; true; false; true]) 0 0) in
  terminal (FloodFill.getState (s 1%nat) 0 0)
  ∧ FloodFill.getState (s (1 + 2)%nat) 0 0 = FloodFill.getState (s 1%nat) 0 0
  ∧ FloodFill.getState (s 1%nat) 0 1 ≠ Unvisited
  ∧ FloodFill.getState (s (1 + 1)%nat) 0 1 ≠ Unvisited.
Proof.
  intros s.
  pose proof (pixel_state_machine (FloodFill.make Four BFS 0)
                (BinaryImage.mk 2 2 [true; true; false; true]) 0 0 0 0)
    as (_ & _ & _ & H4 & _).
  pose proof (pixel_state_machine (FloodFill.make Four BFS 0)
                (BinaryImage.mk 2 2 [true; true; false; true]) 0 0 0 1)
    as (_ & _ & _ & _ & H5).
  assert (terminal (FloodFill.getState (s 1%nat) 0 0)) as Ht.
  { left. reflexivity. }
  assert (FloodFill.getState (s 1%nat) 0 1 ≠ Unvisited) as Hv.
  { vm_compute. discriminate. }
  split; [exact Ht|]. split; [exact (H4 1%nat 2%nat Ht)|].
  split; [exact Hv|exact (H5 1%nat 1%nat Hv)].
Defined.

(** * The frontier and termination *)

Section Frontier.

Import FloodFill.

(** What the neighbour loop appends to the frontier: distinct pixels
    that were [Unvisited] when the loop began. *)
Lemma loop_frontier (x y : Z) (offs : list (Z * Z)) (f : t) :
  StateGrid.shape (state_ f) (width_ f) (height_ f) →
  ∃ new,
    frontier_ (fold_left (visit_neighbor x y) offs f) = frontier_ f ++ new
    ∧ NoDup new
    ∧ ∀ p, p ∈ new → valid f p ∧ st f p = Unvisited.
Proof.
  revert f. induction offs as [|d offs IH]; intros f Hs.
  { exists []. simpl. rewrite app_nil_r. split; [done|].
    split; [apply NoDup_nil_2|]. intros p Hp. by apply elem_of_nil in Hp. }
  simpl.
  destruct (IH _ (shape_visit x y f d Hs)) as (new & Hfr & Hnd & Hnew).
  destruct (visit_neighbor_cases x y f d)
    as [[E _]|(v & E & Hv & Hu & Hc)]; rewrite E in *.
  { by exists new. }
  assert (∀ p, p ∈ new → p ≠ shift (x, y) d ∧ valid f p ∧ st f p = Unvisited)
    as Hnew'.
  { intros p Hp. destruct (Hnew p Hp) as [Hpv Hpu].
    change (valid f p) in Hpv. rewrite st_mark in Hpu by done.
    destruct (decide (p = shift (x, y) d)) as [->|Hne]; [|done].
    destruct (class_ok_cases _ _ _ Hc) as [->|[->| ->]]; done. }
  destruct (decide (v = InQueue)) as [->|Hvq].
  - exists (shift (x, y) d :: new). rewrite Hfr. simpl.
    rewrite <- app_assoc. split; [done|]. split.
    + apply list.NoDup_cons. split; [|done].
      intros Hin. by destruct (Hnew' _ Hin).
    + intros p Hp. apply elem_of_cons in Hp as [->|Hp]; [done|].
      by destruct (Hnew' _ Hp) as (_ & ? & ?).
  - exists new. rewrite Hfr. split.
    + simpl. by destruct v.
    + split; [done|]. intros p Hp. by destruct (Hnew' _ Hp) as (_ & ? & ?).
Qed.

Lemma loop_filled_count (x y : Z) (offs : list (Z * Z)) (f : t) :
  filled_count_ (fold_left (visit_neighbor x y) offs f) = filled_count_ f.
Proof.
  revert f. induction offs as [|d offs IH]; intros f; [done|].
  simpl. rewrite IH.
  by destruct (visit_neighbor_cases x y f d) as [[-> _]|(v & -> & _)].
Qed.

(** What a call of [step] pushes. *)
Lemma pushed_by_step_spec (seed c : Z * Z) (f : t) :
  Inv seed c [] f →
  NoDup (pushed_by_step f)
  ∧ (∀ p, p ∈ pushed_by_step f →
          valid f p ∧ st f p = Unvisited ∧ p ∈ frontier_ (step f).2)
  ∧ (∀ p, p ∈ frontier_ (step f).2 →
          p ∈ frontier_ f ∨ p ∈ pushed_by_step f).
Proof.
  intros HI. unfold pushed_by_step.
  destruct (step_cases f) as [[E Hidle]|(Hi & Hne & pixel & rest & Hpop & E)].
  - assert (negb (initialized_ f) || bool_decide (frontier_ f = []) = true) as ->.
    { destruct Hidle as [-> | ->]; [done|]. by rewrite orb_true_r. }
    rewrite E. simpl. split; [apply NoDup_nil_2|]. split; [|by left].
    intros p Hp. by apply elem_of_nil in Hp.
  - rewrite Hi, bool_decide_eq_false_2 by done. simpl. rewrite Hpop, E. simpl.
    pose proof (pop_perm _ _ _ _ Hpop) as Hperm.
    assert (pixel ∈ frontier_ f) as Hpin by (rewrite Hperm; left).
    pose proof (inv_front_valid _ _ _ _ HI _ Hpin) as Hpv.
    pose proof (inv_front_state _ _ _ _ HI _ Hpin) as Hps.
    pose proof (inv_shape _ _ _ _ HI) as Hshape.
    destruct (loop_frontier pixel.1 pixel.2 (offsets_ f) (dequeue f pixel rest))
      as (new & Hfr & Hnd & Hnew); [by apply shape_set|].
    change (frontier_ (dequeue f pixel rest)) with rest in Hfr.
    rewrite Hfr, drop_app_length. split; [done|]. split.
    + intros p Hp. destruct (Hnew p Hp) as [Hv Hu].
      change (valid f p) in Hv. rewrite st_dequeue in Hu by done.
      destruct (decide (p = pixel)); [done|].
      split; [done|]. split; [done|]. rewrite elem_of_app. by right.
    + intros p Hp. apply elem_of_app in Hp as [Hp|Hp]; [|by right].
      left. rewrite Hperm. by right.
Qed.

(** Every logged push hit a pixel that was [Unvisited] when logging
    began, and no pixel is logged twice. *)
Lemma push_log_fresh (seed c : Z * Z) (n : nat) (f : t) :
  Inv seed c [] f →
  NoDup (push_log n f)
  ∧ ∀ p, p ∈ push_log n f → valid f p ∧ st f p = Unvisited.
Proof.
  revert f. induction n as [|n IH]; intros f HI.
  { simpl. split; [apply NoDup_nil_2|]. intros p Hp. by apply elem_of_nil in Hp. }
  simpl.
  destruct (pushed_by_step_spec seed c f HI) as (Hnd & Hpushed & _).
  pose proof (Inv_step seed c f HI) as HI'.
  destruct (IH _ HI') as (Hnd' & Hlog).
  assert (∀ p, p ∈ push_log n (step f).2 → valid f p ∧ st f p = Unvisited)
    as Hlog'.
  { intros p Hp. destruct (Hlog p Hp) as [Hv Hu].
    apply (same_setup_valid f _ p (same_setup_step f)) in Hv.
    split; [done|].
    destruct (decide (st f p = Unvisited)) as [|Hne]; [done|].
    by pose proof (transition_visited _ _ (step_transition seed c f p HI Hv) Hne). }
  split.
  - apply list.NoDup_app. split; [done|]. split; [|done].
    intros p Hp Hp'. destruct (Hpushed p Hp) as (_ & _ & Hin).
    pose proof (inv_front_state _ _ _ _ HI' _ Hin) as Hq.
    destruct (Hlog p Hp') as [_ Hu]. congruence.
  - intros p Hp. apply elem_of_app in Hp as [Hp|Hp]; [|by apply Hlog'].
    by destruct (Hpushed p Hp) as (? & ? & _).
Qed.

Lemma frontier_in_push_log (seed c : Z * Z) (n : nat) (f : t) (p : Z * Z) :
  Inv seed c [] f →
  p ∈ frontier_ (steps n f) → p ∈ frontier_ f ++ push_log n f.
Proof.
  revert f. induction n as [|n IH]; intros f HI Hp.
  { simpl in *. by rewrite app_nil_r. }
  simpl in Hp. apply IH in Hp; [|by apply Inv_step].
  destruct (pushed_by_step_spec seed c f HI) as (_ & _ & Hfr).
  simpl. rewrite !elem_of_app in *.
  destruct Hp as [Hp|Hp]; [|by right; right].
  destruct (Hfr p Hp); [by left|by right; left].
Qed.

(** Progress: an active call of [step] processes one more pixel. *)
Lemma step_progress (seed c : Z * Z) (f : t) :
  Inv seed c [] f → frontier_ f ≠ [] →
  StateGrid.count Processed (state_ (step f).2)
  = S (StateGrid.count Processed (state_ f)).
Proof.
  intros HI Hne.
  pose proof (inv_filled _ _ _ _ (Inv_step seed c f HI)) as H'.
  pose proof (inv_filled _ _ _ _ HI) as H.
  destruct (step_active f (inv_init _ _ _ _ HI) Hne) as (pixel & rest & _ & E).
  rewrite E in H' |- *. simpl in H' |- *.
  rewrite loop_filled_count in H'.
  change (filled_count_ (dequeue f pixel rest)) with (filled_count_ f + 1)%N in H'.
  lia.
Qed.

Lemma processed_bound (seed c : Z * Z) (f : t) :
  Inv seed c [] f →
  (StateGrid.count Processed (state_ f) ≤ area f)%nat
  ∧ (frontier_ f ≠ [] → (StateGrid.count Processed (state_ f) < area f)%nat).
Proof.
  intros HI. pose proof (inv_shape _ _ _ _ HI) as Hshape. split.
  - destruct Hshape as [Hl Hr]. pose proof (count_le Processed _ _ Hr).
    unfold area. nia.
  - intros Hne. destruct (frontier_ f) as [|p fr] eqn:E; [done|].
    assert (p ∈ frontier_ f) as Hin by (rewrite E; left).
    pose proof (inv_front_valid _ _ _ _ HI _ Hin) as Hv.
    pose proof (inv_front_state _ _ _ _ HI _ Hin) as Hq.
    apply valid_iff in Hv as [Hx Hy].
    apply (count_lt Processed _ _ _ p.1 p.2 Hshape Hx Hy).
    unfold st in Hq. congruence.
Qed.

Lemma area_step (f : t) : area (step f).2 = area f.
Proof.
  pose proof (same_setup_step f) as (_&_&_&_&_&_&_&_&_&Hw&Hh).
  unfold area. by rewrite Hw, Hh.
Qed.

(** The frontier is non-empty for the first [k] calls and empty from
    then on, for a [k] bounded by the pixels not yet processed. *)
Lemma frontier_empties (seed c : Z * Z) (m : nat) (f : t) :
  Inv seed c [] f →
  (area f - StateGrid.count Processed (state_ f) ≤ m)%nat →
  ∃ k, (k ≤ m)%nat
       ∧ (∀ n, (n < k)%nat → frontier_ (steps n f) ≠ [])
       ∧ (∀ n, (k ≤ n)%nat → steps n f = steps k f)
       ∧ frontier_ (steps k f) = [].
Proof.
  revert f. induction m as [|m IH]; intros f HI Hm.
  - exists 0%nat. destruct (processed_bound seed c f HI) as [_ Hlt].
    assert (frontier_ f = []) as He.
    { destruct (decide (frontier_ f = [])) as [|Hne]; [done|].
      specialize (Hlt Hne). lia. }
    split; [done|]. split; [intros n Hn; lia|]. split; [|done].
    intros n _. apply steps_idle, step_idle. by right.
  - destruct (decide (frontier_ f = [])) as [He|Hne].
    + exists 0%nat. split; [lia|]. split; [intros n Hn; lia|]. split; [|done].
      intros n _. apply steps_idle, step_idle. by right.
    + destruct (IH (step f).2) as (k & Hk & Hbefore & Hafter & Hempty).
      * by apply Inv_step.
      * rewrite area_step, (step_progress seed c) by done.
        destruct (processed_bound seed c f HI) as [_ Hlt].
        specialize (Hlt Hne). lia.
      * exists (S k). split; [lia|]. split; [|split; [|done]].
        -- intros [|n] Hn; [done|]. simpl. apply Hbefore. lia.
        -- intros [|n] Hn; [lia|]. simpl. apply Hafter. lia.
Qed.

End Frontier.

(** C7: in a session started with an in-bounds seed, the frontier never
    holds a coordinate twice and every entry has state InQueue; the
    coordinates pushed by [initialize] and by the first [n] calls of
    [step] are pairwise distinct (each coordinate is pushed at most
    once) and every frontier entry stems from one of these pushes; and
    there is a [k ≤ width × height] such that the first [k] calls of
    [step] find a non-empty frontier and, from then on, the frontier is
    empty, [isComplete] is true and [step] returns false without
    changing the engine. *)
Theorem frontier_once_and_termination
    (f : FloodFill.t) (img : BinaryImage.t) (sx sy : Z) :
  BinaryImage.in_bounds img sx sy →
  let s := λ n : nat, FloodFill.steps n (FloodFill.initialize f img sx sy) in
  (∀ n,
     NoDup (FloodFill.frontier_ (s n))
     ∧ (∀ p, p ∈ FloodFill.frontier_ (s n) →
             FloodFill.getState (s n) p.1 p.2 = InQueue)
     ∧ NoDup (FloodFill.frontier_ (s 0%nat) ++ push_log n (s 0%nat))
     ∧ (∀ p, p ∈ FloodFill.frontier_ (s n) →
             p ∈ FloodFill.frontier_ (s 0%nat) ++ push_log n (s 0%nat)))
  ∧ ∃ k : nat,
      (k ≤ Z.to_nat (BinaryImage.width img * BinaryImage.height img))%nat
      ∧ (∀ n, (n < k)%nat → FloodFill.frontier_ (s n) ≠ [])
      ∧ (∀ n, (k ≤ n)%nat →
              FloodFill.frontier_ (s n) = []
              ∧ FloodFill.isComplete (s n) = true
              ∧ FloodFill.step (s n) = (false, s n)).
Proof.
  intros Hin s.
  pose proof (Inv_initialize f img sx sy Hin) as HI0.
  assert (∀ n, Inv (sx, sy) (sx, sy) [] (s n)) as HI.
  { intros n. by apply Inv_steps. }
  split.
  - intros n. split; [exact (inv_front_nodup _ _ _ _ (HI n))|]. split; [|split].
    + intros p Hp. rewrite getState_st.
      pose proof (inv_front_valid _ _ _ _ (HI n) _ Hp) as Hv.
      unfold valid in Hv. rewrite Hv. destruct p.
      exact (inv_front_state _ _ _ _ (HI n) _ Hp).
    + destruct (push_log_fresh _ _ n _ HI0) as [Hnd Hfresh].
      apply list.NoDup_app. split; [exact (inv_front_nodup _ _ _ _ HI0)|].
      split; [|done]. intros p Hp Hp'.
      pose proof (inv_front_state _ _ _ _ HI0 _ Hp) as Hq.
      destruct (Hfresh p Hp') as [_ Hu]. unfold s in Hu. simpl in Hu. congruence.
    + intros p Hp. by apply (frontier_in_push_log (sx, sy) (sx, sy)).
  - destruct (frontier_empties _ _ (area (FloodFill.initialize f img sx sy)) _ HI0)
      as (k & Hk & Hbefore & Hafter & Hempty); [lia|].
    exists k. split; [|split; [exact Hbefore|]].
    + unfold area in Hk.
      rewrite initialize_width, initialize_height in Hk.
      destruct Hin as [Hx Hy].
      unfold BinaryImage.width, BinaryImage.height.
      rewrite Z2Nat.inj_mul by lia. exact Hk.
    + intros n Hn. unfold s. rewrite (Hafter n Hn).
      split; [exact Hempty|]. split.
      * unfold FloodFill.isComplete. rewrite Hempty.
        pose proof (inv_init _ _ _ _ (HI k)) as Hi. unfold s in Hi.
        rewrite Hi. done.
      * apply step_idle. by right.
Qed.

Lemma frontier_once_and_termination_witness :
  let img := BinaryImage.make 3 2 true in
  let s := λ n : nat,
    FloodFill.steps n (FloodFill.initialize (FloodFill.make Eight DFS 0) img 1 1) in
  BinaryImage.in_bounds img 1 1
  ∧ NoDup (FloodFill.frontier_ (s 2%nat))
  ∧ NoDup (FloodFill.frontier_ (s 0%nat) ++ push_log 6 (s 0%nat)).
Proof.
  intros img s.
  assert (BinaryImage.in_bounds img 1 1) as Hin.
  { unfold BinaryImage.in_bounds. simpl. lia. }
  pose proof (frontier_once_and_termination (FloodFill.make Eight DFS 0) img 1 1 Hin)
    as [Hall _].
  split; [exact Hin|].
  split; [exact (proj1 (Hall 2%nat))|exact (proj1 (proj2 (proj2 (Hall 6%nat))))].
Defined.

(** The push log of the 3×2 example holds the five pixels other than
    the seed. *)
Example push_log_example :
  let s0 := FloodFill.initialize (FloodFill.make Eight DFS 0)
              (BinaryImage.make 3 2 true) 1 1 in
  FloodFill.frontier_ s0 = [(1, 1)]
  ∧ push_log 6 s0 = [(1, 0); (0, 1); (2, 1); (0, 0); (2, 0)].
Proof. vm_compute. split; reflexivity. Qed.

(** * Independence of the traversal order *)

Section TraversalOrder.

Import FloodFill.

(** ** [initialize] does not read the algorithm *)

Lemma circle_loop_algorithm (g : t) (a : FillAlgorithm) (cx cy : Z)
    (disk : list (Z * Z)) :
  circle_loop (setAlgorithm g a) cx cy disk = circle_loop g cx cy disk.
Proof. induction disk as [|[dx dy] disk IH]; [done|]. simpl. by rewrite IH. Qed.

Lemma checkCircleFits_algorithm (g : t) (a : FillAlgorithm) (cx cy : Z) :
  checkCircleFits (setAlgorithm g a) cx cy = checkCircleFits g cx cy.
Proof.
  unfold checkCircleFits. simpl. destruct (safety_radius_ g <=? 0); [done|].
  apply circle_loop_algorithm.
Qed.

Lemma precompute_algorithm (g : t) (a : FillAlgorithm) :
  precomputeSafetyMask (setAlgorithm g a) = setAlgorithm (precomputeSafetyMask g) a.
Proof.
  unfold precomputeSafetyMask. simpl.
  destruct (safety_radius_ g <=? 0); [done|].
  unfold with_safety_mask, setAlgorithm. simpl. f_equal.
  rewrite !for_yx_raster. apply fold_left_pointwise. intros m p.
  rewrite <- (checkCircleFits_algorithm g a). reflexivity.
Qed.

Lemma initialize_algorithm (f : t) (a : FillAlgorithm) (img : BinaryImage.t)
    (sx sy : Z) :
  initialize (setAlgorithm f a) img sx sy = setAlgorithm (initialize f img sx sy) a.
Proof.
  unfold initialize.
  change (reset (setAlgorithm f a) img) with (setAlgorithm (reset f img) a).
  generalize (reset f img) as g. intros g. cbv zeta.
  change (isValid (setAlgorithm g a) sx sy) with (isValid g sx sy).
  destruct (negb (isValid g sx sy)); [done|].
  change (with_target_value (setAlgorithm g a)
            (BinaryImage.get (source_ (setAlgorithm g a)) sx sy))
    with (setAlgorithm (with_target_value g (BinaryImage.get (source_ g) sx sy)) a).
  rewrite precompute_algorithm.
  generalize (precomputeSafetyMask
                (with_target_value g (BinaryImage.get (source_ g) sx sy))) as g2.
  intros g2.
  change (safety_mask_ (setAlgorithm g2 a)) with (safety_mask_ g2).
  destruct (negb (BinaryImage.get (safety_mask_ g2) sx sy)); done.
Qed.

(** ** The final state is determined by reachability *)

Lemma agree_sym (a b : t) : agree a b → agree b a.
Proof. unfold agree. intros (?&?&?&?&?&?). repeat split; done. Qed.

Lemma agree_valid (a b : t) (p : Z * Z) : agree a b → valid a p ↔ valid b p.
Proof.
  intros (_&_&_&_&Hw&Hh). unfold valid, isValid. by rewrite Hw, Hh.
Qed.

Lemma agree_safe (a b : t) (p : Z * Z) : agree a b → safe a p ↔ safe b p.
Proof. intros (_&Hm&_). unfold safe. by rewrite Hm. Qed.

Lemma agree_same_value (a b : t) (p : Z * Z) :
  agree a b → same_value a p ↔ same_value b p.
Proof. intros (_&_&Hs&Ht&_). unfold same_value. by rewrite Hs, Ht. Qed.

Lemma agree_reach (a b : t) (seed p : Z * Z) :
  agree a b → reach a seed p → reach b seed p.
Proof.
  intros Hag. induction 1 as [Hv Hsafe|q d _ IH Hd Hv Hsafe].
  - apply reach_seed; [by apply (agree_valid a b)|by apply (agree_safe a b)].
  - apply reach_step; [done| |by apply (agree_valid a b)|by apply (agree_safe a b)].
    destruct Hag as (Ho&_). by rewrite <- Ho.
Qed.

(** In a completed session a marked safe pixel is processed. *)
Lemma completed_safe_processed (seed c : Z * Z) (f : t) (p : Z * Z) :
  Inv seed c [] f → frontier_ f = [] →
  valid f p → safe f p → st f p ≠ Unvisited → st f p = Processed.
Proof.
  intros HI He Hv Hsafe Hne.
  destruct (st f p) eqn:E; try done.
  - pose proof (inv_inqueue _ _ _ _ HI p Hv E) as Hin.
    rewrite He in Hin. by apply elem_of_nil in Hin.
  - destruct (inv_boundary _ _ _ _ HI p Hv E).
    by apply (inv_mask _ _ _ _ HI).
  - by destruct (inv_unsafe_class _ _ _ _ HI p Hv E).
Qed.

Lemma completed_reach_processed (seed c : Z * Z) (f : t) (p : Z * Z) :
  Inv seed c [] f → frontier_ f = [] →
  reach f seed p → st f p = Processed.
Proof.
  intros HI He. induction 1 as [Hv Hsafe|q d Hq IH Hd Hv Hsafe].
  - apply (completed_safe_processed seed c); try done.
    exact (proj2 (inv_seed _ _ _ _ HI)).
  - apply (completed_safe_processed seed c); try done.
    destruct (reach_valid_safe _ _ _ Hq) as [Hqv _].
    destruct (inv_closed _ _ _ _ HI q d Hqv IH Hd Hv) as [[_ Hin]|H]; [|done].
    by apply elem_of_nil in Hin.
Qed.

(** A pixel marked in one completed session is marked in the other. *)
Lemma completed_marked (seed c c' : Z * Z) (a b : t) (p : Z * Z) :
  Inv seed c [] a → Inv seed c' [] b →
  frontier_ a = [] → frontier_ b = [] → agree a b →
  valid a p → st a p ≠ Unvisited → st b p ≠ Unvisited.
Proof.
  intros Ha Hb Hea Heb Hag Hv Hne.
  destruct (inv_touched _ _ _ _ Ha p Hv Hne)
    as [->|(q & d & Hqv & Hqs & Hd & ->)].
  - exact (proj2 (inv_seed _ _ _ _ Hb)).
  - assert (st b q = Processed) as Hqb.
    { apply (completed_reach_processed seed c'); try done.
      apply (agree_reach a b); [done|].
      apply (inv_fill _ _ _ _ Ha); [done|by right]. }
    destruct (inv_closed _ _ _ _ Hb q d) as [[_ Hin]|H]; try done.
    + by apply (agree_valid a b).
    + destruct Hag as (Ho&_). by rewrite <- Ho.
    + by apply (agree_valid a b).
    + by apply elem_of_nil in Hin.
Qed.

Lemma completed_state_transfer (seed c c' : Z * Z) (a b : t) (p : Z * Z) :
  Inv seed c [] a → Inv seed c' [] b →
  frontier_ a = [] → frontier_ b = [] → agree a b →
  valid a p → st a p ≠ Unvisited → st b p = st a p.
Proof.
  intros Ha Hb Hea Heb Hag Hv Hne.
  pose proof (completed_marked seed c c' a b p Ha Hb Hea Heb Hag Hv Hne) as Hnb.
  assert (valid b p) as Hvb by (by apply (agree_valid a b)).
  assert (∀ f c0, Inv seed c0 [] f → frontier_ f = [] → valid f p →
            st f p = Processed → safe f p ∧ same_value f p) as Hproc.
  { intros f c0 Hf _ Hvf E.
    assert (safe f p) as Hs.
    { eapply reach_valid_safe. apply (inv_fill _ _ _ _ Hf); [done|by right]. }
    split; [done|]. by apply (inv_mask _ _ _ _ Hf). }
  assert (∀ f c0, Inv seed c0 [] f → frontier_ f = [] → valid f p →
            st f p ≠ InQueue) as Hnq.
  { intros f c0 Hf Hef Hvf E.
    pose proof (inv_inqueue _ _ _ _ Hf p Hvf E) as Hin.
    rewrite Hef in Hin. by apply elem_of_nil in Hin. }
  destruct (st a p) eqn:Ea; try done.
  - by destruct (Hnq a c Ha Hea Hv).
  - apply (completed_reach_processed seed c'); try done.
    apply (agree_reach a b); [done|].
    apply (inv_fill _ _ _ _ Ha); [done|by right].
  - pose proof (inv_boundary _ _ _ _ Ha p Hv Ea) as Hdiff.
    rewrite (agree_same_value a b) in Hdiff by done.
    destruct (st b p) eqn:Eb; try done.
    + by destruct (Hnq b c' Hb Heb Hvb).
    + by destruct (Hproc b c' Hb Heb Hvb Eb).
    + by destruct (inv_unsafe_class _ _ _ _ Hb p Hvb Eb).
  - destruct (inv_unsafe_class _ _ _ _ Ha p Hv Ea) as [Hsame Hns].
    rewrite (agree_same_value a b) in Hsame by done.
    rewrite (agree_safe a b) in Hns by done.
    destruct (st b p) eqn:Eb; try done.
    + by destruct (Hnq b c' Hb Heb Hvb).
    + by destruct (Hproc b c' Hb Heb Hvb Eb).
    + by destruct (inv_boundary _ _ _ _ Hb p Hvb Eb).
Qed.

Lemma completed_states_equal (seed c c' : Z * Z) (a b : t) :
  Inv seed c [] a → Inv seed c' [] b →
  frontier_ a = [] → frontier_ b = [] → agree a b →
  state_ a = state_ b.
Proof.
  intros Ha Hb Hea Heb Hag.
  pose proof Hag as (_&_&_&_&Hw&Hh).
  apply (grid_ext _ _ (width_ a) (height_ a)).
  - exact (inv_shape _ _ _ _ Ha).
  - rewrite Hw, Hh. exact (inv_shape _ _ _ _ Hb).
  - intros x y Hx Hy.
    assert (valid a (x, y)) as Hv by (by apply valid_iff).
    assert (valid b (x, y)) as Hvb by (by apply (agree_valid a b)).
    change (st a (x, y) = st b (x, y)).
    destruct (decide (st a (x, y) = Unvisited)) as [Ea|Ea].
    + destruct (decide (st b (x, y) = Unvisited)) as [Eb|Eb]; [congruence|].
      pose proof (completed_state_transfer seed c' c b a (x, y) Hb Ha Heb Hea
                    (agree_sym _ _ Hag) Hvb Eb). congruence.
    + symmetry. by apply (completed_state_transfer seed c c').
Qed.

End TraversalOrder.

Section OrderIndependence.

Import FloodFill.

Lemma fill_all_steps (f : t) : fill_all f = steps (area f) f.
Proof. unfold fill_all. apply run_steps. Qed.

(** A session run with one unit of fuel per pixel is complete. *)
Lemma fill_all_complete (seed c : Z * Z) (f : t) :
  Inv seed c [] f →
  Inv seed c [] (fill_all f) ∧ frontier_ (fill_all f) = []
  ∧ same_setup f (fill_all f).
Proof.
  intros HI. rewrite fill_all_steps.
  split; [by apply Inv_steps|]. split; [|apply same_setup_steps].
  destruct (frontier_empties seed c (area f) f HI) as (k & Hk & _ & Hafter & He);
    [lia|].
  by rewrite (Hafter _ Hk).
Qed.

Lemma same_setup_agree (f f' g g' : t) :
  same_setup f f' → same_setup g g' → agree f g → agree f' g'.
Proof.
  unfold same_setup, agree.
  intros (_&_&_&Ho&_&Hs&Hm&Ht&_&Hw&Hh) (_&_&_&Ho'&_&Hs'&Hm'&Ht'&_&Hw'&Hh')
    (?&?&?&?&?&?).
  repeat split; congruence.
Qed.

(** The general statement: any engine, run once with each traversal
    order on the same grid and seed. *)
Lemma order_independent (f : t) (img : BinaryImage.t) (sx sy : Z) :
  let b := fill_all (initialize (setAlgorithm f BFS) img sx sy) in
  let d := fill_all (initialize (setAlgorithm f DFS) img sx sy) in
  state_ b = state_ d
  ∧ result_ b = result_ d
  ∧ filled_count_ b = filled_count_ d
  ∧ unsafe_count_ b = unsafe_count_ d
  ∧ frontier_ b = [] ∧ frontier_ d = []
  ∧ isComplete b = isComplete d
  ∧ step b = (false, b) ∧ step d = (false, d).
Proof.
  intros b d.
  destruct (in_bounds_dec img sx sy) as [Hin|Hout].
  - pose proof (Inv_initialize (setAlgorithm f BFS) img sx sy Hin) as Hb0.
    pose proof (Inv_initialize (setAlgorithm f DFS) img sx sy Hin) as Hd0.
    destruct (fill_all_complete _ _ _ Hb0) as (Hb & Heb & Hsb).
    destruct (fill_all_complete _ _ _ Hd0) as (Hd & Hed & Hsd).
    fold b in Hb, Heb, Hsb. fold d in Hd, Hed, Hsd.
    assert (agree b d) as Hag.
    { apply (same_setup_agree _ _ _ _ Hsb Hsd).
      rewrite !initialize_algorithm. by repeat split. }
    pose proof (completed_states_equal _ _ _ _ _ Hb Hd Heb Hed Hag) as Hst.
    split; [exact Hst|]. split; [|split; [|split; [|split; [|split; [|split]]]]].
    + pose proof Hag as (_&_&_&_&Hw&Hh).
      assert (valid b (sx, sy)) as Hseed by exact (proj1 (inv_seed _ _ _ _ Hb)).
      apply valid_iff in Hseed as [Hx Hy]. simpl in Hx, Hy.
      apply image_ext.
      * by rewrite (inv_result_w _ _ _ _ Hb), (inv_result_w _ _ _ _ Hd).
      * by rewrite (inv_result_h _ _ _ _ Hb), (inv_result_h _ _ _ _ Hd).
      * rewrite (inv_result_w _ _ _ _ Hb), (inv_result_h _ _ _ _ Hb).
        exact (inv_result_len _ _ _ _ Hb).
      * rewrite (inv_result_w _ _ _ _ Hd), (inv_result_h _ _ _ _ Hd).
        exact (inv_result_len _ _ _ _ Hd).
      * rewrite (inv_result_w _ _ _ _ Hb). lia.
      * rewrite (inv_result_h _ _ _ _ Hb). lia.
      * intros x y Hxy. unfold BinaryImage.in_bounds in Hxy.
        rewrite (inv_result_w _ _ _ _ Hb), (inv_result_h _ _ _ _ Hb) in Hxy.
        assert (valid b (x, y)) as Hv by (by apply valid_iff).
        assert (valid d (x, y)) as Hv' by (by apply (agree_valid b d)).
        pose proof (inv_result _ _ _ _ Hb (x, y) Hv) as Hrb.
        pose proof (inv_result _ _ _ _ Hd (x, y) Hv') as Hrd.
        unfold st in Hrb, Hrd. rewrite <- Hst in Hrd. simpl in Hrb, Hrd.
        destruct (BinaryImage.get (result_ b) x y),
          (BinaryImage.get (result_ d) x y); try done.
        -- symmetry. apply Hrd, Hrb. done.
        -- apply Hrb, Hrd. done.
    + rewrite (inv_filled _ _ _ _ Hb), (inv_filled _ _ _ _ Hd). by rewrite Hst.
    + rewrite (inv_unsafe _ _ _ _ Hb), (inv_unsafe _ _ _ _ Hd). by rewrite Hst.
    + exact Heb.
    + exact Hed.
    + unfold isComplete.
      by rewrite Heb, Hed, (inv_init _ _ _ _ Hb), (inv_init _ _ _ _ Hd).
    + split; apply step_idle; by right.
  - assert (∀ a, fill_all (initialize (setAlgorithm f a) img sx sy)
                 = initialize (setAlgorithm f a) img sx sy) as Hidle.
    { intros a. rewrite fill_all_steps. apply steps_idle, step_idle. left.
      by rewrite initialize_out_of_bounds. }
    subst b d. rewrite !Hidle, !initialize_out_of_bounds by done.
    repeat split; done.
Qed.

End OrderIndependence.

(** C3: for every source grid, seed, connectivity and safety radius,
    the fill run to completion by an engine constructed with BFS and
    by one constructed with DFS end with the same state grid (hence the
    same Processed, Boundary and Unsafe sets and the same answer of
    [getState] everywhere), the same result grid, the same
    [filled_count] and [unsafe_count]; both runs end with an empty
    frontier and [step] returning false. *)
Theorem bfs_dfs_same_partition
    (c : Connectivity) (r : Z) (img : BinaryImage.t) (sx sy : Z) :
  let b := fill_all (FloodFill.initialize (FloodFill.make c BFS r) img sx sy) in
  let d := fill_all (FloodFill.initialize (FloodFill.make c DFS r) img sx sy) in
  FloodFill.state_ b = FloodFill.state_ d
  ∧ (∀ x y, FloodFill.getState b x y = FloodFill.getState d x y)
  ∧ FloodFill.result_ b = FloodFill.result_ d
  ∧ FloodFill.filled_count_ b = FloodFill.filled_count_ d
  ∧ FloodFill.unsafe_count_ b = FloodFill.unsafe_count_ d
  ∧ FloodFill.frontier_ b = [] ∧ FloodFill.frontier_ d = []
  ∧ FloodFill.isComplete b = FloodFill.isComplete d
  ∧ FloodFill.step b = (false, b) ∧ FloodFill.step d = (false, d).
Proof.
  intros b d.
  pose proof (order_independent (FloodFill.make c BFS r) img sx sy)
    as (Hst & Hres & Hfc & Huc & Heb & Hed & Hic & Hsb & Hsd).
  change (FloodFill.setAlgorithm (FloodFill.make c BFS r) BFS)
    with (FloodFill.make c BFS r) in *.
  change (FloodFill.setAlgorithm (FloodFill.make c BFS r) DFS)
    with (FloodFill.make c DFS r) in *.
  fold b in Hst, Hres, Hfc, Huc, Heb, Hic, Hsb.
  fold d in Hst, Hres, Hfc, Huc, Hed, Hic, Hsd.
  split; [exact Hst|]. split.
  { intros x y. unfold FloodFill.getState, FloodFill.isValid. rewrite Hst.
    assert (FloodFill.width_ b = FloodFill.width_ d
            ∧ FloodFill.height_ b = FloodFill.height_ d) as [-> ->]; [|done].
    subst b d. rewrite !fill_all_steps.
    pose proof (same_setup_steps
                  (area (FloodFill.initialize (FloodFill.make c BFS r) img sx sy))
                  (FloodFill.initialize (FloodFill.make c BFS r) img sx sy))
      as (_&_&_&_&_&_&_&_&_&Hw&Hh).
    pose proof (same_setup_steps
                  (area (FloodFill.initialize (FloodFill.make c DFS r) img sx sy))
                  (FloodFill.initialize (FloodFill.make c DFS r) img sx sy))
      as (_&_&_&_&_&_&_&_&_&Hw'&Hh').
    rewrite Hw, Hh, Hw', Hh', !initialize_width, !initialize_height. done. }
  repeat split; done.
Qed.

(** The two orders do differ on the way: after two steps on a 3×3
    foreground grid seeded at the centre, BFS has just processed the
    first neighbour pushed and DFS the last. *)
Example bfs_dfs_order_differs :
  let img := BinaryImage.make 3 3 true in
  FloodFill.current_pixel_
    (FloodFill.steps 2 (FloodFill.initialize (FloodFill.make Four BFS 0) img 1 1))
  = (1, 0)
  ∧ FloodFill.current_pixel_
      (FloodFill.steps 2 (FloodFill.initialize (FloodFill.make Four DFS 0) img 1 1))
    = (2, 1).
Proof. vm_compute. split; reflexivity. Qed.

(** * Further properties of the grid container *)

Section LoopFacts.

Import BinaryImage.

Lemma elem_of_range_excl (lo hi k : Z) : k ∈ range_excl lo hi ↔ lo ≤ k < hi.
Proof. unfold range_excl. rewrite elem_of_seqZ. lia. Qed.

Lemma loop_yx_block {A : Type} (ys xs : list Z) (body : Z → Z → A → A) (a : A) :
  loop_yx ys xs body a = fold_left (λ a p, body p.1 p.2 a) (block_of ys xs) a.
Proof.
  unfold loop_yx, block_of. revert a.
  induction ys as [|y ys IH]; intros a; [done|].
  rewrite bind_cons, fold_left_app. simpl. rewrite IH. f_equal.
  clear. revert a. induction xs as [|x xs IH]; intros a; [done|].
  simpl. by rewrite IH.
Qed.

(** A loop nest that conditionally writes [val x y] at [(x, y)]. *)
Lemma loop_paint (cond val : Z → Z → bool) (ys xs : list Z) (img : t) :
  wf img →
  let r := loop_yx ys xs
             (λ x y m, if cond x y then set m x y (val x y) else m) img in
  wf r ∧ width_ r = width_ img ∧ height_ r = height_ img
  ∧ ∀ x y,
      get r x y =
        if bool_decide (x ∈ xs ∧ y ∈ ys ∧ in_bounds img x y) && cond x y
        then val x y else get img x y.
Proof.
  intros Hwf r. subst r. rewrite loop_yx_block.
  change (λ (a : t) (p : Z * Z),
            if cond p.1 p.2 then set a p.1 p.2 (val p.1 p.2) else a)
    with (paint cond val).
  destruct (paint_dims cond val (block_of ys xs) img Hwf) as (H1 & H2 & H3).
  split; [done|]. split; [done|]. split; [done|].
  intros x y.
  destruct (bool_decide (x ∈ xs ∧ y ∈ ys ∧ in_bounds img x y)) eqn:E; simpl.
  - apply bool_decide_eq_true_1 in E as (Hx & Hy & Hin).
    destruct (cond x y) eqn:Ec.
    + apply paint_touched; try done. by apply elem_of_block.
    + apply paint_untouched. intros p _ ->. done.
  - apply bool_decide_eq_false_1 in E.
    destruct (in_bounds_dec img x y) as [Hin|Hout].
    + apply paint_untouched. intros p Hp ->. exfalso. apply E.
      apply elem_of_block in Hp. by destruct Hp.
    + rewrite !get_out_of_bounds; [done|done|].
      unfold in_bounds. by rewrite H2, H3.
Qed.

(** The loop nests of the shape factories write [true] over a block. *)
Lemma loop_set_true (ys xs : list Z) (img : t) :
  wf img →
  let r := loop_yx ys xs (λ x y m, set m x y true) img in
  wf r ∧ width_ r = width_ img ∧ height_ r = height_ img
  ∧ ∀ x y,
      get r x y = true
      ↔ get img x y = true ∨ (x ∈ xs ∧ y ∈ ys ∧ in_bounds img x y).
Proof.
  intros Hwf r.
  destruct (loop_paint (λ _ _, true) (λ _ _, true) ys xs img Hwf)
    as (H1 & H2 & H3 & H4).
  split; [exact H1|]. split; [exact H2|]. split; [exact H3|].
  intros x y. subst r. rewrite (H4 x y). rewrite andb_true_r.
  destruct (bool_decide (x ∈ xs ∧ y ∈ ys ∧ in_bounds img x y)) eqn:E.
  - apply bool_decide_eq_true_1 in E. split; [by right|done].
  - apply bool_decide_eq_false_1 in E. split; [by left|]. by intros [?|?].
Qed.

End LoopFacts.

(** X1: on a well-formed image, reading back a pixel just written
    inside the bounds returns the written value and every other
    coordinate reads as before; a write outside the bounds changes
    nothing; dimensions and well-formedness are kept, and reads outside
    the bounds stay false. *)
Theorem set_get_round_trip (img : BinaryImage.t) (x y : Z) (v : bool) :
  BinaryImage.wf img →
  (BinaryImage.in_bounds img x y →
   BinaryImage.get (BinaryImage.set img x y v) x y = v)
  ∧ (¬ BinaryImage.in_bounds img x y → BinaryImage.set img x y v = img)
  ∧ (∀ x' y', (x', y') ≠ (x, y) →
       BinaryImage.get (BinaryImage.set img x y v) x' y' = BinaryImage.get img x' y')
  ∧ (∀ x' y', ¬ BinaryImage.in_bounds img x' y' →
       BinaryImage.get (BinaryImage.set img x y v) x' y' = false)
  ∧ BinaryImage.wf (BinaryImage.set img x y v)
  ∧ BinaryImage.width (BinaryImage.set img x y v) = BinaryImage.width img
  ∧ BinaryImage.height (BinaryImage.set img x y v) = BinaryImage.height img.
Proof.
  intros Hwf. split; [by apply get_set_same|].
  split; [by apply set_out_of_bounds|].
  split; [intros x' y' Hne; apply get_set_other; congruence|].
  split.
  { intros x' y' Hout. apply get_out_of_bounds. by rewrite in_bounds_set. }
  split; [by apply wf_set|].
  split; [apply width_set|apply height_set].
Qed.

Lemma set_get_round_trip_witness :
  let img := BinaryImage.make 3 2 false in
  BinaryImage.wf img
  ∧ BinaryImage.in_bounds img 2 1
  ∧ BinaryImage.get (BinaryImage.set img 2 1 true) 2 1 = true
  ∧ ¬ BinaryImage.in_bounds img 3 1
  ∧ BinaryImage.set img 3 1 true = img.
Proof.
  intros img.
  assert (BinaryImage.wf img) as Hwf by (apply wf_make; lia).
  assert (BinaryImage.in_bounds img 2 1) as Hin.
  { unfold BinaryImage.in_bounds. simpl. lia. }
  assert (¬ BinaryImage.in_bounds img 3 1) as Hout.
  { unfold BinaryImage.in_bounds. simpl. lia. }
  split; [exact Hwf|]. split; [exact Hin|].
  split; [exact (proj1 (set_get_round_trip img 2 1 true Hwf) Hin)|].
  split; [exact Hout|].
  exact (proj1 (proj2 (set_get_round_trip img 3 1 true Hwf)) Hout).
Defined.

(** X2: writes compose as assignments do: a second write to the same
    pixel replaces the first, and writes to two different pixels give
    the same image in either order. *)
Theorem set_set_compose (img : BinaryImage.t) (x y x' y' : Z) (v v' : bool) :
  BinaryImage.set (BinaryImage.set img x y v) x y v' = BinaryImage.set img x y v'
  ∧ ((x, y) ≠ (x', y') →
     BinaryImage.set (BinaryImage.set img x y v) x' y' v'
     = BinaryImage.set (BinaryImage.set img x' y' v') x y v).
Proof.
  split.
  - destruct (in_bounds_dec img x y) as [Hin|Hout].
    + rewrite (set_in_bounds img x y v) by done.
      rewrite (set_in_bounds img x y v') by done.
      rewrite set_in_bounds by done. simpl. by rewrite list_insert_insert_eq.
    + by rewrite !(set_out_of_bounds img x y) by done.
  - intros Hne.
    destruct (in_bounds_dec img x y) as [Hin|Hout];
      destruct (in_bounds_dec img x' y') as [Hin'|Hout'].
    + rewrite (set_in_bounds img x y v) by done.
      rewrite (set_in_bounds img x' y' v') by done.
      rewrite !set_in_bounds by done. simpl. f_equal.
      apply list_insert_insert_ne. intros E.
      destruct Hin, Hin'. apply index_inj in E; [|lia..]. destruct E. congruence.
    + rewrite (set_out_of_bounds img x' y') by done.
      apply set_out_of_bounds. by rewrite in_bounds_set.
    + rewrite (set_out_of_bounds img x y) by done.
      symmetry. apply set_out_of_bounds. by rewrite in_bounds_set.
    + rewrite (set_out_of_bounds img x y) by done.
      rewrite (set_out_of_bounds img x' y') by done.
      by rewrite (set_out_of_bounds img x y).
Qed.

Lemma set_set_compose_witness :
  let img := BinaryImage.make 2 2 false in
  (0, 0) ≠ (1, 1)
  ∧ BinaryImage.set (BinaryImage.set img 0 0 true) 1 1 true
    = BinaryImage.set (BinaryImage.set img 1 1 true) 0 0 true.
Proof.
  intros img.
  assert ((0, 0) ≠ (1, 1)) as Hne by discriminate.
  split; [exact Hne|].
  exact (proj2 (set_set_compose img 0 0 1 1 true true) Hne).
Defined.

(** X3: the constructor and the bulk operations.  A constructed image
    of non-negative dimensions is well formed and reads [fill_value]
    everywhere inside; [fill v] makes every pixel of a well-formed
    image read [v] and keeps the dimensions; [clear] is [fill false];
    [clone] returns an equal image. *)
Theorem bulk_operations (img : BinaryImage.t) (v : bool) :
  BinaryImage.wf img →
  BinaryImage.wf (BinaryImage.fill img v)
  ∧ BinaryImage.width (BinaryImage.fill img v) = BinaryImage.width img
  ∧ BinaryImage.height (BinaryImage.fill img v) = BinaryImage.height img
  ∧ (∀ x y, BinaryImage.in_bounds img x y →
            BinaryImage.get (BinaryImage.fill img v) x y = v)
  ∧ BinaryImage.fill img v
    = BinaryImage.make (BinaryImage.width img) (BinaryImage.height img) v
  ∧ (∀ x y, BinaryImage.get (BinaryImage.clear img) x y = false)
  ∧ BinaryImage.clone img = img.
Proof.
  intros (Hw & Hh & Hl).
  assert (BinaryImage.fill img v
          = BinaryImage.make (BinaryImage.width img) (BinaryImage.height img) v)
    as Hfill.
  { unfold BinaryImage.fill, BinaryImage.make, BinaryImage.width,
      BinaryImage.height. by rewrite Hl. }
  split. { rewrite Hfill. by apply wf_make. }
  split; [done|]. split; [done|]. split.
  { intros x y [Hx Hy]. rewrite Hfill. by apply get_make. }
  split; [exact Hfill|]. split.
  - intros x y. destruct (in_bounds_dec img x y) as [[Hx Hy]|Hout].
    + unfold BinaryImage.clear.
      assert (BinaryImage.fill img false
              = BinaryImage.make (BinaryImage.width img) (BinaryImage.height img)
                  false) as ->.
      { unfold BinaryImage.fill, BinaryImage.make, BinaryImage.width,
          BinaryImage.height. by rewrite Hl. }
      by apply get_make.
    + by apply get_out_of_bounds.
  - by destruct img.
Qed.

Lemma bulk_operations_witness :
  let img := BinaryImage.mk 2 1 [true; false] in
  BinaryImage.wf img
  ∧ BinaryImage.fill img true = BinaryImage.make 2 1 true
  ∧ BinaryImage.clone img = img.
Proof.
  intros img.
  assert (BinaryImage.wf img) as Hwf.
  { unfold BinaryImage.wf. simpl. lia. }
  split; [exact Hwf|].
  pose proof (bulk_operations img true Hwf) as (_ & _ & _ & _ & H5 & _ & H7).
  split; [exact H5|exact H7].
Defined.

(** * The sample shapes *)

(** X4: [createRectangle width height margin] (non-negative
    dimensions) is a well-formed [width × height] image whose
    foreground is exactly the pixels with [margin ≤ x < width - margin]
    and [margin ≤ y < height - margin]; writes the loops attempt outside
    the image (negative margin) are dropped, and the image is empty
    when the margins meet. *)
Theorem createRectangle_pixels (width height margin : Z) :
  0 ≤ width → 0 ≤ height →
  let img := BinaryImage.createRectangle width height margin in
  BinaryImage.wf img
  ∧ BinaryImage.width img = width ∧ BinaryImage.height img = height
  ∧ (∀ x y, BinaryImage.get img x y = true
            ↔ (0 ≤ x < width ∧ 0 ≤ y < height)
              ∧ margin ≤ x < width - margin ∧ margin ≤ y < height - margin)
  ∧ (width ≤ 2 * margin ∨ height ≤ 2 * margin →
     ∀ x y, BinaryImage.get img x y = false).
Proof.
  intros Hw Hh img.
  destruct (loop_set_true (range_excl margin (height - margin))
              (range_excl margin (width - margin))
              (BinaryImage.make width height false) (wf_make _ _ _ Hw Hh))
    as (H1 & H2 & H3 & H4).
  assert (∀ x y, BinaryImage.get img x y = true
            ↔ (0 ≤ x < width ∧ 0 ≤ y < height)
              ∧ margin ≤ x < width - margin ∧ margin ≤ y < height - margin)
    as Hpix.
  { intros x y. unfold img, BinaryImage.createRectangle. rewrite (H4 x y).
    rewrite !elem_of_range_excl. unfold BinaryImage.in_bounds. simpl.
    split.
    - intros [Hg|(Hx & Hy & Hin)]; [|done].
      destruct (in_bounds_dec (BinaryImage.make width height false) x y)
        as [[Hbx Hby]|Hout].
      + simpl in Hbx, Hby. by rewrite get_make in Hg.
      + by rewrite get_out_of_bounds in Hg.
    - intros (Hin & Hx & Hy). by right. }
  split; [exact H1|]. split; [exact H2|]. split; [exact H3|].
  split; [exact Hpix|].
  intros Hm x y. destruct (BinaryImage.get img x y) eqn:E; [|done].
  apply Hpix in E. lia.
Qed.

Lemma createRectangle_pixels_witness :
  0 ≤ 6 ∧ 0 ≤ 5
  ∧ (BinaryImage.get (BinaryImage.createRectangle 6 5 2) 3 2 = true
     ↔ (0 ≤ 3 < 6 ∧ 0 ≤ 2 < 5) ∧ 2 ≤ 3 < 6 - 2 ∧ 2 ≤ 2 < 5 - 2).
Proof.
  assert (0 ≤ 6) as Hw by lia. assert (0 ≤ 5) as Hh by lia.
  split; [exact Hw|]. split; [exact Hh|].
  pose proof (createRectangle_pixels 6 5 2 Hw Hh) as (_ & _ & _ & H & _).
  exact (H 3 2).
Defined.

(** X5: [createCross width height thickness] (non-negative dimensions)
    is the union of a horizontal bar, rows
    [height/2 - thickness/2 .. height/2 + thickness/2] and columns
    [2 .. width - 3], and a vertical bar, columns
    [width/2 - thickness/2 .. width/2 + thickness/2] and rows
    [2 .. height - 3], clipped to the image; the divisions truncate. *)
Theorem createCross_pixels (width height thickness : Z) :
  0 ≤ width → 0 ≤ height →
  let img := BinaryImage.createCross width height thickness in
  let cx := Z.quot width 2 in
  let cy := Z.quot height 2 in
  let half := Z.quot thickness 2 in
  BinaryImage.wf img
  ∧ BinaryImage.width img = width ∧ BinaryImage.height img = height
  ∧ ∀ x y, BinaryImage.get img x y = true
           ↔ (0 ≤ x < width ∧ 0 ≤ y < height)
             ∧ ((cy - half ≤ y ≤ cy + half ∧ 2 ≤ x < width - 2)
                ∨ (2 ≤ y < height - 2 ∧ cx - half ≤ x ≤ cx + half)).
Proof.
  intros Hw Hh img cx cy half.
  destruct (loop_set_true (range_incl (cy - half) (cy + half))
              (range_excl 2 (width - 2))
              (BinaryImage.make width height false) (wf_make _ _ _ Hw Hh))
    as (H1 & H2 & H3 & H4).
  destruct (loop_set_true (range_excl 2 (height - 2))
              (range_incl (cx - half) (cx + half)) _ H1)
    as (G1 & G2 & G3 & G4).
  split; [exact G1|].
  split; [exact (eq_trans G2 H2)|].
  split; [exact (eq_trans G3 H3)|].
  intros x y. eapply iff_trans; [exact (G4 x y)|]. rewrite (H4 x y).
  rewrite !elem_of_range_excl, !elem_of_range_incl.
  unfold BinaryImage.in_bounds. rewrite H2, H3. simpl.
  assert (BinaryImage.get (BinaryImage.make width height false) x y = true ↔ False)
    as ->.
  { split; [|done].
    destruct (in_bounds_dec (BinaryImage.make width height false) x y)
      as [[Hbx Hby]|Hout].
    - simpl in Hbx, Hby. by rewrite get_make.
    - by rewrite get_out_of_bounds. }
  tauto.
Qed.

Lemma createCross_pixels_witness :
  0 ≤ 9 ∧ 0 ≤ 9
  ∧ BinaryImage.wf (BinaryImage.createCross 9 9 3)
  ∧ BinaryImage.width (BinaryImage.createCross 9 9 3) = 9.
Proof.
  assert (0 ≤ 9) as Hw by lia.
  split; [exact Hw|]. split; [exact Hw|].
  pose proof (createCross_pixels 9 9 3 Hw Hw) as (H1 & H2 & _).
  split; [exact H1|exact H2].
Defined.

(** X6: [createLShape width height] (non-negative dimensions) is the
    union of a vertical bar of [thickness = max 2 (min width height / 4)]
    columns starting at column 2 and a horizontal bar of [thickness]
    rows ending above row [height - 2], both inside the 2-pixel margin
    and clipped to the image. *)
Theorem createLShape_pixels (width height : Z) :
  0 ≤ width → 0 ≤ height →
  let img := BinaryImage.createLShape width height in
  let thickness := Z.max 2 (Z.quot (Z.min width height) 4) in
  BinaryImage.wf img
  ∧ BinaryImage.width img = width ∧ BinaryImage.height img = height
  ∧ ∀ x y, BinaryImage.get img x y = true
           ↔ (0 ≤ x < width ∧ 0 ≤ y < height)
             ∧ ((2 ≤ y < height - 2 ∧ 2 ≤ x < 2 + thickness)
                ∨ (height - 2 - thickness ≤ y < height - 2 ∧ 2 ≤ x < width - 2)).
Proof.
  intros Hw Hh img thickness.
  destruct (loop_set_true (range_excl 2 (height - 2))
              (range_excl 2 (2 + thickness))
              (BinaryImage.make width height false) (wf_make _ _ _ Hw Hh))
    as (H1 & H2 & H3 & H4).
  destruct (loop_set_true (range_excl (height - 2 - thickness) (height - 2))
              (range_excl 2 (width - 2)) _ H1)
    as (G1 & G2 & G3 & G4).
  split; [exact G1|].
  split; [exact (eq_trans G2 H2)|].
  split; [exact (eq_trans G3 H3)|].
  intros x y. eapply iff_trans; [exact (G4 x y)|]. rewrite (H4 x y).
  rewrite !elem_of_range_excl.
  unfold BinaryImage.in_bounds. rewrite H2, H3. simpl.
  assert (BinaryImage.get (BinaryImage.make width height false) x y = true ↔ False)
    as ->.
  { split; [|done].
    destruct (in_bounds_dec (BinaryImage.make width height false) x y)
      as [[Hbx Hby]|Hout].
    - simpl in Hbx, Hby. by rewrite get_make.
    - by rewrite get_out_of_bounds. }
  tauto.
Qed.

Lemma createLShape_pixels_witness :
  0 ≤ 8 ∧ 0 ≤ 8
  ∧ BinaryImage.wf (BinaryImage.createLShape 8 8)
  ∧ BinaryImage.height (BinaryImage.createLShape 8 8) = 8.
Proof.
  assert (0 ≤ 8) as Hw by lia.
  split; [exact Hw|]. split; [exact Hw|].
  pose proof (createLShape_pixels 8 8 Hw Hw) as (H1 & _ & H3 & _).
  split; [exact H1|exact H3].
Defined.



(** * Further properties of structuring elements *)

Section CrossFacts.

Import StructuringElement.

Lemma length_arm (f : Z → Z * Z) (l : list Z) :
  (∀ k, k ∈ l → k ≠ 0) →
  length (k ← l; if decide (k ≠ 0) then [f k] else []) = length l.
Proof.
  induction l as [|k l IH]; intros Hl; [done|].
  rewrite bind_cons, length_app, IH.
  - rewrite decide_True; [done|]. apply Hl. left.
  - intros k' Hk'. apply Hl. by right.
Qed.

Lemma range_incl_split (c : Z) :
  0 ≤ c → range_incl (- c) c = seqZ (- c) c ++ [0] ++ seqZ 1 c.
Proof.
  intros Hc. unfold range_incl.
  replace (c - - c + 1) with (c + (1 + c)) by lia.
  rewrite seqZ_app by lia. f_equal.
  replace (- c + c) with 0 by lia.
  rewrite seqZ_app by lia. f_equal.
Qed.

Lemma length_cross_arm (f : Z → Z * Z) (c : Z) :
  0 ≤ c →
  length (k ← range_incl (- c) c; if decide (k ≠ 0) then [f k] else [])
  = (2 * Z.to_nat c)%nat.
Proof.
  intros Hc. rewrite range_incl_split by done.
  rewrite !bind_app, !length_app, bind_singleton.
  rewrite (decide_False (P := 0 ≠ 0)) by lia.
  rewrite (length_arm f (seqZ (- c) c)), (length_arm f (seqZ 1 c)).
  - rewrite !length_seqZ. simpl. lia.
  - intros k Hk. apply elem_of_seqZ in Hk. lia.
  - intros k Hk. apply elem_of_seqZ in Hk. lia.
Qed.

Lemma elem_of_arm (f : Z → Z * Z) (lo hi : Z) (p : Z * Z) :
  p ∈ (k ← range_incl lo hi; if decide (k ≠ 0) then [f k] else [])
  ↔ ∃ k, lo ≤ k ≤ hi ∧ k ≠ 0 ∧ p = f k.
Proof.
  rewrite list_elem_of_bind. split.
  - intros (k & Hp & Hk). apply elem_of_range_incl in Hk.
    destruct (decide (k ≠ 0)); [|by apply elem_of_nil in Hp].
    apply list_elem_of_singleton in Hp. by exists k.
  - intros (k & Hk & Hne & ->). exists k. split; [|by apply elem_of_range_incl].
    rewrite decide_True by done. by apply list_elem_of_singleton.
Qed.

Lemma NoDup_arm (f : Z → Z * Z) (lo hi : Z) :
  (∀ a b, f a = f b → a = b) →
  NoDup (k ← range_incl lo hi; if decide (k ≠ 0) then [f k] else []).
Proof.
  intros Hinj. apply NoDup_bind; [| |apply NoDup_range_incl].
  - intros a b p _ _ Ha Hb.
    destruct (decide (a ≠ 0)); [|by apply elem_of_nil in Ha].
    destruct (decide (b ≠ 0)); [|by apply elem_of_nil in Hb].
    apply list_elem_of_singleton in Ha, Hb. apply Hinj. congruence.
  - intros a _. destruct (decide (a ≠ 0)); [apply NoDup_singleton|apply NoDup_nil_2].
Qed.

Lemma createCross_offsets_mem (n : Z) (dx dy : Z) :
  (dx, dy) ∈ offsets (createCross n)
  ↔ (dx = 0 ∧ dy = 0)
    ∨ (dy = 0 ∧ dx ≠ 0 ∧ - Z.quot n 2 ≤ dx ≤ Z.quot n 2)
    ∨ (dx = 0 ∧ dy ≠ 0 ∧ - Z.quot n 2 ≤ dy ≤ Z.quot n 2).
Proof.
  unfold createCross. simpl offsets.
  rewrite elem_of_cons, elem_of_app, !elem_of_arm. split.
  - intros [E|[(k & Hk & Hne & E)|(k & Hk & Hne & E)]]; simplify_eq; auto.
  - intros [[-> ->]|[(-> & Hne & Hk)|(-> & Hne & Hk)]]; [by left| |].
    + right. left. by exists dx.
    + right. right. by exists dy.
Qed.

End CrossFacts.

(** X8: for every size [n ≥ 0], [createCross n] centres at [n / 2] and
    its offsets are exactly the origin and the points of the horizontal
    and the vertical arm within [n / 2] of it: the origin comes first
    and once, no offset is repeated, there are [4 (n/2) + 1] of them,
    the set is symmetric under negation and lies inside the footprint
    of [createSquare n]. *)
Theorem createCross_footprint (n : Z) :
  0 ≤ n →
  let se := StructuringElement.createCross n in
  let c := n / 2 in
  StructuringElement.center_x se = c ∧ StructuringElement.center_y se = c
  ∧ (∀ dx dy, (dx, dy) ∈ StructuringElement.offsets se
              ↔ (dy = 0 ∧ - c ≤ dx ≤ c) ∨ (dx = 0 ∧ - c ≤ dy ≤ c))
  ∧ head (StructuringElement.offsets se) = Some (0, 0)
  ∧ NoDup (StructuringElement.offsets se)
  ∧ Z.of_nat (length (StructuringElement.offsets se)) = 4 * c + 1
  ∧ (∀ dx dy, (dx, dy) ∈ StructuringElement.offsets se →
              (- dx, - dy) ∈ StructuringElement.offsets se)
  ∧ (∀ d, d ∈ StructuringElement.offsets se →
          d ∈ StructuringElement.offsets (StructuringElement.createSquare n)).
Proof.
  intros Hn se c.
  assert (Z.quot n 2 = c) as Hq by (apply Z.quot_div_nonneg; lia).
  assert (0 ≤ c) as Hc by (apply Z.div_pos; lia).
  assert (∀ dx dy, (dx, dy) ∈ StructuringElement.offsets se
              ↔ (dy = 0 ∧ - c ≤ dx ≤ c) ∨ (dx = 0 ∧ - c ≤ dy ≤ c)) as Hmem.
  { intros dx dy. subst se. rewrite createCross_offsets_mem, Hq. lia. }
  split; [exact Hq|]. split; [exact Hq|]. split; [exact Hmem|].
  split; [done|]. split; [|split; [|split]].
  - unfold se, StructuringElement.createCross. simpl StructuringElement.offsets.
    apply list.NoDup_cons. split.
    + intros Hp'.
      apply elem_of_app in Hp' as [Hp'|Hp'];
        apply elem_of_arm in Hp' as (k & _ & Hne & E); simplify_eq.
    + apply list.NoDup_app. split; [apply NoDup_arm; intros a b E; by simplify_eq|].
      split; [|apply NoDup_arm; intros a b E; by simplify_eq].
      intros p Hp Hp'.
      apply elem_of_arm in Hp as (k & _ & Hne & ->).
      apply elem_of_arm in Hp' as (k' & _ & Hne' & E). simplify_eq.
  - unfold se, StructuringElement.createCross. simpl StructuringElement.offsets.
    rewrite Hq. simpl length. rewrite length_app, !length_cross_arm by done. lia.
  - intros dx dy. rewrite !Hmem. lia.
  - intros [dx dy] Hd. apply Hmem in Hd.
    rewrite createSquare_offsets, elem_of_block, !elem_of_range_incl, Hq. lia.
Qed.

Lemma createCross_footprint_witness :
  0 ≤ 5
  ∧ NoDup (StructuringElement.offsets (StructuringElement.createCross 5))
  ∧ Z.of_nat (length (StructuringElement.offsets (StructuringElement.createCross 5)))
    = 4 * (5 / 2) + 1.
Proof.
  assert (0 ≤ 5) as Hn by lia. split; [exact Hn|].
  pose proof (createCross_footprint 5 Hn) as (_ & _ & _ & _ & H5 & H6 & _).
  split; [exact H5|exact H6].
Defined.

(** X9: degenerate sizes.  For every [n ≤ -2] the loops of
    [createSquare n] run from a positive to a negative bound and emit
    no offset at all, while [createCross n] still emits the origin; for
    [-1 ≤ n ≤ 1] both builders give the single offset [(0,0)]. *)
Theorem degenerate_sizes (n : Z) :
  (n ≤ -2 →
   StructuringElement.offsets (StructuringElement.createSquare n) = []
   ∧ StructuringElement.offsets (StructuringElement.createCross n) = [(0, 0)])
  ∧ (-1 ≤ n ≤ 1 →
     StructuringElement.offsets (StructuringElement.createSquare n) = [(0, 0)]
     ∧ StructuringElement.offsets (StructuringElement.createCross n) = [(0, 0)]).
Proof.
  split.
  - intros Hn.
    assert (Z.quot n 2 < 0) as Hq.
    { pose proof (Z.quot_le_mono n (-2) 2 ltac:(lia) Hn) as H.
      change (Z.quot (-2) 2) with (-1) in H. lia. }
    assert (range_incl (- Z.quot n 2) (Z.quot n 2) = []) as Hr.
    { unfold range_incl. apply seqZ_nil. lia. }
    unfold StructuringElement.createSquare, StructuringElement.createCross.
    simpl StructuringElement.offsets. rewrite !Hr. done.
  - intros Hn.
    assert (n = -1 ∨ n = 0 ∨ n = 1) as [->|[->| ->]] by lia; by vm_compute.
Qed.

Lemma degenerate_sizes_witness :
  -4 ≤ -2
  ∧ StructuringElement.offsets (StructuringElement.createSquare (-4)) = []
  ∧ StructuringElement.offsets (StructuringElement.createCross (-4)) = [(0, 0)].
Proof.
  assert (-4 ≤ -2) as Hn by lia. split; [exact Hn|].
  exact (proj1 (degenerate_sizes (-4)) Hn).
Defined.

(** * Further properties of the morphology engine *)

Section MorphologyAlgebra.

Import Morphology.

Lemma apply_get_outside (m : t) (input : BinaryImage.t) (x y : Z) :
  ¬ BinaryImage.in_bounds input x y → BinaryImage.get (apply m input) x y = false.
Proof.
  intros Hout. apply get_out_of_bounds. unfold BinaryImage.in_bounds.
  destruct (apply_dims m input) as [-> ->]. exact Hout.
Qed.

Lemma apply_get_true (m : t) (input : BinaryImage.t) (x y : Z) :
  BinaryImage.get (apply m input) x y = true →
  BinaryImage.in_bounds input x y ∧ checkPixel m input x y = true.
Proof.
  intros Hg. destruct (in_bounds_dec input x y) as [Hin|Hout].
  - split; [done|]. by rewrite <- apply_get.
  - by rewrite apply_get_outside in Hg.
Qed.

Lemma apply_wf (m : t) (input : BinaryImage.t) :
  0 ≤ BinaryImage.width_ input → 0 ≤ BinaryImage.height_ input →
  BinaryImage.wf (apply m input).
Proof.
  intros Hw Hh. unfold apply. rewrite for_yx_raster.
  pose proof (paint_dims (λ _ _, true) (checkPixel m input)
                (raster (BinaryImage.width input) (BinaryImage.height input))
                (BinaryImage.make (BinaryImage.width input)
                   (BinaryImage.height input) false)) as H.
  unfold paint in H. apply H. by apply wf_make.
Qed.

Lemma get_true_in_bounds (img : BinaryImage.t) (x y : Z) :
  BinaryImage.get img x y = true → BinaryImage.in_bounds img x y.
Proof.
  intros Hg. destruct (in_bounds_dec img x y) as [|Hout]; [done|].
  by rewrite get_out_of_bounds in Hg.
Qed.

(** Probing is monotone in the image. *)
Lemma probe_monotone (m : t) (a b : BinaryImage.t) (x y : Z) :
  subimage a b →
  getPixelWithBoundary m a x y = true → getPixelWithBoundary m b x y = true.
Proof.
  intros (Hw & Hh & Hsub). unfold getPixelWithBoundary,
    BinaryImage.width, BinaryImage.height. rewrite Hw, Hh.
  destruct ((x >=? 0) && (x <? BinaryImage.width_ b) && (y >=? 0)
            && (y <? BinaryImage.height_ b)); [apply Hsub|].
  destruct (boundary_ m); try done; apply Hsub.
Qed.

Lemma checkErosion_monotone (m : t) (a b : BinaryImage.t) (x y : Z) :
  subimage a b → checkErosion m a x y = true → checkErosion m b x y = true.
Proof.
  intros Hsub. unfold checkErosion. rewrite !erosion_loop_true.
  intros H d Hd. apply (probe_monotone m a b); [done|by apply H].
Qed.

Lemma checkDilation_monotone (m : t) (a b : BinaryImage.t) (x y : Z) :
  subimage a b → checkDilation m a x y = true → checkDilation m b x y = true.
Proof.
  intros Hsub. unfold checkDilation. rewrite !dilation_loop_true.
  intros (d & Hd & H). exists d. split; [done|].
  by apply (probe_monotone m a b).
Qed.

(** Probing the complement under the dual boundary mode. *)
Lemma probe_complement (se se' : StructuringElement.t) (op op' : MorphOperation)
    (bm : BoundaryMode) (a b : BinaryImage.t) (x y : Z) :
  complement_of a b →
  0 < BinaryImage.width_ a → 0 < BinaryImage.height_ a →
  getPixelWithBoundary (mk se' op' (dual_mode bm)) b x y
  = negb (getPixelWithBoundary (mk se op bm) a x y).
Proof.
  intros (Hw & Hh & Hc) Hwpos Hhpos.
  unfold getPixelWithBoundary, BinaryImage.width, BinaryImage.height.
  rewrite <- Hw, <- Hh. simpl boundary_.
  destruct ((x >=? 0) && (x <? BinaryImage.width_ a) && (y >=? 0)
            && (y <? BinaryImage.height_ a)) eqn:E.
  - apply Hc. unfold BinaryImage.in_bounds. lia.
  - destruct bm; simpl; try done.
    + apply Hc. split.
      * pose proof (clamp_range x (BinaryImage.width_ a - 1)). lia.
      * pose proof (clamp_range y (BinaryImage.height_ a - 1)). lia.
    + apply Hc. split; by apply wrap_range.
Qed.

Lemma loops_complement (m m' : t) (a b : BinaryImage.t) (x y : Z)
    (offs : list (Z * Z)) :
  (∀ x' y', getPixelWithBoundary m' b x' y' = negb (getPixelWithBoundary m a x' y')) →
  dilation_loop m' b x y offs = negb (erosion_loop m a x y offs)
  ∧ erosion_loop m' b x y offs = negb (dilation_loop m a x y offs).
Proof.
  intros Hp. induction offs as [|[dx dy] offs [IH1 IH2]]; [done|]. simpl.
  rewrite Hp. destruct (getPixelWithBoundary m a (x + dx) (y + dy)); simpl; done.
Qed.

(** Wrap-around reads the pixel at the coordinates reduced with the
    floor modulus. *)
Lemma wrap_is_mod (v d : Z) : 0 < d → Z.rem (Z.rem v d + d) d = v mod d.
Proof.
  intros Hd.
  assert (0 ≤ Z.rem v d + d) as Hnn.
  { destruct (Z.le_ge_cases 0 v) as [Hv|Hv].
    - pose proof (Z.rem_bound_pos v d Hv Hd). lia.
    - pose proof (Z.rem_bound_pos_neg v d Hd Hv). lia. }
  rewrite Z.rem_mod_nonneg by lia.
  pose proof (Z.quot_rem' v d) as Hqr.
  replace (Z.rem v d + d) with (v + (1 - Z.quot v d) * d) by lia.
  apply Z_mod_plus_full.
Qed.

End MorphologyAlgebra.

(** X10: for every grid, structuring element and boundary mode, the
    InnerBoundary result lies inside the grid's foreground, the
    OuterBoundary result lies outside it, the two never overlap, and
    every result of [apply] is background outside the grid's bounds. *)
Theorem boundaries_split_the_grid
    (A : BinaryImage.t) (se : StructuringElement.t) (bm : BoundaryMode) (x y : Z) :
  (BinaryImage.get (Morphology.apply (Morphology.mk se InnerBoundary bm) A) x y = true →
   BinaryImage.get A x y = true)
  ∧ (BinaryImage.get (Morphology.apply (Morphology.mk se OuterBoundary bm) A) x y = true →
     BinaryImage.get A x y = false)
  ∧ (BinaryImage.get (Morphology.apply (Morphology.mk se InnerBoundary bm) A) x y
     && BinaryImage.get (Morphology.apply (Morphology.mk se OuterBoundary bm) A) x y
     = false)
  ∧ (∀ op, ¬ BinaryImage.in_bounds A x y →
           BinaryImage.get (Morphology.apply (Morphology.mk se op bm) A) x y = false).
Proof.
  assert (BinaryImage.get (Morphology.apply (Morphology.mk se InnerBoundary bm) A) x y
          = true → BinaryImage.get A x y = true) as Hinner.
  { intros H. apply apply_get_true in H as [_ H].
    unfold Morphology.checkPixel in H. simpl in H.
    by apply andb_true_iff in H as [H _]. }
  assert (BinaryImage.get (Morphology.apply (Morphology.mk se OuterBoundary bm) A) x y
          = true → BinaryImage.get A x y = false) as Houter.
  { intros H. apply apply_get_true in H as [_ H].
    unfold Morphology.checkPixel in H. simpl in H.
    apply andb_true_iff in H as [_ H]. by apply negb_true_iff in H. }
  split; [exact Hinner|]. split; [exact Houter|]. split.
  - destruct (BinaryImage.get (Morphology.apply (Morphology.mk se InnerBoundary bm) A)
                x y) eqn:E1; [|done].
    destruct (BinaryImage.get (Morphology.apply (Morphology.mk se OuterBoundary bm) A)
                x y) eqn:E2; [|done].
    specialize (Hinner eq_refl). specialize (Houter eq_refl). congruence.
  - intros op Hout. by apply apply_get_outside.
Qed.

Lemma boundaries_split_the_grid_witness :
  let A := BinaryImage.mk 3 1 [false; true; true] in
  let se := StructuringElement.createSquare 3 in
  BinaryImage.get (Morphology.apply (Morphology.mk se OuterBoundary Zero) A) 0 0 = true
  ∧ BinaryImage.get A 0 0 = false.
Proof.
  intros A se.
  assert (BinaryImage.get (Morphology.apply (Morphology.mk se OuterBoundary Zero) A) 0 0
          = true) as H by (by vm_compute).
  split; [exact H|].
  exact (proj1 (proj2 (boundaries_split_the_grid A se Zero 0 0)) H).
Defined.

(** X11: when the structuring element contains the origin, erosion
    shrinks and dilation grows: every pixel of the eroded grid is
    foreground in the input, and every foreground pixel of the input is
    foreground in the dilated grid, under every boundary mode. *)
Theorem erosion_shrinks_dilation_grows
    (A : BinaryImage.t) (se : StructuringElement.t) (bm : BoundaryMode) :
  (0, 0) ∈ StructuringElement.offsets se →
  subimage (Morphology.apply (Morphology.mk se Erosion bm) A) A
  ∧ subimage A (Morphology.apply (Morphology.mk se Dilation bm) A).
Proof.
  intros H0. split.
  - destruct (apply_dims (Morphology.mk se Erosion bm) A) as [Hw Hh].
    split; [done|]. split; [done|]. intros x y Hg.
    apply apply_get_true in Hg as [Hin Hg].
    by apply (erosion_le_original (Morphology.mk se Erosion bm)).
  - destruct (apply_dims (Morphology.mk se Dilation bm) A) as [Hw Hh].
    split; [done|]. split; [done|]. intros x y Hg.
    pose proof (get_true_in_bounds _ _ _ Hg) as Hin.
    rewrite apply_get by done.
    by apply (original_le_dilation (Morphology.mk se Dilation bm)).
Qed.

Lemma erosion_shrinks_dilation_grows_witness :
  let A := BinaryImage.mk 2 2 [true; false; true; true] in
  let se := StructuringElement.createCross 3 in
  (0, 0) ∈ StructuringElement.offsets se
  ∧ subimage (Morphology.apply (Morphology.mk se Erosion Wrap) A) A
  ∧ subimage A (Morphology.apply (Morphology.mk se Dilation Wrap) A).
Proof.
  intros A se.
  assert ((0, 0) ∈ StructuringElement.offsets se) as H0
    by apply createCross_has_origin.
  split; [exact H0|]. exact (erosion_shrinks_dilation_grows A se Wrap H0).
Defined.

(** X12: erosion and dilation are monotone in the grid: if [A] lies
    inside [B] (same dimensions) then, for every structuring element
    and boundary mode, the erosion of [A] lies inside the erosion of
    [B] and the dilation of [A] inside the dilation of [B]. *)
Theorem erosion_dilation_monotone
    (A B : BinaryImage.t) (se : StructuringElement.t) (bm : BoundaryMode) :
  subimage A B →
  subimage (Morphology.apply (Morphology.mk se Erosion bm) A)
           (Morphology.apply (Morphology.mk se Erosion bm) B)
  ∧ subimage (Morphology.apply (Morphology.mk se Dilation bm) A)
             (Morphology.apply (Morphology.mk se Dilation bm) B).
Proof.
  intros Hsub. pose proof Hsub as (Hw & Hh & _).
  assert (∀ op,
    (∀ x y, Morphology.checkPixel (Morphology.mk se op bm) A x y = true →
            Morphology.checkPixel (Morphology.mk se op bm) B x y = true) →
    subimage (Morphology.apply (Morphology.mk se op bm) A)
             (Morphology.apply (Morphology.mk se op bm) B)) as Hgen.
  { intros op Hpix.
    destruct (apply_dims (Morphology.mk se op bm) A) as [HwA HhA].
    destruct (apply_dims (Morphology.mk se op bm) B) as [HwB HhB].
    split; [congruence|]. split; [congruence|]. intros x y Hg.
    apply apply_get_true in Hg as [Hin Hg].
    rewrite apply_get; [by apply Hpix|].
    unfold BinaryImage.in_bounds in *. by rewrite <- Hw, <- Hh. }
  split; apply Hgen; intros x y; unfold Morphology.checkPixel; simpl.
  - by apply checkErosion_monotone.
  - by apply checkDilation_monotone.
Qed.

Lemma erosion_dilation_monotone_witness :
  let A := BinaryImage.mk 2 1 [true; false] in
  let B := BinaryImage.mk 2 1 [true; true] in
  let se := StructuringElement.createSquare 3 in
  subimage A B
  ∧ subimage (Morphology.apply (Morphology.mk se Erosion Extend) A)
             (Morphology.apply (Morphology.mk se Erosion Extend) B).
Proof.
  intros A B se.
  assert (subimage A B) as Hsub.
  { split; [reflexivity|]. split; [reflexivity|]. intros x y Hg.
    pose proof (get_true_in_bounds _ _ _ Hg) as [Hx Hy]. simpl in Hx, Hy.
    assert (y = 0) as -> by lia.
    assert (x = 0 ∨ x = 1) as [->| ->] by lia; reflexivity. }
  split; [exact Hsub|].
  exact (proj1 (erosion_dilation_monotone A B se Extend Hsub)).
Defined.

(** X13: erosion and dilation are dual under complement.  If [B] is
    the pixelwise complement of [A], then at every in-bounds pixel the
    dilation of [B] under the dual boundary mode (Zero and One
    swapped, Extend and Wrap kept) is the complement of the erosion of
    [A], and the erosion of [B] the complement of the dilation of [A]. *)
Theorem erosion_dilation_duality
    (A B : BinaryImage.t) (se : StructuringElement.t) (bm : BoundaryMode) (x y : Z) :
  complement_of A B →
  BinaryImage.in_bounds A x y →
  BinaryImage.get (Morphology.apply (Morphology.mk se Dilation (dual_mode bm)) B) x y
  = negb (BinaryImage.get (Morphology.apply (Morphology.mk se Erosion bm) A) x y)
  ∧ BinaryImage.get (Morphology.apply (Morphology.mk se Erosion (dual_mode bm)) B) x y
    = negb (BinaryImage.get (Morphology.apply (Morphology.mk se Dilation bm) A) x y).
Proof.
  intros Hc Hin. pose proof Hc as (Hw & Hh & _).
  assert (BinaryImage.in_bounds B x y) as HinB.
  { unfold BinaryImage.in_bounds in *. by rewrite <- Hw, <- Hh. }
  assert (0 < BinaryImage.width_ A ∧ 0 < BinaryImage.height_ A) as [Hwp Hhp].
  { destruct Hin. lia. }
  rewrite !apply_get by done. unfold Morphology.checkPixel. simpl.
  unfold Morphology.checkDilation, Morphology.checkErosion. simpl. split.
  - apply (loops_complement (Morphology.mk se Erosion bm)
             (Morphology.mk se Dilation (dual_mode bm))).
    intros x' y'. by apply probe_complement.
  - apply (loops_complement (Morphology.mk se Dilation bm)
             (Morphology.mk se Erosion (dual_mode bm))).
    intros x' y'. by apply probe_complement.
Qed.

Lemma erosion_dilation_duality_witness :
  let A := BinaryImage.mk 2 1 [true; false] in
  let B := BinaryImage.mk 2 1 [false; true] in
  let se := StructuringElement.createSquare 3 in
  complement_of A B
  ∧ BinaryImage.in_bounds A 0 0
  ∧ BinaryImage.get (Morphology.apply (Morphology.mk se Dilation (dual_mode Zero)) B) 0 0
    = negb (BinaryImage.get (Morphology.apply (Morphology.mk se Erosion Zero) A) 0 0).
Proof.
  intros A B se.
  assert (complement_of A B) as Hc.
  { split; [reflexivity|]. split; [reflexivity|]. intros x y [Hx Hy].
    simpl in Hx, Hy. assert (y = 0) as -> by lia.
    assert (x = 0 ∨ x = 1) as [->| ->] by lia; reflexivity. }
  assert (BinaryImage.in_bounds A 0 0) as Hin.
  { unfold BinaryImage.in_bounds. simpl. lia. }
  split; [exact Hc|]. split; [exact Hin|].
  exact (proj1 (erosion_dilation_duality A B se Zero 0 0 Hc Hin)).
Defined.

Section ZeroBoundary.

Import Morphology.

Lemma probe_zero_all_foreground (m : t) (A : BinaryImage.t) (x y : Z) :
  boundary_ m = Zero → BinaryImage.all_foreground A →
  getPixelWithBoundary m A x y = true ↔ BinaryImage.in_bounds A x y.
Proof.
  intros Hb Hall. unfold getPixelWithBoundary, BinaryImage.width,
    BinaryImage.height. rewrite Hb.
  destruct ((x >=? 0) && (x <? BinaryImage.width_ A) && (y >=? 0)
            && (y <? BinaryImage.height_ A)) eqn:E.
  - assert (BinaryImage.in_bounds A x y) as Hin.
    { unfold BinaryImage.in_bounds. lia. }
    split; [done|]. intros _. by apply Hall.
  - split; [done|]. unfold BinaryImage.in_bounds. lia.
Qed.

End ZeroBoundary.

(** X14: erosion under the Zero boundary eats the border.  On an
    all-foreground grid, erosion with any structuring element keeps a
    pixel exactly when every offset applied to it stays inside the
    grid; with [createSquare n], [n ≥ 1], the result is the rectangle
    [n/2 ≤ x < width - n/2], [n/2 ≤ y < height - n/2]. *)
Theorem zero_boundary_erosion_of_full_grid
    (A : BinaryImage.t) (se : StructuringElement.t) (n x y : Z) :
  BinaryImage.all_foreground A →
  (BinaryImage.get (Morphology.apply (Morphology.mk se Erosion Zero) A) x y = true
   ↔ BinaryImage.in_bounds A x y
     ∧ ∀ d, d ∈ StructuringElement.offsets se →
            BinaryImage.in_bounds A (x + d.1) (y + d.2))
  ∧ (1 ≤ n →
     (BinaryImage.get
        (Morphology.apply (Morphology.mk (StructuringElement.createSquare n)
                             Erosion Zero) A) x y = true
      ↔ n / 2 ≤ x < BinaryImage.width A - n / 2
        ∧ n / 2 ≤ y < BinaryImage.height A - n / 2)).
Proof.
  intros Hall.
  assert (∀ se',
    BinaryImage.get (Morphology.apply (Morphology.mk se' Erosion Zero) A) x y = true
    ↔ BinaryImage.in_bounds A x y
      ∧ ∀ d, d ∈ StructuringElement.offsets se' →
             BinaryImage.in_bounds A (x + d.1) (y + d.2)) as Hgen.
  { intros se'. split.
    - intros Hg. apply apply_get_true in Hg as [Hin Hg]. split; [done|].
      unfold Morphology.checkPixel, Morphology.checkErosion in Hg. simpl in Hg.
      rewrite erosion_loop_true in Hg. intros d Hd.
      by apply (probe_zero_all_foreground (Morphology.mk se' Erosion Zero)), Hg.
    - intros [Hin Hd]. rewrite apply_get by done.
      unfold Morphology.checkPixel, Morphology.checkErosion. simpl.
      apply erosion_loop_true. intros d Hd'.
      apply probe_zero_all_foreground; [done|done|by apply Hd]. }
  split; [apply Hgen|]. intros Hn. rewrite Hgen.
  assert (Z.quot n 2 = n / 2) as Hq by (apply Z.quot_div_nonneg; lia).
  assert (0 ≤ n / 2) as Hc by (apply Z.div_pos; lia).
  unfold BinaryImage.in_bounds, BinaryImage.width, BinaryImage.height. split.
  - intros [Hin Hd].
    assert (∀ dx dy, (dx, dy) ∈ StructuringElement.offsets
                                   (StructuringElement.createSquare n)
              → 0 ≤ x + dx < BinaryImage.width_ A ∧ 0 ≤ y + dy < BinaryImage.height_ A)
      as Hd'.
    { intros dx dy Hm. exact (Hd (dx, dy) Hm). }
    pose proof (Hd' (- (n / 2)) (- (n / 2))) as H1.
    pose proof (Hd' (n / 2) (n / 2)) as H2.
    rewrite createSquare_offsets, elem_of_block, !elem_of_range_incl, Hq in H1, H2.
    lia.
  - intros [Hx Hy]. split; [lia|]. intros [dx dy] Hd.
    rewrite createSquare_offsets, elem_of_block, !elem_of_range_incl, Hq in Hd.
    simpl. lia.
Qed.

Lemma zero_boundary_erosion_of_full_grid_witness :
  let A := BinaryImage.make 5 5 true in
  BinaryImage.all_foreground A
  ∧ 1 ≤ 3
  ∧ (BinaryImage.get
       (Morphology.apply (Morphology.mk (StructuringElement.createSquare 3)
                            Erosion Zero) A) 0 2 = true
     ↔ 3 / 2 ≤ 0 < BinaryImage.width A - 3 / 2
       ∧ 3 / 2 ≤ 2 < BinaryImage.height A - 3 / 2).
Proof.
  intros A.
  assert (BinaryImage.all_foreground A) as Hall.
  { intros x y [Hx Hy]. simpl in Hx, Hy. apply get_make; lia. }
  assert (1 ≤ 3) as Hn by lia.
  split; [exact Hall|]. split; [exact Hn|].
  exact (proj2 (zero_boundary_erosion_of_full_grid A
                  (StructuringElement.createSquare 3) 3 0 2 Hall) Hn).
Defined.

(** X15: a structuring element whose only offset is the origin (what
    [createSquare 1] builds) is neutral: on a well-formed grid Erosion
    and Dilation return the grid itself, under every boundary mode, and
    the three boundary operations return the empty grid. *)
Theorem origin_only_element_is_neutral
    (A : BinaryImage.t) (se : StructuringElement.t) (bm : BoundaryMode) :
  BinaryImage.wf A →
  StructuringElement.offsets se = [(0, 0)] →
  Morphology.apply (Morphology.mk se Erosion bm) A = A
  ∧ Morphology.apply (Morphology.mk se Dilation bm) A = A
  ∧ (∀ op, op = InnerBoundary ∨ op = OuterBoundary ∨ op = Gradient →
           Morphology.apply (Morphology.mk se op bm) A
           = BinaryImage.make (BinaryImage.width A) (BinaryImage.height A) false)
  ∧ StructuringElement.offsets (StructuringElement.createSquare 1) = [(0, 0)].
Proof.
  intros Hwf Hoffs. pose proof Hwf as (Hw & Hh & Hl).
  assert (∀ op x y, BinaryImage.in_bounds A x y →
            Morphology.checkErosion (Morphology.mk se op bm) A x y
            = BinaryImage.get A x y
            ∧ Morphology.checkDilation (Morphology.mk se op bm) A x y
              = BinaryImage.get A x y) as Hprobe.
  { intros op x y Hin.
    unfold Morphology.checkErosion, Morphology.checkDilation. simpl.
    rewrite Hoffs. simpl. rewrite !Z.add_0_r.
    rewrite getPixelWithBoundary_in_bounds by done.
    by destruct (BinaryImage.get A x y). }
  assert (∀ op (B : BinaryImage.t),
            BinaryImage.wf B →
            BinaryImage.width_ B = BinaryImage.width_ A →
            BinaryImage.height_ B = BinaryImage.height_ A →
            (∀ x y, BinaryImage.in_bounds A x y →
                    Morphology.checkPixel (Morphology.mk se op bm) A x y
                    = BinaryImage.get B x y) →
            Morphology.apply (Morphology.mk se op bm) A = B) as Hext.
  { intros op B (HwB & HhB & HlB) HBw HBh Hpix.
    destruct (apply_dims (Morphology.mk se op bm) A) as [Haw Hah].
    destruct (apply_wf (Morphology.mk se op bm) A Hw Hh) as (_ & _ & Hal).
    apply image_ext; try congruence; try lia.
    intros x y Hin. unfold BinaryImage.in_bounds in Hin. rewrite Haw, Hah in Hin.
    rewrite apply_get by done. by apply Hpix. }
  split; [|split; [|split]].
  - apply Hext; try done. intros x y Hin.
    unfold Morphology.checkPixel. simpl. by apply Hprobe.
  - apply Hext; try done. intros x y Hin.
    unfold Morphology.checkPixel. simpl. by apply Hprobe.
  - intros op Hop. apply Hext; [by apply wf_make|done|done|].
    intros x y Hin. pose proof Hin as [Hx Hy].
    rewrite get_make by done. unfold Morphology.checkPixel.
    destruct (Hprobe op x y Hin) as [He Hd].
    destruct Hop as [->|[->| ->]]; simpl in *; rewrite ?He, ?Hd;
      by destruct (BinaryImage.get A x y).
  - reflexivity.
Qed.

Lemma origin_only_element_is_neutral_witness :
  let A := BinaryImage.mk 2 2 [true; false; false; true] in
  let se := StructuringElement.createSquare 1 in
  BinaryImage.wf A
  ∧ StructuringElement.offsets se = [(0, 0)]
  ∧ Morphology.apply (Morphology.mk se Erosion Wrap) A = A.
Proof.
  intros A se.
  assert (BinaryImage.wf A) as Hwf.
  { unfold BinaryImage.wf. simpl. lia. }
  assert (StructuringElement.offsets se = [(0, 0)]) as Ho by reflexivity.
  split; [exact Hwf|]. split; [exact Ho|].
  exact (proj1 (origin_only_element_is_neutral A se Wrap Hwf Ho)).
Defined.

(** X16: boundary resolution for every integer coordinate of a
    non-empty grid.  Under Wrap the probe reads the pixel at
    [(x mod width, y mod height)] with the floor modulus (the double
    remainder repairs the sign of C++'s [%]), hence it is periodic in
    both directions; under Extend it reads the nearest border pixel;
    Zero and One answer false and true outside the grid. *)
Theorem boundary_resolution
    (se : StructuringElement.t) (op : MorphOperation) (A : BinaryImage.t) (x y : Z) :
  0 < BinaryImage.width A → 0 < BinaryImage.height A →
  let w := BinaryImage.width A in
  let h := BinaryImage.height A in
  Morphology.getPixelWithBoundary (Morphology.mk se op Wrap) A x y
  = BinaryImage.get A (x mod w) (y mod h)
  ∧ (∀ i j, Morphology.getPixelWithBoundary (Morphology.mk se op Wrap) A
              (x + i * w) (y + j * h)
            = Morphology.getPixelWithBoundary (Morphology.mk se op Wrap) A x y)
  ∧ Morphology.getPixelWithBoundary (Morphology.mk se op Extend) A x y
    = BinaryImage.get A (Z.max 0 (Z.min x (w - 1))) (Z.max 0 (Z.min y (h - 1)))
  ∧ (¬ BinaryImage.in_bounds A x y →
     Morphology.getPixelWithBoundary (Morphology.mk se op Zero) A x y = false
     ∧ Morphology.getPixelWithBoundary (Morphology.mk se op One) A x y = true).
Proof.
  intros Hw Hh w h.
  assert (∀ x' y', Morphology.getPixelWithBoundary (Morphology.mk se op Wrap) A x' y'
                   = BinaryImage.get A (x' mod w) (y' mod h)) as Hwrap.
  { intros x' y'. unfold Morphology.getPixelWithBoundary. fold w h.
    destruct ((x' >=? 0) && (x' <? w) && (y' >=? 0) && (y' <? h)) eqn:E.
    - rewrite !Z.mod_small by lia. done.
    - simpl. by rewrite !wrap_is_mod. }
  split; [apply Hwrap|]. split; [|split].
  - intros i j. rewrite !Hwrap. by rewrite !Z_mod_plus_full.
  - unfold Morphology.getPixelWithBoundary. fold w h.
    destruct ((x >=? 0) && (x <? w) && (y >=? 0) && (y <? h)) eqn:E.
    + f_equal; lia.
    + simpl. unfold Morphology.clamp.
      f_equal; [destruct (x <? 0) eqn:E1; [lia|]; destruct (w - 1 <? x) eqn:E2; lia
               |destruct (y <? 0) eqn:E1; [lia|]; destruct (h - 1 <? y) eqn:E2; lia].
  - intros Hout. unfold Morphology.getPixelWithBoundary. fold w h.
    destruct ((x >=? 0) && (x <? w) && (y >=? 0) && (y <? h)) eqn:E; [|done].
    exfalso. apply Hout. unfold BinaryImage.in_bounds. fold w h.
    unfold w, h, BinaryImage.width, BinaryImage.height in *. lia.
Qed.

Lemma boundary_resolution_witness :
  let A := BinaryImage.mk 3 2 [true; false; false; false; false; true] in
  let se := StructuringElement.createSquare 3 in
  0 < BinaryImage.width A ∧ 0 < BinaryImage.height A
  ∧ Morphology.getPixelWithBoundary (Morphology.mk se Erosion Wrap) A (-1) (-1)
    = BinaryImage.get A ((-1) mod 3) ((-1) mod 2).
Proof.
  intros A se.
  assert (0 < BinaryImage.width A) as Hw by (simpl; lia).
  assert (0 < BinaryImage.height A) as Hh by (simpl; lia).
  split; [exact Hw|]. split; [exact Hh|].
  exact (proj1 (boundary_resolution se Erosion A (-1) (-1) Hw Hh)).
Defined.

(** X17: the positions [getCoveredPositions] reports for a pixel are
    exactly the positions erosion and dilation probe there, one per
    offset and in offset order: [checkErosion] is the conjunction and
    [checkDilation] the disjunction of the boundary-resolved pixels at
    those positions (the early returns of the loops do not change the
    value), and moving the pixel moves every position along. *)
Theorem covered_positions_are_probed
    (m : Morphology.t) (A : BinaryImage.t) (x y a b : Z) :
  length (Morphology.getCoveredPositions m x y)
  = length (StructuringElement.offsets (Morphology.se_ m))
  ∧ Morphology.checkErosion m A x y
    = forallb (λ p, Morphology.getPixelWithBoundary m A p.1 p.2)
        (Morphology.getCoveredPositions m x y)
  ∧ Morphology.checkDilation m A x y
    = existsb (λ p, Morphology.getPixelWithBoundary m A p.1 p.2)
        (Morphology.getCoveredPositions m x y)
  ∧ Morphology.getCoveredPositions m (x + a) (y + b)
    = (λ p : Z * Z, (p.1 + a, p.2 + b)) <$> Morphology.getCoveredPositions m x y.
Proof.
  unfold Morphology.getCoveredPositions, Morphology.checkErosion,
    Morphology.checkDilation.
  induction (StructuringElement.offsets (Morphology.se_ m)) as [|[dx dy] offs IH].
  { done. }
  destruct IH as (IH1 & IH2 & IH3 & IH4).
  split; [rewrite fmap_cons; simpl; by f_equal|]. split; [|split].
  - simpl. rewrite IH2.
    by destruct (Morphology.getPixelWithBoundary m A (x + dx) (y + dy)).
  - simpl. rewrite IH3.
    by destruct (Morphology.getPixelWithBoundary m A (x + dx) (y + dy)).
  - rewrite !fmap_cons, IH4. simpl. f_equal. f_equal; lia.
Qed.

(** * Further properties of the flood-fill engine *)

Section DiskFacts.

Import FloodFill.

Lemma disk_offsets_mem (r dx dy : Z) :
  0 < r →
  (dx, dy) ∈ disk_offsets r ↔ dx * dx + dy * dy ≤ r * r.
Proof.
  intros Hr. unfold disk_offsets. replace (r <=? 0) with false by lia.
  rewrite list_elem_of_bind. split.
  - intros (y & Hp & Hy). apply list_elem_of_bind in Hp as (x & Hp & Hx).
    destruct (x * x + y * y <=? r * r) eqn:E; [|by apply elem_of_nil in Hp].
    apply list_elem_of_singleton in Hp. simplify_eq. lia.
  - intros Hd. exists dy. split.
    + apply list_elem_of_bind. exists dx. split.
      * replace (dx * dx + dy * dy <=? r * r) with true by lia.
        by apply list_elem_of_singleton.
      * apply elem_of_range_incl. nia.
    + apply elem_of_range_incl. nia.
Qed.


Lemma circle_loop_true (f : t) (cx cy : Z) (disk : list (Z * Z)) :
  circle_loop f cx cy disk = true
  ↔ ∀ d, d ∈ disk →
         isValid f (cx + d.1) (cy + d.2) = true
         ∧ BinaryImage.get (source_ f) (cx + d.1) (cy + d.2) = target_value_ f.
Proof.
  induction disk as [|[dx dy] disk IH]; simpl.
  - split; [|done]. intros _ d Hd. by apply elem_of_nil in Hd.
  - destruct (isValid f (cx + dx) (cy + dy)) eqn:Ev; simpl.
    + destruct (eqb (BinaryImage.get (source_ f) (cx + dx) (cy + dy))
                  (target_value_ f)) eqn:Es; simpl.
      * apply eqb_prop in Es. rewrite IH. split.
        -- intros H d Hd. apply elem_of_cons in Hd as [->|Hd]; [done|by apply H].
        -- intros H d Hd. apply H. by right.
      * split; [done|]. intros H. destruct (H (dx, dy)) as [_ E]; [left|].
        simpl in E. rewrite E, eqb_reflx in Es. done.
    + split; [done|]. intros H. destruct (H (dx, dy)) as [E _]; [left|].
      simpl in E. congruence.
Qed.

(** [checkCircleFits] reads the radius, the disk, the source, the
    target value and the dimensions, nothing else. *)
Lemma checkCircleFits_ext (f g : t) (cx cy : Z) :
  safety_radius_ f = safety_radius_ g → disk_offsets_ f = disk_offsets_ g →
  source_ f = source_ g → target_value_ f = target_value_ g →
  width_ f = width_ g → height_ f = height_ g →
  checkCircleFits f cx cy = checkCircleFits g cx cy.
Proof.
  intros Hr Hd Hs Ht Hw Hh. unfold checkCircleFits, isValid.
  rewrite Hr, Hd, Hs, Ht, Hw, Hh. destruct (safety_radius_ g <=? 0); [done|].
  clear Hd. induction (disk_offsets_ g) as [|[dx dy] disk IH]; [done|]. simpl.
  unfold isValid. by rewrite Hs, Ht, Hw, Hh, IH.
Qed.

Lemma disk_consistent_make (c : Connectivity) (a : FillAlgorithm) (r : Z) :
  disk_consistent (make c a r).
Proof. done. Qed.

Lemma disk_consistent_setSafetyRadius (f : t) (r : Z) :
  disk_consistent (setSafetyRadius f r).
Proof. done. Qed.

Lemma disk_consistent_same_setup (f f' : t) :
  same_setup f f' → disk_consistent f → disk_consistent f'.
Proof.
  intros (_&_&Hr&_&Hd&_) H. unfold disk_consistent. by rewrite Hr, Hd.
Qed.

Lemma initialize_disk (f : t) (img : BinaryImage.t) (sx sy : Z) :
  disk_offsets_ (initialize f img sx sy) = disk_offsets_ f.
Proof.
  unfold initialize. destruct (negb (isValid _ sx sy)); [done|].
  destruct (negb (BinaryImage.get _ sx sy)); done.
Qed.

Lemma disk_consistent_session (f : t) (img : BinaryImage.t) (sx sy : Z) (n : nat) :
  disk_consistent f → disk_consistent (steps n (initialize f img sx sy)).
Proof.
  intros H. apply (disk_consistent_same_setup _ _ (same_setup_steps n _)).
  unfold disk_consistent. by rewrite initialize_disk, initialize_radius.
Qed.

(** The disk check as a statement over all offsets within the radius. *)
Lemma checkCircleFits_with_radius_aux (f : t) (cx cy : Z) :
  disk_consistent f →
  0 < safety_radius_ f →
  checkCircleFits f cx cy = true
  ↔ ∀ dx dy, dx * dx + dy * dy ≤ safety_radius_ f * safety_radius_ f →
             isValid f (cx + dx) (cy + dy) = true
             ∧ BinaryImage.get (source_ f) (cx + dx) (cy + dy) = target_value_ f.
Proof.
  intros Hdc Hr. unfold checkCircleFits.
  replace (safety_radius_ f <=? 0) with false by lia.
  rewrite circle_loop_true, Hdc. split.
  - intros H dx dy Hd. apply (H (dx, dy)). by apply disk_offsets_mem.
  - intros H [dx dy] Hd. apply H. by apply disk_offsets_mem in Hd.
Qed.

End DiskFacts.



(** X19: with a positive safety radius [r] and the disk the class
    keeps for it, [checkCircleFits cx cy] is true exactly when every
    position within distance [r] of [(cx, cy)] is inside the grid and
    holds the target value; in particular it is false whenever the
    centre is closer than [r] to the border.  This holds at every
    point of a session of an engine that was constructed or configured
    with [setSafetyRadius]. *)
Theorem checkCircleFits_with_radius (f : FloodFill.t) (cx cy : Z) :
  disk_consistent f →
  0 < FloodFill.safety_radius_ f →
  let r := FloodFill.safety_radius_ f in
  (FloodFill.checkCircleFits f cx cy = true
   ↔ ∀ dx dy, dx * dx + dy * dy ≤ r * r →
              FloodFill.isValid f (cx + dx) (cy + dy) = true
              ∧ BinaryImage.get (FloodFill.source_ f) (cx + dx) (cy + dy)
                = FloodFill.target_value_ f)
  ∧ (FloodFill.checkCircleFits f cx cy = true →
     r ≤ cx < FloodFill.width_ f - r ∧ r ≤ cy < FloodFill.height_ f - r)
  ∧ (∀ img sx sy n,
       disk_consistent (FloodFill.steps n (FloodFill.initialize f img sx sy))).
Proof.
  intros Hdc Hr r.
  pose proof (checkCircleFits_with_radius_aux f cx cy Hdc Hr) as Hiff.
  fold r in Hiff.
  split; [exact Hiff|]. split.
  - intros Hfit. rewrite Hiff in Hfit.
    destruct (Hfit (- r) 0) as [H1 _]; [nia|].
    destruct (Hfit r 0) as [H2 _]; [nia|].
    destruct (Hfit 0 (- r)) as [H3 _]; [nia|].
    destruct (Hfit 0 r) as [H4 _]; [nia|].
    unfold FloodFill.isValid in *. lia.
  - intros img sx sy n. by apply disk_consistent_session.
Qed.

Lemma checkCircleFits_with_radius_witness :
  let f := FloodFill.initialize (FloodFill.make Four BFS 1)
             (BinaryImage.make 3 3 true) 1 1 in
  disk_consistent f
  ∧ 0 < FloodFill.safety_radius_ f
  ∧ (FloodFill.checkCircleFits f 0 1 = true →
     1 ≤ 0 < FloodFill.width_ f - 1 ∧ 1 ≤ 1 < FloodFill.height_ f - 1).
Proof.
  intros f.
  assert (disk_consistent f) as Hdc by reflexivity.
  assert (0 < FloodFill.safety_radius_ f) as Hr by (simpl; lia).
  split; [exact Hdc|]. split; [exact Hr|].
  exact (proj1 (proj2 (checkCircleFits_with_radius f 0 1 Hdc Hr))).
Defined.

(** X20: a larger safety radius is a stronger requirement.  On the
    same engine state, if the disk fits at a position after
    [setSafetyRadius r2] then it fits there after [setSafetyRadius r1]
    for every [r1 ≤ r2], including the radii [≤ 0] that switch the
    check off. *)
Theorem clearance_antitone_in_radius (f : FloodFill.t) (r1 r2 cx cy : Z) :
  r1 ≤ r2 →
  FloodFill.checkCircleFits (FloodFill.setSafetyRadius f r2) cx cy = true →
  FloodFill.checkCircleFits (FloodFill.setSafetyRadius f r1) cx cy = true.
Proof.
  intros Hle H2.
  destruct (Z.le_gt_cases r2 0) as [Hr2|Hr2].
  - unfold FloodFill.checkCircleFits in *. simpl in *.
    replace (r1 <=? 0) with true by lia.
    replace (r2 <=? 0) with true in H2 by lia. exact H2.
  - pose proof (proj1 (checkCircleFits_with_radius_aux
                         (FloodFill.setSafetyRadius f r2) cx cy eq_refl Hr2) H2)
      as Hall.
    destruct (Z.le_gt_cases r1 0) as [Hr1|Hr1].
    + unfold FloodFill.checkCircleFits. simpl.
      replace (r1 <=? 0) with true by lia.
      destruct (Hall 0 0) as [Hv Hs]; [simpl; nia|].
      rewrite !Z.add_0_r in Hv, Hs. simpl in Hs.
      change (FloodFill.isValid (FloodFill.setSafetyRadius f r2) cx cy)
        with (FloodFill.isValid (FloodFill.setSafetyRadius f r1) cx cy) in Hv.
      rewrite Hv. simpl. rewrite Hs. apply eqb_reflx.
    + apply (checkCircleFits_with_radius_aux
               (FloodFill.setSafetyRadius f r1) cx cy eq_refl Hr1).
      intros dx dy Hd. apply Hall. simpl in *. nia.
Qed.

Lemma clearance_antitone_in_radius_witness :
  let f := FloodFill.initialize (FloodFill.make Four BFS 0)
             (BinaryImage.make 5 5 true) 2 2 in
  1 ≤ 2
  ∧ FloodFill.checkCircleFits (FloodFill.setSafetyRadius f 2) 2 2 = true
  ∧ FloodFill.checkCircleFits (FloodFill.setSafetyRadius f 1) 2 2 = true.
Proof.
  intros f.
  assert (1 ≤ 2) as Hle by lia.
  assert (FloodFill.checkCircleFits (FloodFill.setSafetyRadius f 2) 2 2 = true)
    as H2 by (by vm_compute).
  split; [exact Hle|]. split; [exact H2|].
  exact (clearance_antitone_in_radius f 1 2 2 2 Hle H2).
Defined.

Section MaskFacts.

Import FloodFill.

(** The value [precomputeSafetyMask] stores for a pixel of the grid. *)
Lemma precompute_mask_get (f : t) (x y : Z) :
  0 ≤ x < width_ f → 0 ≤ y < height_ f →
  BinaryImage.get (safety_mask_ (precomputeSafetyMask f)) x y
  = eqb (BinaryImage.get (source_ f) x y) (target_value_ f)
    && (if safety_radius_ f <=? 0 then true else checkCircleFits f x y).
Proof.
  intros Hx Hy. unfold precomputeSafetyMask. simpl.
  assert (∀ cond : Z → Z → bool,
            BinaryImage.get
              (fold_left (paint cond (λ _ _, true)) (raster (width_ f) (height_ f))
                 (BinaryImage.make (width_ f) (height_ f) false)) x y
            = cond x y) as Hgen.
  { intros cond. destruct (cond x y) eqn:E.
    - apply (paint_touched cond (λ _ _, true)); try done.
      + apply wf_make; lia.
      + by apply elem_of_raster.
    - rewrite paint_untouched; [by apply get_make|]. by intros p _ ->. }
  destruct (safety_radius_ f <=? 0); rewrite for_yx_raster.
  - rewrite andb_true_r.
    exact (Hgen (λ x y, eqb (BinaryImage.get (source_ f) x y) (target_value_ f))).
  - rewrite <- (Hgen (λ x y, eqb (BinaryImage.get (source_ f) x y) (target_value_ f)
                            && checkCircleFits f x y)).
    f_equal. apply fold_left_pointwise. intros a p. unfold paint.
    destruct (eqb (BinaryImage.get (source_ f) p.1 p.2) (target_value_ f)),
      (checkCircleFits f p.1 p.2); done.
Qed.

Lemma precompute_mask_dims (f : t) :
  0 ≤ width_ f → 0 ≤ height_ f →
  BinaryImage.width_ (safety_mask_ (precomputeSafetyMask f)) = width_ f
  ∧ BinaryImage.height_ (safety_mask_ (precomputeSafetyMask f)) = height_ f.
Proof.
  intros Hw Hh. unfold precomputeSafetyMask. simpl.
  assert (∀ (body : Z → Z → BinaryImage.t → BinaryImage.t) ps a,
            (∀ a p, body p.1 p.2 a = a ∨ ∃ v, body p.1 p.2 a = BinaryImage.set a p.1 p.2 v) →
            BinaryImage.width_ (fold_left (λ a p, body p.1 p.2 a) ps a)
            = BinaryImage.width_ a
            ∧ BinaryImage.height_ (fold_left (λ a p, body p.1 p.2 a) ps a)
              = BinaryImage.height_ a) as Hfold.
  { intros body ps a Hbody. revert a.
    induction ps as [|p ps IH]; intros a; [done|].
    simpl. destruct (IH (body p.1 p.2 a)) as [-> ->].
    destruct (Hbody a p) as [->|[v ->]]; [done|].
    by rewrite width_set, height_set. }
  assert (∀ body : Z → Z → BinaryImage.t → BinaryImage.t,
            (∀ a p, body p.1 p.2 a = a ∨ ∃ v, body p.1 p.2 a = BinaryImage.set a p.1 p.2 v) →
            BinaryImage.width_
              (for_yx (width_ f) (height_ f) body
                 (BinaryImage.make (width_ f) (height_ f) false)) = width_ f
            ∧ BinaryImage.height_
                (for_yx (width_ f) (height_ f) body
                   (BinaryImage.make (width_ f) (height_ f) false)) = height_ f)
    as Hgen.
  { intros body Hbody. rewrite for_yx_raster.
    exact (Hfold body _ (BinaryImage.make (width_ f) (height_ f) false) Hbody). }
  destruct (safety_radius_ f <=? 0); apply Hgen; intros a p.
  - destruct (eqb _ _); [right; by eexists|by left].
  - destruct (eqb _ _); [|by left].
    destruct (checkCircleFits f p.1 p.2); [right; by eexists|by left].
Qed.

Lemma mask_is_check (g : t) (x y : Z) :
  disk_consistent g → 0 ≤ width_ g → 0 ≤ height_ g →
  BinaryImage.get (safety_mask_ (precomputeSafetyMask g)) x y
  = checkCircleFits g x y.
Proof.
  intros Hdc Hw Hh.
  assert (0 < safety_radius_ g → checkCircleFits g x y = true →
          isValid g x y = true
          ∧ BinaryImage.get (source_ g) x y = target_value_ g) as Hcentre.
  { intros Hr Hfit.
    pose proof (proj1 (checkCircleFits_with_radius_aux g x y Hdc Hr) Hfit 0 0) as H0.
    rewrite !Z.add_0_r in H0. apply H0. nia. }
  destruct (isValid g x y) eqn:Ev.
  - rewrite precompute_mask_get by (unfold isValid in Ev; lia).
    destruct (safety_radius_ g <=? 0) eqn:Er.
    + unfold checkCircleFits. rewrite Er, Ev. by rewrite andb_true_r.
    + destruct (checkCircleFits g x y) eqn:Ec; [|apply andb_false_r].
      destruct Hcentre as [_ Hs]; [lia|done|]. rewrite Hs. by rewrite eqb_reflx.
  - rewrite get_out_of_bounds.
    + symmetry. destruct (checkCircleFits g x y) eqn:Ec; [|done].
      destruct (safety_radius_ g <=? 0) eqn:Er.
      * unfold checkCircleFits in Ec. by rewrite Er, Ev in Ec.
      * destruct Hcentre as [Hv _]; [lia|done|congruence].
    + unfold BinaryImage.in_bounds.
      destruct (precompute_mask_dims g Hw Hh) as [-> ->].
      unfold isValid in Ev. lia.
Qed.

End MaskFacts.

(** X21: the precomputed safety mask is the clearance check.  In a
    session started with an in-bounds seed on an engine whose disk
    matches its radius, at every step and for every integer coordinate,
    the safety mask reads what [checkCircleFits] answers there (false
    outside the grid). *)
Theorem safety_mask_is_checkCircleFits
    (f : FloodFill.t) (img : BinaryImage.t) (sx sy : Z) (n : nat) (x y : Z) :
  disk_consistent f →
  BinaryImage.in_bounds img sx sy →
  let s := FloodFill.steps n (FloodFill.initialize f img sx sy) in
  BinaryImage.get (FloodFill.safety_mask_ s) x y = FloodFill.checkCircleFits s x y.
Proof.
  intros Hdc Hin s.
  pose proof (same_setup_steps n (FloodFill.initialize f img sx sy))
    as (_&_&Hr&_&Hd&Hs&Hm&Ht&_&Hw&Hh).
  fold s in Hr, Hd, Hs, Hm, Ht, Hw, Hh.
  rewrite Hm.
  rewrite (checkCircleFits_ext s (FloodFill.initialize f img sx sy)) by done.
  rewrite initialize_in_bounds by done. cbv zeta.
  set (g1 := FloodFill.with_target_value (FloodFill.reset f img)
               (BinaryImage.get img sx sy)).
  rewrite (checkCircleFits_ext _ g1) by done.
  destruct Hin as [Hx Hy].
  apply (mask_is_check g1).
  - exact Hdc.
  - simpl. unfold BinaryImage.width. lia.
  - simpl. unfold BinaryImage.height. lia.
Qed.

Lemma safety_mask_is_checkCircleFits_witness :
  let f := FloodFill.make Eight BFS 1 in
  let img := BinaryImage.make 4 4 true in
  let s := FloodFill.steps 2 (FloodFill.initialize f img 1 1) in
  disk_consistent f
  ∧ BinaryImage.in_bounds img 1 1
  ∧ BinaryImage.get (FloodFill.safety_mask_ s) 3 2 = FloodFill.checkCircleFits s 3 2.
Proof.
  intros f img s.
  assert (disk_consistent f) as Hdc by reflexivity.
  assert (BinaryImage.in_bounds img 1 1) as Hin.
  { unfold BinaryImage.in_bounds. simpl. lia. }
  split; [exact Hdc|]. split; [exact Hin|].
  exact (safety_mask_is_checkCircleFits f img 1 1 2 3 2 Hdc Hin).
Defined.

(** * Further properties of fill sessions *)

Section CompletedFill.

Import FloodFill.

Lemma same_setup_sym (f f' : t) : same_setup f f' → same_setup f' f.
Proof. unfold same_setup. intros H. repeat split; symmetry; apply H. Qed.

Lemma touched_same_setup (f f' : t) (seed p : Z * Z) :
  same_setup f f' → touched f seed p → touched f' seed p.
Proof.
  intros Hs [->|(q & d & Hq & Hd & ->)]; [by left|].
  right. exists q, d. split; [by apply (reach_same_setup f)|].
  split; [|done]. destruct Hs as (_&_&_&->&_). done.
Qed.

(** The state of a pixel of the grid once the frontier is empty. *)
Lemma completed_cell (seed c : Z * Z) (f : t) (p : Z * Z) :
  Inv seed c [] f → frontier_ f = [] → valid f p →
  st f p ≠ InQueue
  ∧ (st f p = Processed ↔ reach f seed p)
  ∧ (st f p ≠ Unvisited ↔ touched f seed p)
  ∧ (st f p = Boundary ↔ ¬ same_value f p ∧ touched f seed p)
  ∧ (st f p = Unsafe ↔ same_value f p ∧ ¬ safe f p ∧ touched f seed p).
Proof.
  intros HI He Hp.
  assert (st f p ≠ InQueue) as HnQ.
  { intros HQ. apply (inv_inqueue _ _ _ _ HI) in HQ; [|done].
    rewrite He in HQ. by apply elem_of_nil in HQ. }
  assert (st f p = Processed ↔ reach f seed p) as HP.
  { split.
    - intros H. apply (inv_fill _ _ _ _ HI); [done|by right].
    - by apply (completed_reach_processed seed c). }
  assert (st f p ≠ Unvisited ↔ touched f seed p) as HT.
  { split.
    - intros H. destruct (inv_touched _ _ _ _ HI p Hp H)
        as [->|(q & d & Hq & Hsq & Hd & ->)]; [by left|].
      right. exists q, d. split; [|done].
      apply (inv_fill _ _ _ _ HI); [done|by right].
    - intros [->|(q & d & Hq & Hd & ->)].
      + apply (inv_seed _ _ _ _ HI).
      + pose proof (completed_reach_processed seed c f q HI He Hq) as Hsq.
        destruct (reach_valid_safe f seed q Hq) as [Hvq _].
        destruct (inv_closed _ _ _ _ HI q d Hvq Hsq Hd Hp) as [[_ Hnil]|H]; [|done].
        by apply elem_of_nil in Hnil. }
  split; [done|]. split; [done|]. split; [done|].
  assert (reach f seed p → same_value f p ∧ safe f p) as Hreach.
  { intros H. destruct (reach_valid_safe f seed p H) as [_ Hs].
    split; [|done]. by apply (inv_mask _ _ _ _ HI). }
  split.
  - split.
    + intros H. split; [by apply (inv_boundary _ _ _ _ HI)|].
      apply HT. by rewrite H.
    + intros [Hns Ht]. apply HT in Ht.
      destruct (st f p) eqn:E; try done.
      * destruct (Hreach (proj1 HP eq_refl)) as [Hsv _]. done.
      * destruct (inv_unsafe_class _ _ _ _ HI p Hp E) as [Hsv _]. done.
  - split.
    + intros H. destruct (inv_unsafe_class _ _ _ _ HI p Hp H) as [Hsv Hns].
      split; [done|]. split; [done|]. apply HT. by rewrite H.
    + intros (Hsv & Hns & Ht). apply HT in Ht.
      destruct (st f p) eqn:E; try done.
      * destruct (Hreach (proj1 HP eq_refl)) as [_ Hs]. done.
      * by destruct (inv_boundary _ _ _ _ HI p Hp E).
Qed.

End CompletedFill.

(** X22: what a completed fill holds, pixel by pixel.  After a session
    with an in-bounds seed has run to completion, the engine is complete
    and for every integer coordinate: the state is [Processed] exactly
    when the pixel is reachable from the seed through valid safe pixels,
    and exactly then the result image has the pixel set; no pixel is
    left [InQueue]; the state is [Boundary] exactly for grid pixels of
    the other value that are the seed or a neighbour of a reachable
    pixel, [Unsafe] exactly for such pixels of the target value that the
    safety mask rejects, and [Unvisited] for everything else. *)
Theorem completed_fill_partition
    (f : FloodFill.t) (img : BinaryImage.t) (sx sy x y : Z) :
  BinaryImage.in_bounds img sx sy →
  let s0 := FloodFill.initialize f img sx sy in
  let s := fill_all s0 in
  FloodFill.isComplete s = true
  ∧ (FloodFill.getState s x y = Processed ↔ reach s0 (sx, sy) (x, y))
  ∧ (BinaryImage.get (FloodFill.getResult s) x y = true ↔ reach s0 (sx, sy) (x, y))
  ∧ FloodFill.getState s x y ≠ InQueue
  ∧ (FloodFill.getState s x y = Boundary
     ↔ valid s0 (x, y) ∧ ¬ same_value s0 (x, y) ∧ touched s0 (sx, sy) (x, y))
  ∧ (FloodFill.getState s x y = Unsafe
     ↔ valid s0 (x, y) ∧ same_value s0 (x, y) ∧ ¬ safe s0 (x, y)
       ∧ touched s0 (sx, sy) (x, y))
  ∧ (FloodFill.getState s x y = Unvisited
     ↔ ¬ (valid s0 (x, y) ∧ touched s0 (sx, sy) (x, y))).
Proof.
  intros Hin s0 s.
  destruct (fill_all_complete (sx, sy) (sx, sy) s0 (Inv_initialize f img sx sy Hin))
    as (HI & He & Hss).
  fold s in HI, He, Hss.
  pose proof (same_setup_sym _ _ Hss) as Hss'.
  assert (∀ p, valid s0 p ↔ valid s p) as Hv.
  { intros p. unfold valid, FloodFill.isValid.
    destruct Hss as (_&_&_&_&_&_&_&_&_&->&->). done. }
  assert (∀ p, same_value s0 p ↔ same_value s p) as Hsv.
  { intros p. unfold same_value. destruct Hss as (_&_&_&_&_&->&_&->&_). done. }
  assert (∀ p, safe s0 p ↔ safe s p) as Hsf.
  { intros p. unfold safe. destruct Hss as (_&_&_&_&_&_&->&_). done. }
  assert (∀ p, reach s0 (sx, sy) p ↔ reach s (sx, sy) p) as Hr.
  { intros p. split; by apply reach_same_setup. }
  assert (∀ p, touched s0 (sx, sy) p ↔ touched s (sx, sy) p) as Ht.
  { intros p. split; by apply touched_same_setup. }
  split.
  { unfold FloodFill.isComplete. rewrite He, (inv_init _ _ _ _ HI). done. }
  rewrite Hr, Hv, Hsv, Hsf, Ht. rewrite getState_st.
  destruct (FloodFill.isValid s x y) eqn:Ev.
  - destruct (completed_cell (sx, sy) (sx, sy) s (x, y) HI He Ev)
      as (HnQ & HP & HT & HB & HU).
    split; [done|]. split.
    { rewrite <- HP. apply (inv_result _ _ _ _ HI (x, y) Ev). }
    split; [done|]. split; [rewrite HB; unfold valid; simpl; tauto|].
    split; [rewrite HU; unfold valid; simpl; tauto|].
    rewrite <- HT. unfold valid. simpl.
    destruct (st s (x, y)); split; try done; try tauto.
    intros H. exfalso. apply H. by split.
  - assert (¬ valid s (x, y)) as Hnv by (unfold valid; simpl; congruence).
    assert (¬ reach s (sx, sy) (x, y)) as Hnr.
    { intros H. by apply reach_valid_safe in H as [? _]. }
    split; [split; [done|tauto]|].
    split.
    { unfold FloodFill.getResult. rewrite get_out_of_bounds; [split; [done|tauto]|].
      unfold BinaryImage.in_bounds.
      rewrite (inv_result_w _ _ _ _ HI), (inv_result_h _ _ _ _ HI).
      unfold FloodFill.isValid in Ev. lia. }
    split; [done|]. split; [split; [done|tauto]|].
    split; [split; [done|tauto]|].
    split; [tauto|done].
Qed.

Lemma completed_fill_partition_witness :
  let f := FloodFill.make Four BFS 0 in
  let img := BinaryImage.set (BinaryImage.make 3 1 true) 1 0 false in
  let s0 := FloodFill.initialize f img 0 0 in
  let s := fill_all s0 in
  BinaryImage.in_bounds img 0 0
  ∧ FloodFill.isComplete s = true
  ∧ (FloodFill.getState s 1 0 = Boundary
     ↔ valid s0 (1, 0) ∧ ¬ same_value s0 (1, 0) ∧ touched s0 (0, 0) (1, 0)).
Proof.
  intros f img s0 s.
  assert (BinaryImage.in_bounds img 0 0) as Hin.
  { unfold BinaryImage.in_bounds. simpl. lia. }
  split; [exact Hin|].
  destruct (completed_fill_partition f img 0 0 1 0 Hin) as (H1 & _ & _ & _ & H5 & _).
  split; [exact H1|exact H5].
Defined.

(** X23: how [initialize] treats an in-bounds seed.  Nothing is filled
    yet, the result image is blank and every other pixel is
    [Unvisited].  A seed the safety mask accepts becomes the only
    frontier entry, [InQueue], and the session is not complete.  A seed
    the mask rejects is marked [Unsafe] and counted once, the frontier
    stays empty, the session is complete at once and running it to
    completion changes nothing. *)
Theorem seed_acceptance
    (f : FloodFill.t) (img : BinaryImage.t) (sx sy : Z) :
  BinaryImage.in_bounds img sx sy →
  let s0 := FloodFill.initialize f img sx sy in
  FloodFill.getFilledCount s0 = 0%N
  ∧ (∀ x y, BinaryImage.get (FloodFill.getResult s0) x y = false)
  ∧ (∀ x y, (x, y) ≠ (sx, sy) → FloodFill.getState s0 x y = Unvisited)
  ∧ (BinaryImage.get (FloodFill.safety_mask_ s0) sx sy = true →
     FloodFill.getFrontierPositions s0 = [(sx, sy)]
     ∧ FloodFill.getState s0 sx sy = InQueue
     ∧ FloodFill.getUnsafeCount s0 = 0%N
     ∧ FloodFill.isComplete s0 = false)
  ∧ (BinaryImage.get (FloodFill.safety_mask_ s0) sx sy = false →
     FloodFill.getFrontierPositions s0 = []
     ∧ FloodFill.getState s0 sx sy = Unsafe
     ∧ FloodFill.getUnsafeCount s0 = 1%N
     ∧ FloodFill.isComplete s0 = true
     ∧ FloodFill.step s0 = (false, s0)
     ∧ fill_all s0 = s0).
Proof.
  intros Hin s0.
  pose proof (initialize_in_bounds f img sx sy Hin) as Heq. fold s0 in Heq.
  cbv zeta in Heq.
  set (g := FloodFill.precomputeSafetyMask
              (FloodFill.with_target_value (FloodFill.reset f img)
                 (BinaryImage.get img sx sy))) in Heq.
  set (v := if BinaryImage.get (FloodFill.safety_mask_ g) sx sy
            then InQueue else Unsafe) in Heq.
  destruct Hin as [Hx Hy].
  assert (FloodFill.state_ s0
          = StateGrid.set (StateGrid.make (BinaryImage.width_ img)
                             (BinaryImage.height_ img)) sx sy v) as Hstate.
  { by rewrite Heq. }
  assert (FloodFill.isValid s0 sx sy = true) as Hvs.
  { rewrite Heq. unfold FloodFill.isValid. simpl.
    unfold BinaryImage.width, BinaryImage.height. lia. }
  assert (FloodFill.getState s0 sx sy = v) as Hseed.
  { unfold FloodFill.getState. rewrite Hvs, Hstate. simpl.
    by apply (state_get_set_same _ (BinaryImage.width_ img) (BinaryImage.height_ img));
      [apply shape_make|..]. }
  assert (FloodFill.safety_mask_ s0 = FloodFill.safety_mask_ g) as Hmask.
  { by rewrite Heq. }
  split; [by rewrite Heq; destruct v|].
  split.
  { intros x y. rewrite Heq. unfold FloodFill.getResult.
    replace (FloodFill.result_ _) with
      (BinaryImage.make (BinaryImage.width_ img) (BinaryImage.height_ img) false)
      by (by destruct v).
    destruct (in_bounds_dec
                (BinaryImage.make (BinaryImage.width_ img) (BinaryImage.height_ img) false)
                x y) as [[Hbx Hby]|Hout].
    - by apply get_make.
    - by apply get_out_of_bounds. }
  split.
  { intros x y Hne. unfold FloodFill.getState.
    destruct (FloodFill.isValid s0 x y) eqn:Ev; [|done]. simpl.
    rewrite Hstate. rewrite state_get_set_other; [apply state_get_make|..]; try lia.
    - unfold FloodFill.isValid in Ev. lia.
    - unfold FloodFill.isValid in Ev. lia.
    - congruence. }
  rewrite Hmask. split; intros Hsafe; subst v; rewrite Hsafe in *.
  - rewrite Heq. repeat split; try done. by rewrite <- Heq.
  - assert (FloodFill.frontier_ s0 = []) as Hfr by (by rewrite Heq).
    assert (FloodFill.step s0 = (false, s0)) as Hstep.
    { apply step_idle. by right. }
    split; [done|]. split; [done|]. split; [by rewrite Heq|].
    split; [by rewrite Heq|]. split; [done|].
    rewrite fill_all_steps. by apply steps_idle.
Qed.

Lemma seed_acceptance_witness :
  let f := FloodFill.make Four DFS 1 in
  let img := BinaryImage.make 2 2 true in
  let s0 := FloodFill.initialize f img 0 0 in
  BinaryImage.in_bounds img 0 0
  ∧ FloodFill.getFilledCount s0 = 0%N
  ∧ (BinaryImage.get (FloodFill.safety_mask_ s0) 0 0 = false →
     FloodFill.getFrontierPositions s0 = []
     ∧ FloodFill.getState s0 0 0 = Unsafe
     ∧ FloodFill.getUnsafeCount s0 = 1%N
     ∧ FloodFill.isComplete s0 = true
     ∧ FloodFill.step s0 = (false, s0)
     ∧ fill_all s0 = s0)
  ∧ BinaryImage.get (FloodFill.safety_mask_ s0) 0 0 = false.
Proof.
  intros f img s0.
  assert (BinaryImage.in_bounds img 0 0) as Hin.
  { unfold BinaryImage.in_bounds. simpl. lia. }
  split; [exact Hin|].
  destruct (seed_acceptance f img 0 0 Hin) as (H1 & _ & _ & _ & H5).
  split; [exact H1|]. split; [exact H5|]. reflexivity.
Defined.

Section Counters.

Import FloodFill.

Lemma count_row_two (v v' : PixelState) (row : list PixelState) :
  v ≠ v' →
  (StateGrid.count_row v row + StateGrid.count_row v' row ≤ length row)%nat.
Proof.
  intros Hne. induction row as [|u row IH]; [done|].
  rewrite !count_row_cons. simpl.
  destruct (decide (u = v)) as [E1|], (decide (u = v')) as [E2|]; try lia.
  congruence.
Qed.

Lemma count_two_le (v v' : PixelState) (g : StateGrid.t) (w : Z) :
  v ≠ v' →
  Forall (λ row, length row = Z.to_nat w) g →
  (StateGrid.count v g + StateGrid.count v' g ≤ length g * Z.to_nat w)%nat.
Proof.
  intros Hne. induction 1 as [|row g Hrow _ IH]; [done|].
  rewrite !count_cons. simpl.
  pose proof (count_row_two v v' row Hne). lia.
Qed.

Lemma loop_unsafe_count (x y : Z) (offs : list (Z * Z)) (f : t) :
  (unsafe_count_ f ≤ unsafe_count_ (fold_left (visit_neighbor x y) offs f))%N.
Proof.
  revert f. induction offs as [|d offs IH]; intros f; [done|].
  simpl. etransitivity; [|apply IH].
  destruct (visit_neighbor_cases x y f d) as [[-> _]|(v & -> & _)]; [done|].
  destruct v; simpl; lia.
Qed.

Lemma step_filled_count (seed c : Z * Z) (f : t) :
  Inv seed c [] f →
  filled_count_ (step f).2
  = (filled_count_ f + if isComplete f then 0 else 1)%N.
Proof.
  intros HI. unfold isComplete. rewrite (inv_init _ _ _ _ HI), andb_true_r.
  destruct (decide (frontier_ f = [])) as [He|Hne].
  - rewrite step_idle by (by right). rewrite bool_decide_eq_true_2 by done.
    simpl. lia.
  - rewrite bool_decide_eq_false_2 by done.
    rewrite (inv_filled _ _ _ _ (Inv_step seed c f HI)).
    rewrite (step_progress seed c f HI Hne), (inv_filled _ _ _ _ HI). lia.
Qed.

Lemma steps_filled_count (seed c : Z * Z) (n : nat) (f : t) :
  Inv seed c [] f →
  (filled_count_ (steps n f) ≤ filled_count_ f + N.of_nat n)%N.
Proof.
  revert f. induction n as [|n IH]; intros f HI; [simpl; lia|].
  simpl. specialize (IH _ (Inv_step seed c f HI)).
  rewrite (step_filled_count seed c f HI) in IH.
  destruct (isComplete f); lia.
Qed.

Lemma step_result_flag (seed c : Z * Z) (f : t) :
  Inv seed c [] f → (step f).1 = negb (isComplete (step f).2).
Proof.
  intros HI. pose proof (inv_init _ _ _ _ (Inv_step seed c f HI)) as Hi.
  unfold isComplete. rewrite Hi, andb_true_r.
  destruct (step_cases f) as [[E [Hf|He]]|(_ & _ & pixel & rest & _ & E)].
  - by rewrite (inv_init _ _ _ _ HI) in Hf.
  - rewrite E. simpl. by rewrite bool_decide_eq_true_2.
  - by rewrite E.
Qed.

Lemma seed_filled_zero (f : t) (img : BinaryImage.t) (sx sy : Z) :
  BinaryImage.in_bounds img sx sy →
  filled_count_ (initialize f img sx sy) = 0%N.
Proof.
  intros Hin. rewrite initialize_in_bounds by done. cbv zeta.
  by destruct (BinaryImage.get _ sx sy).
Qed.

Lemma step_unsafe_count (f : t) :
  (unsafe_count_ f ≤ unsafe_count_ (step f).2)%N.
Proof.
  destruct (step_cases f) as [[E _]|(_ & _ & pixel & rest & _ & E)];
    rewrite E; simpl; [done|].
  apply (loop_unsafe_count pixel.1 pixel.2 (offsets_ f) (dequeue f pixel rest)).
Qed.

End Counters.

(** X24: the counters of a session are exact.  At every step of a
    session with an in-bounds seed, [getFilledCount] is the number of
    [Processed] cells of the state grid and [getUnsafeCount] the number
    of [Unsafe] cells; together they never exceed the number of pixels,
    and after [n] calls of [step] at most [n] pixels are filled.  One
    more call adds exactly one to the filled count unless the session is
    complete, never lowers the unsafe count, and returns true exactly
    when the session is not complete afterwards. *)
Theorem counters_track_states
    (f : FloodFill.t) (img : BinaryImage.t) (sx sy : Z) (n : nat) :
  BinaryImage.in_bounds img sx sy →
  let s := FloodFill.steps n (FloodFill.initialize f img sx sy) in
  FloodFill.getFilledCount s
  = N.of_nat (StateGrid.count Processed (FloodFill.state_ s))
  ∧ FloodFill.getUnsafeCount s
    = N.of_nat (StateGrid.count Unsafe (FloodFill.state_ s))
  ∧ (FloodFill.getFilledCount s + FloodFill.getUnsafeCount s
     ≤ N.of_nat (area s))%N
  ∧ (FloodFill.getFilledCount s ≤ N.of_nat n)%N
  ∧ FloodFill.getFilledCount (FloodFill.step s).2
    = (FloodFill.getFilledCount s + if FloodFill.isComplete s then 0 else 1)%N
  ∧ (FloodFill.getUnsafeCount s ≤ FloodFill.getUnsafeCount (FloodFill.step s).2)%N
  ∧ (FloodFill.step s).1 = negb (FloodFill.isComplete (FloodFill.step s).2).
Proof.
  intros Hin s.
  pose proof (Inv_initialize f img sx sy Hin) as HI0.
  pose proof (Inv_steps (sx, sy) (sx, sy) n _ HI0) as HI. fold s in HI.
  unfold FloodFill.getFilledCount, FloodFill.getUnsafeCount.
  split; [apply (inv_filled _ _ _ _ HI)|].
  split; [apply (inv_unsafe _ _ _ _ HI)|].
  split.
  { rewrite (inv_filled _ _ _ _ HI), (inv_unsafe _ _ _ _ HI).
    destruct (inv_shape _ _ _ _ HI) as [Hl Hr].
    pose proof (count_two_le Processed Unsafe _ _ ltac:(done) Hr) as Hle.
    unfold area. nia. }
  split.
  { pose proof (steps_filled_count (sx, sy) (sx, sy) n _ HI0) as Hle.
    fold s in Hle.
    rewrite (seed_filled_zero f img sx sy Hin) in Hle. lia. }
  split; [apply (step_filled_count (sx, sy) (sx, sy) s HI)|].
  split; [apply step_unsafe_count|].
  apply (step_result_flag (sx, sy) (sx, sy) s HI).
Qed.

Lemma counters_track_states_witness :
  let f := FloodFill.make Eight BFS 0 in
  let img := BinaryImage.make 3 2 true in
  let s := FloodFill.steps 2 (FloodFill.initialize f img 1 1) in
  BinaryImage.in_bounds img 1 1
  ∧ FloodFill.getFilledCount s
    = N.of_nat (StateGrid.count Processed (FloodFill.state_ s))
  ∧ (FloodFill.getFilledCount s ≤ N.of_nat 2)%N.
Proof.
  intros f img s.
  assert (BinaryImage.in_bounds img 1 1) as Hin.
  { unfold BinaryImage.in_bounds. simpl. lia. }
  split; [exact Hin|].
  destruct (counters_track_states f img 1 1 2 Hin) as (H1 & _ & _ & H4 & _).
  split; [exact H1|exact H4].
Defined.

Section Reinitialize.

Import FloodFill.

Lemma precompute_mask_ext (f g : t) :
  safety_radius_ f = safety_radius_ g → disk_offsets_ f = disk_offsets_ g →
  source_ f = source_ g → target_value_ f = target_value_ g →
  width_ f = width_ g → height_ f = height_ g →
  safety_mask_ (precomputeSafetyMask f) = safety_mask_ (precomputeSafetyMask g).
Proof.
  intros Hr Hd Hs Ht Hw Hh. unfold precomputeSafetyMask. simpl.
  rewrite Hr, Hs, Ht, Hw, Hh. destruct (safety_radius_ g <=? 0); [done|].
  rewrite !for_yx_raster. apply fold_left_pointwise. intros a p.
  by rewrite (checkCircleFits_ext f g).
Qed.

Lemma precompute_unfold (f : t) :
  precomputeSafetyMask f
  = with_safety_mask f (safety_mask_ (precomputeSafetyMask f)).
Proof. done. Qed.

Lemma initialize_setup (f : t) (img : BinaryImage.t) (sx sy : Z) :
  connectivity_ (initialize f img sx sy) = connectivity_ f
  ∧ algorithm_ (initialize f img sx sy) = algorithm_ f
  ∧ safety_radius_ (initialize f img sx sy) = safety_radius_ f
  ∧ offsets_ (initialize f img sx sy) = offsets_ f
  ∧ disk_offsets_ (initialize f img sx sy) = disk_offsets_ f.
Proof.
  unfold initialize. cbv zeta.
  destruct (negb (isValid _ sx sy)); [done|].
  by destruct (negb (BinaryImage.get _ sx sy)).
Qed.

(** With an in-bounds seed, [initialize] reads only the five parameter
    fields of the engine it is applied to. *)
Lemma initialize_reads_parameters (f g : t) (img : BinaryImage.t) (sx sy : Z) :
  connectivity_ g = connectivity_ f → algorithm_ g = algorithm_ f →
  safety_radius_ g = safety_radius_ f → offsets_ g = offsets_ f →
  disk_offsets_ g = disk_offsets_ f →
  BinaryImage.in_bounds img sx sy →
  initialize g img sx sy = initialize f img sx sy.
Proof.
  intros Hc Ha Hr Ho Hd Hin. rewrite !initialize_in_bounds by done. cbv zeta.
  rewrite (precompute_unfold (with_target_value (reset g img) _)).
  rewrite (precompute_unfold (with_target_value (reset f img) _)).
  rewrite (precompute_mask_ext
             (with_target_value (reset g img) (BinaryImage.get img sx sy))
             (with_target_value (reset f img) (BinaryImage.get img sx sy)))
    by done.
  generalize (safety_mask_
                (precomputeSafetyMask
                   (with_target_value (reset f img) (BinaryImage.get img sx sy)))).
  intros m. destruct f, g. simpl in *. by subst.
Qed.

End Reinitialize.

(** X25: an engine can be reused.  Calling [initialize] with an
    in-bounds seed on an engine that is in the middle of (or has
    finished) another session gives exactly the engine that
    [initialize] gives on the original one: nothing of the previous
    session (image, states, frontier, counters, mask, target value)
    survives. *)
Theorem reinitialize_forgets_previous_session
    (f : FloodFill.t) (img0 : BinaryImage.t) (sx0 sy0 : Z) (n : nat)
    (img : BinaryImage.t) (sx sy : Z) :
  BinaryImage.in_bounds img sx sy →
  FloodFill.initialize
    (FloodFill.steps n (FloodFill.initialize f img0 sx0 sy0)) img sx sy
  = FloodFill.initialize f img sx sy.
Proof.
  intros Hin.
  pose proof (same_setup_steps n (FloodFill.initialize f img0 sx0 sy0))
    as (Hc & Ha & Hr & Ho & Hd & _).
  pose proof (initialize_setup f img0 sx0 sy0) as (Hc' & Ha' & Hr' & Ho' & Hd').
  apply initialize_reads_parameters; try done; congruence.
Qed.

Lemma reinitialize_forgets_previous_session_witness :
  let f := FloodFill.make Eight DFS 1 in
  let img0 := BinaryImage.make 3 3 true in
  let img := BinaryImage.make 2 4 false in
  BinaryImage.in_bounds img 1 3
  ∧ FloodFill.initialize
      (FloodFill.steps 4 (FloodFill.initialize f img0 1 1)) img 1 3
    = FloodFill.initialize f img 1 3.
Proof.
  intros f img0 img.
  assert (BinaryImage.in_bounds img 1 3) as Hin.
  { unfold BinaryImage.in_bounds. simpl. lia. }
  split; [exact Hin|].
  exact (reinitialize_forgets_previous_session f img0 1 1 4 img 1 3 Hin).
Defined.

Section MidSession.

Import FloodFill.

Lemma visit_neighbor_radius (x y : Z) (f : t) (d : Z * Z) (r : Z) :
  visit_neighbor x y (setSafetyRadius f r) d
  = setSafetyRadius (visit_neighbor x y f d) r.
Proof.
  unfold visit_neighbor, isValid. cbv zeta. simpl.
  destruct (negb _); [done|].
  destruct (negb (bool_decide _)); [done|].
  destruct (negb (eqb _ _)); [done|].
  by destruct (negb (BinaryImage.get _ _ _)).
Qed.

Lemma loop_radius (x y : Z) (offs : list (Z * Z)) (f : t) (r : Z) :
  fold_left (visit_neighbor x y) offs (setSafetyRadius f r)
  = setSafetyRadius (fold_left (visit_neighbor x y) offs f) r.
Proof.
  revert f. induction offs as [|d offs IH]; intros f; [done|].
  simpl. by rewrite visit_neighbor_radius, IH.
Qed.

Lemma step_radius (f : t) (r : Z) :
  step (setSafetyRadius f r) = ((step f).1, setSafetyRadius (step f).2 r).
Proof.
  destruct (step_cases f) as [[E H]|(Hi & Hne & pixel & rest & Hp & E)].
  - rewrite E. simpl. apply step_idle. exact H.
  - destruct (step_active (setSafetyRadius f r) Hi Hne)
      as (pixel' & rest' & Hp' & E').
    change (pop (algorithm_ f) (frontier_ f) = Some (pixel', rest')) in Hp'.
    rewrite Hp in Hp'. injection Hp' as <- <-.
    rewrite E', E. simpl fst. simpl snd.
    change (offsets_ (setSafetyRadius f r)) with (offsets_ f).
    change (dequeue (setSafetyRadius f r) pixel rest)
      with (setSafetyRadius (dequeue f pixel rest) r).
    by rewrite loop_radius.
Qed.

Lemma steps_radius (n : nat) (f : t) (r : Z) :
  steps n (setSafetyRadius f r) = setSafetyRadius (steps n f) r.
Proof.
  revert f. induction n as [|n IH]; intros f; [done|].
  simpl. rewrite step_radius. simpl. apply IH.
Qed.

Lemma Inv_setAlgorithm (seed c : Z * Z) (f : t) (a : FillAlgorithm) :
  Inv seed c [] f → Inv seed c [] (setAlgorithm f a).
Proof.
  intros HI. pose proof (inv_fill _ _ _ _ HI) as Hfill.
  destruct HI. constructor; try assumption.
  intros p Hp Hs. apply (agree_reach f); [by repeat split|]. by apply Hfill.
Qed.

Lemma steps_with_idle (order : list FillAlgorithm) (f : t) :
  frontier_ f = [] → steps_with order f = f ∨ frontier_ (steps_with order f) = [].
Proof.
  revert f. induction order as [|a order IH]; intros f He; [by left|].
  right. unfold steps_with. simpl.
  rewrite step_idle by (by right). simpl.
  destruct (IH (setAlgorithm f a) He) as [E|E].
  - unfold steps_with in E. by rewrite E.
  - exact E.
Qed.

Lemma Inv_steps_with (seed c : Z * Z) (order : list FillAlgorithm) (f : t) :
  Inv seed c [] f → Inv seed c [] (steps_with order f).
Proof.
  revert f. induction order as [|a order IH]; intros f HI; [done|].
  unfold steps_with. simpl. apply IH.
  by apply Inv_step, Inv_setAlgorithm.
Qed.

Lemma agree_steps_with (order : list FillAlgorithm) (f : t) :
  agree f (steps_with order f).
Proof.
  revert f. induction order as [|a order IH]; intros f; [by repeat split|].
  unfold steps_with. simpl.
  pose proof (same_setup_step (setAlgorithm f a)) as Hs.
  specialize (IH (step (setAlgorithm f a)).2).
  unfold steps_with in IH.
  destruct Hs as (_&_&_&Ho&_&Hsrc&Hm&Ht&_&Hw&Hh).
  destruct IH as (Ho'&Hm'&Hsrc'&Ht'&Hw'&Hh').
  repeat split; simpl in *; congruence.
Qed.

Lemma steps_with_empties (seed c : Z * Z) (order : list FillAlgorithm) (f : t) :
  Inv seed c [] f →
  (area f - StateGrid.count Processed (state_ f) ≤ length order)%nat →
  frontier_ (steps_with order f) = [].
Proof.
  revert f. induction order as [|a order IH]; intros f HI Hm.
  - destruct (decide (frontier_ f = [])) as [He|Hne]; [done|].
    destruct (processed_bound seed c f HI) as [_ Hlt]. specialize (Hlt Hne).
    simpl in Hm. lia.
  - pose proof (Inv_setAlgorithm seed c f a HI) as HIa.
    destruct (decide (frontier_ f = [])) as [He|Hne].
    + destruct (steps_with_idle (a :: order) f He) as [E|E]; [by rewrite E|done].
    + unfold steps_with. simpl. apply IH; [by apply Inv_step|].
      rewrite area_step.
      rewrite (step_progress seed c (setAlgorithm f a) HIa Hne).
      destruct (processed_bound seed c f HI) as [_ Hlt]. specialize (Hlt Hne).
      change (area (setAlgorithm f a)) with (area f).
      change (state_ (setAlgorithm f a)) with (state_ f).
      simpl in Hm. lia.
Qed.

(** Two completed sessions over the same setup and seed hold the same
    states, result and counters. *)
Lemma completed_outcome_equal (seed c c' : Z * Z) (a b : t) :
  Inv seed c [] a → Inv seed c' [] b →
  frontier_ a = [] → frontier_ b = [] → agree a b →
  state_ a = state_ b ∧ result_ a = result_ b
  ∧ filled_count_ a = filled_count_ b ∧ unsafe_count_ a = unsafe_count_ b.
Proof.
  intros Ha Hb Hea Heb Hag.
  pose proof (completed_states_equal _ _ _ _ _ Ha Hb Hea Heb Hag) as Hst.
  split; [exact Hst|]. split; [|split].
  - pose proof Hag as (_&_&_&_&Hw&Hh).
    assert (valid a seed) as Hseed by exact (proj1 (inv_seed _ _ _ _ Ha)).
    apply valid_iff in Hseed as [Hx Hy].
    apply image_ext.
    + by rewrite (inv_result_w _ _ _ _ Ha), (inv_result_w _ _ _ _ Hb).
    + by rewrite (inv_result_h _ _ _ _ Ha), (inv_result_h _ _ _ _ Hb).
    + rewrite (inv_result_w _ _ _ _ Ha), (inv_result_h _ _ _ _ Ha).
      exact (inv_result_len _ _ _ _ Ha).
    + rewrite (inv_result_w _ _ _ _ Hb), (inv_result_h _ _ _ _ Hb).
      exact (inv_result_len _ _ _ _ Hb).
    + rewrite (inv_result_w _ _ _ _ Ha). lia.
    + rewrite (inv_result_h _ _ _ _ Ha). lia.
    + intros x y Hxy. unfold BinaryImage.in_bounds in Hxy.
      rewrite (inv_result_w _ _ _ _ Ha), (inv_result_h _ _ _ _ Ha) in Hxy.
      assert (valid a (x, y)) as Hv by (by apply valid_iff).
      assert (valid b (x, y)) as Hv' by (by apply (agree_valid a b)).
      pose proof (inv_result _ _ _ _ Ha (x, y) Hv) as Hra.
      pose proof (inv_result _ _ _ _ Hb (x, y) Hv') as Hrb.
      unfold st in Hra, Hrb. rewrite <- Hst in Hrb. simpl in Hra, Hrb.
      destruct (BinaryImage.get (result_ a) x y),
        (BinaryImage.get (result_ b) x y); try done.
      * symmetry. apply Hrb, Hra. done.
      * apply Hra, Hrb. done.
  - rewrite (inv_filled _ _ _ _ Ha), (inv_filled _ _ _ _ Hb). by rewrite Hst.
  - rewrite (inv_unsafe _ _ _ _ Ha), (inv_unsafe _ _ _ _ Hb). by rewrite Hst.
Qed.

End MidSession.

(** X26: changing the safety radius has no effect on a running
    session.  [step] reads neither the radius nor the disk: stepping
    after [setSafetyRadius] gives the engine that stepping first and
    changing the radius afterwards gives, so the states, the result, the
    frontier, the counters and the (now stale) safety mask are those of
    the undisturbed session.  The new radius is used by the next
    [initialize] only. *)
Theorem radius_change_mid_session
    (s : FloodFill.t) (r : Z) (n : nat) (x y : Z) :
  let a := FloodFill.steps n (FloodFill.setSafetyRadius s r) in
  let b := FloodFill.steps n s in
  a = FloodFill.setSafetyRadius b r
  ∧ FloodFill.getState a x y = FloodFill.getState b x y
  ∧ FloodFill.getResult a = FloodFill.getResult b
  ∧ FloodFill.getFrontierPositions a = FloodFill.getFrontierPositions b
  ∧ FloodFill.getFilledCount a = FloodFill.getFilledCount b
  ∧ FloodFill.getUnsafeCount a = FloodFill.getUnsafeCount b
  ∧ FloodFill.isComplete a = FloodFill.isComplete b
  ∧ FloodFill.safety_mask_ a = FloodFill.safety_mask_ s.
Proof.
  intros a b. subst a. rewrite steps_radius. fold b.
  repeat split.
  pose proof (same_setup_steps n s) as (_&_&_&_&_&_&Hm&_). exact Hm.
Qed.

(** X27: the traversal order may change between steps.  In a session
    with an in-bounds seed where each call of [step] is preceded by
    [setAlgorithm] with an arbitrary choice of BFS or DFS, as many calls
    as the grid has pixels empty the frontier, and whenever the frontier
    is empty the states, the result image and both counters are those of
    the undisturbed run to completion. *)
Theorem mixed_order_same_outcome
    (f : FloodFill.t) (img : BinaryImage.t) (sx sy : Z)
    (order : list FillAlgorithm) :
  BinaryImage.in_bounds img sx sy →
  let s0 := FloodFill.initialize f img sx sy in
  let m := steps_with order s0 in
  let r := fill_all s0 in
  ((area s0 ≤ length order)%nat → FloodFill.getFrontierPositions m = [])
  ∧ (FloodFill.getFrontierPositions m = [] →
     FloodFill.isComplete m = true
     ∧ FloodFill.state_ m = FloodFill.state_ r
     ∧ FloodFill.getResult m = FloodFill.getResult r
     ∧ FloodFill.getFilledCount m = FloodFill.getFilledCount r
     ∧ FloodFill.getUnsafeCount m = FloodFill.getUnsafeCount r).
Proof.
  intros Hin s0 m r.
  pose proof (Inv_initialize f img sx sy Hin) as HI0. fold s0 in HI0.
  pose proof (Inv_steps_with (sx, sy) (sx, sy) order s0 HI0) as HIm. fold m in HIm.
  destruct (fill_all_complete (sx, sy) (sx, sy) s0 HI0) as (HIr & Her & Hsr).
  fold r in HIr, Her, Hsr.
  split.
  - intros Hlen. apply (steps_with_empties (sx, sy) (sx, sy)); [done|lia].
  - unfold FloodFill.getFrontierPositions. intros Hem.
    split.
    { unfold FloodFill.isComplete. by rewrite Hem, (inv_init _ _ _ _ HIm). }
    apply (completed_outcome_equal (sx, sy) (sx, sy) (sx, sy)); try done.
    pose proof (agree_steps_with order s0) as Ham. fold m in Ham.
    apply agree_sym in Ham.
    destruct Ham as (Ho&Hm&Hsrc&Ht&Hw&Hh).
    destruct Hsr as (_&_&_&Ho'&_&Hsrc'&Hm'&Ht'&_&Hw'&Hh').
    repeat split; congruence.
Qed.

Lemma mixed_order_same_outcome_witness :
  let f := FloodFill.make Four BFS 0 in
  let img := BinaryImage.make 2 2 true in
  let s0 := FloodFill.initialize f img 0 0 in
  let m := steps_with [DFS; BFS; DFS; DFS] s0 in
  BinaryImage.in_bounds img 0 0
  ∧ (area s0 ≤ length [DFS; BFS; DFS; DFS])%nat
  ∧ FloodFill.getFrontierPositions m = []
  ∧ FloodFill.state_ m = FloodFill.state_ (fill_all s0).
Proof.
  intros f img s0 m.
  assert (BinaryImage.in_bounds img 0 0) as Hin.
  { unfold BinaryImage.in_bounds. simpl. lia. }
  assert (area s0 ≤ length [DFS; BFS; DFS; DFS])%nat as Hlen.
  { vm_compute. lia. }
  split; [exact Hin|]. split; [exact Hlen|].
  destruct (mixed_order_same_outcome f img 0 0 [DFS; BFS; DFS; DFS] Hin)
    as [H1 H2].
  split; [exact (H1 Hlen)|]. exact (proj1 (proj2 (H2 (H1 Hlen)))).
Defined.

(** * The animation of the morphology visualizer *)

Section Animation.

Import Visualizer.

Variables (morph : Morphology.t) (original result0 : BinaryImage.t).
Hypothesis Hw : 0 < BinaryImage.width_ original.
Hypothesis Hh : 0 < BinaryImage.height_ original.

(** Whether a call at time [now] gets past the pause and time gates. *)
Lemma stepAnimation_blocked (now : Z) (state : AnimationState) (result : BinaryImage.t) :
  completed state || paused state = true
  ∨ (uint32 (now - last_step_time state) <? uint32 (speed_ms state)) = true →
  stepAnimation now state original result morph = (state, result).
Proof.
  unfold stepAnimation. intros [->| ->]; [done|].
  by destruct (completed state || paused state).
Qed.

Lemma step_anim (now : Z) (state : AnimationState) (result : BinaryImage.t) :
  anim_inv morph original result0 (state, result) →
  let sr' := stepAnimation now state original result morph in
  anim_inv morph original result0 sr'
  ∧ paused sr'.1 = paused state ∧ speed_ms sr'.1 = speed_ms state
  ∧ progress original sr'.1
    = progress original state
      + (if completed state || paused state then 0
         else if uint32 (now - last_step_time state) <? uint32 (speed_ms state)
              then 0 else 1).
Proof.
  intros HJ sr'. subst sr'.
  destruct (completed state || paused state) eqn:E1.
  { rewrite stepAnimation_blocked by (left; done). rewrite Z.add_0_r. done. }
  destruct (uint32 (now - last_step_time state) <? uint32 (speed_ms state)) eqn:E2.
  { rewrite stepAnimation_blocked by (right; done). rewrite Z.add_0_r. done. }
  apply orb_false_iff in E1 as [Ec Ep].
  destruct HJ as (Hwf & Hrw & Hrh & Hcur & Hpix). simpl in Hwf, Hrw, Hrh, Hcur, Hpix.
  destruct (Hcur Ec) as [Hx Hy].
  set (cx := current_x state) in *. set (cy := current_y state) in *.
  set (w := BinaryImage.width_ original) in *.
  set (h := BinaryImage.height_ original) in *.
  assert (progress original state = cy * w + cx) as HP.
  { unfold progress. by rewrite Ec. }
  set (res' := BinaryImage.set result cx cy (Morphology.checkPixel morph original cx cy)).
  assert (BinaryImage.in_bounds result cx cy) as Hinr.
  { unfold BinaryImage.in_bounds. rewrite Hrw, Hrh. done. }
  assert (∀ x y, BinaryImage.in_bounds original x y →
            BinaryImage.get res' x y
            = if y * w + x <? cy * w + cx + 1
              then Morphology.checkPixel morph original x y
              else BinaryImage.get result0 x y) as Hpix'.
  { intros x y Hin. destruct (decide ((cx, cy) = (x, y))) as [Heq|Hne].
    - injection Heq as <- <-. unfold res'. rewrite get_set_same by done.
      replace (cy * w + cx <? cy * w + cx + 1) with true by lia. done.
    - unfold res'. rewrite get_set_other by done. rewrite (Hpix x y Hin), HP.
      destruct Hin as [Hix Hiy]. fold w in Hix. fold h in Hiy.
      assert (y * w + x ≠ cy * w + cx) as Hidx.
      { intros Heq. apply Hne. assert (y = cy) by nia. subst y.
        f_equal. lia. }
      destruct (y * w + x <? cy * w + cx) eqn:Ea,
        (y * w + x <? cy * w + cx + 1) eqn:Eb; try done; lia. }
  assert (BinaryImage.wf res'
          ∧ BinaryImage.width_ res' = w ∧ BinaryImage.height_ res' = h)
    as (Hwf' & Hrw' & Hrh').
  { unfold res'. rewrite width_set, height_set. split; [by apply wf_set|done]. }
  unfold stepAnimation. rewrite Ec, Ep, E2. simpl orb. cbv iota. cbv zeta.
  fold cx cy. unfold BinaryImage.width, BinaryImage.height. fold w h. fold res'.
  rewrite HP.
  destruct (cx + 1 >=? w) eqn:Ex; [destruct (cy + 1 >=? h) eqn:Ey|].
  - assert (∀ p, progress original
              (mkAnim 0 (cy + 1) p true (speed_ms state) now)
            = cy * w + cx + 1) as HP'.
    { intros p. unfold progress, BinaryImage.width, BinaryImage.height. simpl. fold w h.
      assert (cx + 1 = w) by lia. assert (cy + 1 = h) by lia. nia. }
    simpl fst. simpl snd.
    split; [|split; [done|split; [done|by rewrite HP']]].
    split; [done|]. split; [done|]. split; [done|]. split; [done|].
    intros x y Hin. simpl fst. simpl snd. rewrite HP' by done. by apply Hpix'.
  - assert (∀ p c, c = false → progress original
              (mkAnim 0 (cy + 1) p c (speed_ms state) now)
            = cy * w + cx + 1) as HP'.
    { intros p c ->. unfold progress, BinaryImage.width, BinaryImage.height. simpl.
      fold w. assert (cx + 1 = w) by lia. nia. }
    simpl fst. simpl snd.
    split; [|split; [done|split; [done|by rewrite HP']]].
    split; [done|]. split; [done|]. split; [done|].
    split; [intros _; simpl; fold w h; lia|].
    intros x y Hin. simpl fst. simpl snd. rewrite HP' by done. by apply Hpix'.
  - assert (∀ p c, c = false → progress original
              (mkAnim (cx + 1) cy p c (speed_ms state) now)
            = cy * w + cx + 1) as HP'.
    { intros p c ->. unfold progress, BinaryImage.width, BinaryImage.height. simpl.
      fold w. lia. }
    simpl fst. simpl snd.
    split; [|split; [done|split; [done|by rewrite HP']]].
    split; [done|]. split; [done|]. split; [done|].
    split; [intros _; simpl; fold w h; lia|].
    intros x y Hin. simpl fst. simpl snd. rewrite HP' by done. by apply Hpix'.
Qed.

Lemma animate_inv (ticks : list Z) (sr : AnimationState * BinaryImage.t) :
  anim_inv morph original result0 sr →
  anim_inv morph original result0 (animate morph original ticks sr)
  ∧ paused (animate morph original ticks sr).1 = paused sr.1
  ∧ speed_ms (animate morph original ticks sr).1 = speed_ms sr.1.
Proof.
  revert sr. induction ticks as [|now ticks IH]; intros [state result] HJ; [done|].
  unfold animate. simpl.
  destruct (step_anim now state result HJ) as (HJ' & Hp & Hs & _).
  destruct (IH _ HJ') as (H1 & H2 & H3).
  unfold animate in H1, H2, H3. split; [done|]. split; congruence.
Qed.

Lemma progress_bound (sr : AnimationState * BinaryImage.t) :
  anim_inv morph original result0 sr →
  0 ≤ progress original sr.1
    ≤ BinaryImage.width_ original * BinaryImage.height_ original
  ∧ (completed sr.1 = true
     ↔ progress original sr.1
       = BinaryImage.width_ original * BinaryImage.height_ original).
Proof.
  intros (_ & _ & _ & Hcur & _). unfold progress.
  unfold BinaryImage.width, BinaryImage.height.
  destruct (completed sr.1) eqn:Ec.
  - split; [nia|done].
  - destruct (Hcur eq_refl) as [Hx Hy]. split; [nia|]. split; [done|nia].
Qed.

Lemma animate_progress (ticks : list Z) (sr : AnimationState * BinaryImage.t) :
  anim_inv morph original result0 sr →
  paused sr.1 = false → speed_ms sr.1 = 0 →
  progress original (animate morph original ticks sr).1
  = Z.min (progress original sr.1 + Z.of_nat (length ticks))
      (BinaryImage.width_ original * BinaryImage.height_ original).
Proof.
  revert sr. induction ticks as [|now ticks IH]; intros [state result] HJ Hp Hs.
  { simpl. destruct (progress_bound _ HJ) as [Hb _]. simpl in Hb. lia. }
  destruct (step_anim now state result HJ) as (HJ' & Hp' & Hs' & Hprog).
  simpl in Hp, Hs.
  unfold animate. simpl fold_left.
  specialize (IH _ HJ' ltac:(congruence) ltac:(congruence)).
  unfold animate in IH. rewrite IH, Hprog, Hp, Hs.
  destruct (progress_bound _ HJ) as [Hb Hc]. simpl in Hb, Hc.
  destruct (progress_bound _ HJ') as [Hb' _].
  rewrite Hprog, Hp, Hs in Hb'.
  assert ((uint32 (now - last_step_time state) <? uint32 0) = false) as Hgate.
  { unfold uint32. rewrite Z.mod_0_l by lia.
    pose proof (Z.mod_pos_bound (now - last_step_time state) (2 ^ 32)). lia. }
  rewrite Hgate in *. rewrite orb_false_r in *.
  simpl fst. rewrite length_cons.
  destruct (completed state) eqn:Ec.
  - assert (progress original state
            = BinaryImage.width_ original * BinaryImage.height_ original)
      by (by apply Hc).
    lia.
  - lia.
Qed.

End Animation.

(** X28: the animation computes the batch operation, one pixel per
    firing call.  Start [stepAnimation] at the top-left cursor on a
    result image of the original's (positive) dimensions and call it
    with any sequence of clock readings.  At any moment the pixels
    before the cursor in raster order hold [checkPixel] of the original
    and the others are untouched; once [completed] is set the result
    image is exactly [Morphology::apply] of the original.  A paused
    animation changes nothing, and with [speed_ms = 0] an unpaused one
    writes one pixel per call, so it completes after exactly
    width × height calls. *)
Theorem animation_computes_apply
    (morph : Morphology.t) (original result : BinaryImage.t)
    (state : Visualizer.AnimationState) (ticks : list Z) :
  0 < BinaryImage.width original → 0 < BinaryImage.height original →
  BinaryImage.wf result →
  BinaryImage.width result = BinaryImage.width original →
  BinaryImage.height result = BinaryImage.height original →
  Visualizer.current_x state = 0 → Visualizer.current_y state = 0 →
  Visualizer.completed state = false →
  let sr := animate morph original ticks (state, result) in
  (Visualizer.completed sr.1 = true → sr.2 = Morphology.apply morph original)
  ∧ (∀ x y, BinaryImage.in_bounds original x y →
       BinaryImage.get sr.2 x y
       = if y * BinaryImage.width original + x <? progress original sr.1
         then Morphology.checkPixel morph original x y
         else BinaryImage.get result x y)
  ∧ (Visualizer.paused state = true → sr = (state, result))
  ∧ (Visualizer.paused state = false → Visualizer.speed_ms state = 0 →
     progress original sr.1
     = Z.min (Z.of_nat (length ticks))
         (BinaryImage.width original * BinaryImage.height original)
     ∧ (Visualizer.completed sr.1 = true
        ↔ BinaryImage.width original * BinaryImage.height original
          ≤ Z.of_nat (length ticks))).
Proof.
  intros Hw Hh Hwf Hrw Hrh Hx Hy Hc sr.
  unfold BinaryImage.width, BinaryImage.height in *.
  assert (progress original state = 0) as HP0.
  { unfold progress. rewrite Hc, Hx, Hy. lia. }
  assert (anim_inv morph original result (state, result)) as HJ0.
  { split; [done|]. split; [done|]. split; [done|]. simpl.
    split; [intros _; lia|]. intros x y [Hix Hiy]. rewrite HP0.
    replace (y * BinaryImage.width_ original + x <? 0) with false by nia. done. }
  destruct (animate_inv morph original result Hw Hh ticks _ HJ0) as (HJ & Hp & Hs).
  fold sr in HJ, Hp, Hs. simpl in Hp, Hs.
  pose proof HJ as (Hwf' & Hrw' & Hrh' & _ & Hpix).
  destruct (progress_bound morph original result Hw Hh sr HJ) as [Hb Hdone].
  split.
  { intros Hcompl. apply Hdone in Hcompl.
    destruct (apply_dims morph original) as [Haw Hah].
    destruct (apply_wf morph original) as (_ & _ & Hal); [lia..|].
    destruct Hwf' as (_ & _ & Hrl).
    apply image_ext; try congruence; try lia.
    intros x y Hin.
    assert (BinaryImage.in_bounds original x y) as Hin'.
    { unfold BinaryImage.in_bounds in *. by rewrite <- Hrw', <- Hrh'. }
    rewrite (Hpix x y Hin'), Hcompl, apply_get by done.
    destruct Hin' as [Hix Hiy].
    replace (y * BinaryImage.width_ original + x
             <? BinaryImage.width_ original * BinaryImage.height_ original)
      with true by nia.
    done. }
  split; [exact Hpix|]. split.
  { intros Hpaused. subst sr. clear -Hpaused.
    induction ticks as [|now ticks IH]; [done|].
    unfold animate. simpl.
    rewrite stepAnimation_blocked; [exact IH|].
    left. rewrite Hpaused. apply orb_true_r. }
  intros Hpaused Hspeed.
  pose proof (animate_progress morph original result Hw Hh ticks _ HJ0
                Hpaused Hspeed) as Hprog.
  fold sr in Hprog. simpl in Hprog. rewrite HP0, Z.add_0_l in Hprog.
  split; [exact Hprog|]. rewrite Hdone, Hprog. lia.
Qed.

Lemma animation_computes_apply_witness :
  let morph := Morphology.mk (StructuringElement.createSquare 3) Erosion Zero in
  let original := BinaryImage.make 2 2 true in
  let result := BinaryImage.make 2 2 false in
  let state := Visualizer.mkAnim 0 0 false false 0 0 in
  let sr := animate morph original [5; 6; 7; 8] (state, result) in
  0 < BinaryImage.width original ∧ 0 < BinaryImage.height original
  ∧ BinaryImage.wf result
  ∧ BinaryImage.width result = BinaryImage.width original
  ∧ BinaryImage.height result = BinaryImage.height original
  ∧ Visualizer.completed sr.1 = true
  ∧ sr.2 = Morphology.apply morph original.
Proof.
  intros morph original result state sr.
  assert (0 < BinaryImage.width original) as Hw by (simpl; lia).
  assert (0 < BinaryImage.height original) as Hh by (simpl; lia).
  assert (BinaryImage.wf result) as Hwf.
  { unfold BinaryImage.wf. simpl. lia. }
  assert (Visualizer.completed sr.1 = true) as Hc by reflexivity.
  split; [exact Hw|]. split; [exact Hh|]. split; [exact Hwf|].
  split; [reflexivity|]. split; [reflexivity|]. split; [exact Hc|].
  exact (proj1 (animation_computes_apply morph original result state [5; 6; 7; 8]
                  Hw Hh Hwf eq_refl eq_refl eq_refl eq_refl eq_refl) Hc).
Defined.

(** * Picking and the hover preview of the flood-fill visualizer *)

Section Picking.

Import FloodFillVisualizer.

(** Truncating division by a positive cell size: inside a cell, and in
    the strip of less than one cell before the first one. *)
Lemma quot_cell (c x d : Z) :
  0 < c → 0 ≤ x → x * c ≤ d < x * c + c → Z.quot d c = x.
Proof.
  intros Hc Hx Hd. rewrite Z.quot_div_nonneg by nia.
  symmetry. apply (Z.div_unique d c x (d - x * c)); lia.
Qed.

Lemma quot_strip (c d : Z) : 0 < c → - c < d < c → Z.quot d c = 0.
Proof.
  intros Hc Hd. apply Z.quot_small_iff; lia.
Qed.

Lemma quot_cell_inv (c x d : Z) :
  0 < c → 0 < x → Z.quot d c = x → x * c ≤ d < x * c + c.
Proof.
  intros Hc Hx Hq.
  assert (0 ≤ d) as Hd.
  { destruct (decide (0 ≤ d)) as [|Hneg]; [done|].
    pose proof (Z.quot_opp_l d c ltac:(lia)) as Ho.
    pose proof (Z.quot_div_nonneg (- d) c ltac:(lia) Hc) as Hdiv.
    pose proof (Z.div_pos (- d) c ltac:(lia) Hc). lia. }
  rewrite Z.quot_div_nonneg in Hq by done.
  pose proof (Z.div_mod d c ltac:(lia)) as Hdm.
  pose proof (Z.mod_pos_bound d c Hc). nia.
Qed.

Lemma grid_cell_in_rect (v : t) (x y mx my : Z) :
  0 < pixel_size_ v + gap_ v → 0 ≤ x → 0 ≤ y →
  in_cell_rect v x y mx my → grid_cell v mx my = (x, y).
Proof.
  intros Hc Hx Hy [Hmx Hmy]. unfold grid_cell. cbv zeta.
  f_equal; apply quot_cell; lia.
Qed.

Lemma in_grid_true (v : t) (x y : Z) :
  in_grid v x y = true ↔ 0 ≤ x < image_width_ v ∧ 0 ≤ y < image_height_ v.
Proof. unfold in_grid. rewrite !andb_true_iff. lia. Qed.

Lemma updateHoverPosition_hover (v : t) (mx my : Z) :
  let v' := updateHoverPosition v mx my in
  (hover_x (controls_ v'), hover_y (controls_ v'))
  = if in_grid v (grid_cell v mx my).1 (grid_cell v mx my).2
    then grid_cell v mx my else (-1, -1).
Proof.
  unfold updateHoverPosition, grid_cell. cbv zeta. simpl fst. simpl snd.
  by destruct (in_grid v _ _).
Qed.

End Picking.

(** X29: picking inverts drawing.  With a positive cell size, after
    [updateHoverPosition] the hovered cell is [(-1, -1)] or a cell of
    the grid; a mouse position inside the square drawn for a grid cell
    (its gap to the next cell included) hovers exactly that cell, and a
    left click there starts the fill at that cell.  Because the
    division truncates towards zero, positions up to one cell size
    before the first column and row still pick column and row 0. *)
Theorem hover_picks_drawn_cell (v : FloodFillVisualizer.t) (mx my : Z) :
  0 < FloodFillVisualizer.pixel_size_ v + FloodFillVisualizer.gap_ v →
  let cell_size := FloodFillVisualizer.pixel_size_ v + FloodFillVisualizer.gap_ v in
  let hover u :=
    (FloodFillVisualizer.hover_x (FloodFillVisualizer.controls_ u),
     FloodFillVisualizer.hover_y (FloodFillVisualizer.controls_ u)) in
  let v' := FloodFillVisualizer.updateHoverPosition v mx my in
  (hover v' = (-1, -1)
   ∨ (0 ≤ (hover v').1 < FloodFillVisualizer.image_width_ v
      ∧ 0 ≤ (hover v').2 < FloodFillVisualizer.image_height_ v))
  ∧ (∀ x y,
       0 ≤ x < FloodFillVisualizer.image_width_ v →
       0 ≤ y < FloodFillVisualizer.image_height_ v →
       in_cell_rect v x y mx my →
       hover v' = (x, y)
       ∧ FloodFillVisualizer.leftButtonDown v mx my
         = FloodFillVisualizer.startFillAt v x y)
  ∧ (∀ x y, 0 < x → 0 < y → hover v' = (x, y) → in_cell_rect v x y mx my)
  ∧ (0 < FloodFillVisualizer.image_width_ v →
     0 < FloodFillVisualizer.image_height_ v →
     - cell_size < mx - FloodFillVisualizer.grid_offset_x_ v
                   - FloodFillVisualizer.gap_ v < cell_size →
     - cell_size < my - FloodFillVisualizer.grid_offset_y_ v
                   - FloodFillVisualizer.gap_ v < cell_size →
     hover v' = (0, 0)).
Proof.
  intros Hc cell_size hover v'.
  pose proof (updateHoverPosition_hover v mx my) as Hh. cbv zeta in Hh.
  fold v' in Hh. change (hover v' = if FloodFillVisualizer.in_grid v
                                         (FloodFillVisualizer.grid_cell v mx my).1
                                         (FloodFillVisualizer.grid_cell v mx my).2
                                    then FloodFillVisualizer.grid_cell v mx my
                                    else (-1, -1)) in Hh.
  split.
  { rewrite Hh.
    destruct (FloodFillVisualizer.in_grid v _ _) eqn:E; [right|by left].
    by apply in_grid_true in E. }
  split.
  { intros x y Hx Hy Hrect.
    pose proof (grid_cell_in_rect v x y mx my Hc ltac:(lia) ltac:(lia) Hrect) as Hg.
    assert (FloodFillVisualizer.in_grid v x y = true) as Hin
      by (by apply in_grid_true).
    split.
    - rewrite Hh, Hg. simpl. by rewrite Hin.
    - unfold FloodFillVisualizer.leftButtonDown. cbv zeta.
      unfold FloodFillVisualizer.grid_cell in Hg. cbv zeta in Hg.
      injection Hg as -> ->. by rewrite Hin. }
  split.
  { intros x y Hx Hy Hxy. rewrite Hh in Hxy.
    destruct (FloodFillVisualizer.in_grid v _ _); [|injection Hxy; lia].
    unfold FloodFillVisualizer.grid_cell in Hxy. cbv zeta in Hxy.
    injection Hxy as Hqx Hqy.
    apply quot_cell_inv in Hqx; [|done..]. apply quot_cell_inv in Hqy; [|done..].
    unfold in_cell_rect. cbv zeta. lia. }
  intros Hw Hh' Hsx Hsy.
  assert (FloodFillVisualizer.grid_cell v mx my = (0, 0)) as Hg.
  { unfold FloodFillVisualizer.grid_cell. cbv zeta.
    f_equal; by apply quot_strip. }
  rewrite Hh, Hg. simpl.
  replace (FloodFillVisualizer.in_grid v 0 0) with true; [done|].
  symmetry. apply in_grid_true. lia.
Qed.

Lemma hover_picks_drawn_cell_witness :
  let v := FloodFillVisualizer.mk 18 1 24 24 302 41
             (FloodFillVisualizer.mkControls 0 0 2 true false (-1) (-1) (-1) (-1))
             (BinaryImage.make 24 24 true) (FloodFillVisualizer.new_engine
                (FloodFillVisualizer.mkControls 0 0 2 true false (-1) (-1) (-1) (-1)))
             true false 0 in
  let v' := FloodFillVisualizer.updateHoverPosition v 350 100 in
  0 < FloodFillVisualizer.pixel_size_ v + FloodFillVisualizer.gap_ v
  ∧ in_cell_rect v 2 3 350 100
  ∧ (FloodFillVisualizer.hover_x (FloodFillVisualizer.controls_ v'),
     FloodFillVisualizer.hover_y (FloodFillVisualizer.controls_ v')) = (2, 3).
Proof.
  intros v v'.
  assert (0 < FloodFillVisualizer.pixel_size_ v + FloodFillVisualizer.gap_ v)
    as Hc by (simpl; lia).
  assert (in_cell_rect v 2 3 350 100) as Hrect.
  { unfold in_cell_rect. simpl. lia. }
  split; [exact Hc|]. split; [exact Hrect|].
  destruct (hover_picks_drawn_cell v 350 100 Hc) as (_ & H2 & _).
  apply (H2 2 3); [simpl; lia|simpl; lia|exact Hrect].
Defined.

Section HoverPreview.

Import FloodFillVisualizer.

Variable v : t.
Hypothesis Hshow : show_safety_preview (controls_ v) = true.
Hypothesis Hidle : fill_started (controls_ v) = false.
Hypothesis Hhx : 0 ≤ hover_x (controls_ v).
Hypothesis Hr : 0 ≤ safety_radius (controls_ v).

Lemma preview_active :
  show_safety_preview (controls_ v) && (hover_x (controls_ v) >=? 0)
  && negb (fill_started (controls_ v)) = true.
Proof. rewrite Hshow, Hidle. simpl. lia. Qed.

Lemma hover_circle_mem (p : Z * Z) :
  p ∈ hover_circle v
  ↔ ∃ dx dy,
      dx * dx + dy * dy ≤ safety_radius (controls_ v) * safety_radius (controls_ v)
      ∧ p = (hover_x (controls_ v) + dx, hover_y (controls_ v) + dy).
Proof.
  unfold hover_circle. cbv zeta. rewrite preview_active.
  set (r := safety_radius (controls_ v)) in *.
  rewrite list_elem_of_bind. split.
  - intros (dy & Hp & Hy). apply list_elem_of_bind in Hp as (dx & Hp & Hx).
    destruct (dx * dx + dy * dy <=? r * r) eqn:E; [|by apply elem_of_nil in Hp].
    apply list_elem_of_singleton in Hp. exists dx, dy. split; [lia|done].
  - intros (dx & dy & Hd & ->). exists dy. split.
    + apply list_elem_of_bind. exists dx. split.
      * replace (dx * dx + dy * dy <=? r * r) with true by lia.
        by apply list_elem_of_singleton.
      * apply elem_of_range_incl. nia.
    + apply elem_of_range_incl. nia.
Qed.

Lemma hover_safe_true :
  hover_safe v = true
  ↔ ∀ dx dy,
      dx * dx + dy * dy ≤ safety_radius (controls_ v) * safety_radius (controls_ v) →
      (0 ≤ hover_x (controls_ v) + dx < image_width_ v
       ∧ 0 ≤ hover_y (controls_ v) + dy < image_height_ v)
      ∧ BinaryImage.get (source_image_ v)
          (hover_x (controls_ v) + dx) (hover_y (controls_ v) + dy) = true.
Proof.
  unfold hover_safe. cbv zeta. rewrite preview_active.
  rewrite forallb_forall. split.
  - intros H dx dy Hd.
    specialize (H (hover_x (controls_ v) + dx, hover_y (controls_ v) + dy)).
    simpl in H.
    assert (negb
              ((hover_x (controls_ v) + dx <? 0)
               || (hover_x (controls_ v) + dx >=? image_width_ v)
               || (hover_y (controls_ v) + dy <? 0)
               || (hover_y (controls_ v) + dy >=? image_height_ v)
               || negb (BinaryImage.get (source_image_ v)
                          (hover_x (controls_ v) + dx)
                          (hover_y (controls_ v) + dy))) = true) as Hok.
    { apply H. apply list_elem_of_In. apply hover_circle_mem. by exists dx, dy. }
    apply negb_true_iff in Hok. rewrite !orb_false_iff in Hok.
    destruct Hok as [[[[H1 H2] H3] H4] H5]. apply negb_false_iff in H5.
    split; [lia|done].
  - intros H p Hp. apply list_elem_of_In, hover_circle_mem in Hp
      as (dx & dy & Hd & ->).
    destruct (H dx dy Hd) as [[Hx Hy] Hg]. simpl. rewrite Hg. simpl.
    apply negb_true_iff. rewrite !orb_false_iff. lia.
Qed.

End HoverPreview.

Section SeedDecision.

Import FloodFill.

Lemma initialize_seed_frontier (f : t) (img : BinaryImage.t) (sx sy : Z) :
  BinaryImage.in_bounds img sx sy →
  frontier_ (initialize f img sx sy)
  = if BinaryImage.get (safety_mask_ (initialize f img sx sy)) sx sy
    then [(sx, sy)] else [].
Proof.
  intros Hin. rewrite initialize_in_bounds by done. cbv zeta.
  set (g := precomputeSafetyMask _).
  change (safety_mask_ (with_initialized (mark g (sx, sy) _) true))
    with (safety_mask_ g).
  by destruct (BinaryImage.get (safety_mask_ g) sx sy).
Qed.

Lemma initialize_seed_mask (f : t) (img : BinaryImage.t) (sx sy : Z) :
  disk_consistent f → BinaryImage.in_bounds img sx sy →
  BinaryImage.get (safety_mask_ (initialize f img sx sy)) sx sy
  = checkCircleFits
      (with_target_value (reset f img) (BinaryImage.get img sx sy)) sx sy.
Proof.
  intros Hdc Hin. rewrite initialize_in_bounds by done. cbv zeta.
  set (g1 := with_target_value (reset f img) (BinaryImage.get img sx sy)).
  change (safety_mask_ (with_initialized (mark (precomputeSafetyMask g1) (sx, sy) _) true))
    with (safety_mask_ (precomputeSafetyMask g1)).
  destruct Hin as [Hx Hy].
  apply (mask_is_check g1); [exact Hdc|simpl|simpl];
    unfold BinaryImage.width, BinaryImage.height; lia.
Qed.

End SeedDecision.

Section PreviewAgainstEngine.

Import FloodFillVisualizer.

Lemma fmap_bind_list {A B C : Type} (f : B → C) (g : A → list B) (l : list A) :
  f <$> (l ≫= g) = l ≫= (λ x, f <$> g x).
Proof.
  induction l as [|a l IH]; [done|].
  by rewrite !bind_cons, fmap_app, IH.
Qed.

Lemma bind_ext_list {A B : Type} (g g' : A → list B) (l : list A) :
  (∀ x, g x = g' x) → l ≫= g = l ≫= g'.
Proof.
  intros H. induction l as [|a l IH]; [done|].
  by rewrite !bind_cons, H, IH.
Qed.

(** The engine a click on the in-grid cell [(x, y)] creates. *)
Lemma startFillAt_engine (v : t) (x y : Z) :
  0 ≤ x < image_width_ v → 0 ≤ y < image_height_ v →
  floodfill_ (startFillAt v x y)
  = FloodFill.initialize (new_engine (controls_ v)) (source_image_ v) x y.
Proof.
  intros Hx Hy. unfold startFillAt.
  replace ((x <? 0) || (x >=? image_width_ v) || (y <? 0) || (y >=? image_height_ v))
    with false by lia.
  done.
Qed.

(** The safety-mask value of the seed of that engine. *)
Lemma seed_mask_spec (c : FloodFillControls) (img : BinaryImage.t) (x y : Z) :
  0 ≤ safety_radius c → BinaryImage.in_bounds img x y →
  BinaryImage.get
    (FloodFill.safety_mask_ (FloodFill.initialize (new_engine c) img x y)) x y = true
  ↔ ∀ dx dy, dx * dx + dy * dy ≤ safety_radius c * safety_radius c →
      BinaryImage.in_bounds img (x + dx) (y + dy)
      ∧ BinaryImage.get img (x + dx) (y + dy) = BinaryImage.get img x y.
Proof.
  intros Hr Hin.
  rewrite initialize_seed_mask by (done || apply disk_consistent_make).
  set (g1 := FloodFill.with_target_value _ _).
  assert (∀ a b, FloodFill.isValid g1 a b = true ↔ BinaryImage.in_bounds img a b)
    as Hvalid.
  { intros a b. unfold FloodFill.isValid, BinaryImage.in_bounds. simpl.
    unfold BinaryImage.width, BinaryImage.height. lia. }
  destruct (decide (safety_radius c = 0)) as [H0|Hpos].
  - unfold FloodFill.checkCircleFits.
    change (FloodFill.safety_radius_ g1) with (safety_radius c).
    rewrite H0. simpl Z.leb. cbv iota.
    change (FloodFill.source_ g1) with img.
    change (FloodFill.target_value_ g1) with (BinaryImage.get img x y).
    split.
    + intros _ dx dy Hd. assert (dx = 0 ∧ dy = 0) as [-> ->] by nia.
      by rewrite !Z.add_0_r.
    + intros _. apply andb_true_intro. split; [by apply Hvalid|apply eqb_reflx].
  - rewrite (checkCircleFits_with_radius_aux g1 x y);
      [|apply disk_consistent_make|change (0 < safety_radius c); lia].
    change (FloodFill.safety_radius_ g1) with (safety_radius c).
    change (FloodFill.source_ g1) with img.
    change (FloodFill.target_value_ g1) with (BinaryImage.get img x y).
    split; intros H dx dy Hd; destruct (H dx dy Hd) as [H1 H2];
      (split; [by apply Hvalid|done]).
Qed.

End PreviewAgainstEngine.

(** X30: the hover preview against the engine's decision.  With the
    preview shown, no fill started, a radius ≥ 0 and a hovered cell of
    the grid: the preview is green ([hover_safe]) exactly when the
    hovered pixel is foreground and the fill a click there starts
    accepts its seed into the frontier; on a foreground pixel a red
    preview means that fill is complete at once with an empty
    frontier.  On a background pixel the preview is always red, although
    with radius 0 the engine accepts every seed.  For a positive radius
    the previewed circle is the list [getCirclePositions] returns. *)
Theorem hover_preview_against_engine (v : FloodFillVisualizer.t) :
  FloodFillVisualizer.image_width_ v
  = BinaryImage.width (FloodFillVisualizer.source_image_ v) →
  FloodFillVisualizer.image_height_ v
  = BinaryImage.height (FloodFillVisualizer.source_image_ v) →
  FloodFillVisualizer.show_safety_preview (FloodFillVisualizer.controls_ v) = true →
  FloodFillVisualizer.fill_started (FloodFillVisualizer.controls_ v) = false →
  0 ≤ FloodFillVisualizer.safety_radius (FloodFillVisualizer.controls_ v) →
  0 ≤ FloodFillVisualizer.hover_x (FloodFillVisualizer.controls_ v)
    < FloodFillVisualizer.image_width_ v →
  0 ≤ FloodFillVisualizer.hover_y (FloodFillVisualizer.controls_ v)
    < FloodFillVisualizer.image_height_ v →
  let hx := FloodFillVisualizer.hover_x (FloodFillVisualizer.controls_ v) in
  let hy := FloodFillVisualizer.hover_y (FloodFillVisualizer.controls_ v) in
  let r := FloodFillVisualizer.safety_radius (FloodFillVisualizer.controls_ v) in
  let src := FloodFillVisualizer.source_image_ v in
  let engine :=
    FloodFillVisualizer.floodfill_ (FloodFillVisualizer.startFillAt v hx hy) in
  (FloodFillVisualizer.hover_safe v = true
   ↔ BinaryImage.get src hx hy = true
     ∧ FloodFill.getFrontierPositions engine = [(hx, hy)])
  ∧ (FloodFillVisualizer.hover_safe v = false → BinaryImage.get src hx hy = true →
     FloodFill.getFrontierPositions engine = []
     ∧ FloodFill.isComplete engine = true)
  ∧ (BinaryImage.get src hx hy = false → FloodFillVisualizer.hover_safe v = false)
  ∧ (r = 0 → FloodFill.getFrontierPositions engine = [(hx, hy)])
  ∧ (0 < r →
     FloodFillVisualizer.hover_circle v = FloodFill.getCirclePositions engine hx hy).
Proof.
  intros Hiw Hih Hshow Hidle Hr Hhx Hhy hx hy r src engine.
  unfold BinaryImage.width in Hiw. unfold BinaryImage.height in Hih.
  fold src in Hiw, Hih.
  assert (BinaryImage.in_bounds src hx hy) as Hin.
  { unfold BinaryImage.in_bounds. rewrite <- Hiw, <- Hih. done. }
  assert (engine = FloodFill.initialize
                     (FloodFillVisualizer.new_engine (FloodFillVisualizer.controls_ v))
                     src hx hy) as Heng by (by apply startFillAt_engine).
  pose proof (initialize_seed_frontier
                (FloodFillVisualizer.new_engine (FloodFillVisualizer.controls_ v))
                src hx hy Hin) as Hfr.
  pose proof (seed_mask_spec (FloodFillVisualizer.controls_ v) src hx hy Hr Hin)
    as Hmask.
  rewrite <- Heng in Hfr, Hmask. fold r in Hmask.
  pose proof (hover_safe_true v Hshow Hidle (proj1 Hhx) Hr) as Hsafe.
  fold hx hy r src in Hsafe.
  unfold FloodFill.getFrontierPositions.
  assert (∀ a b, (0 ≤ a < FloodFillVisualizer.image_width_ v
                  ∧ 0 ≤ b < FloodFillVisualizer.image_height_ v)
                 ↔ BinaryImage.in_bounds src a b) as Hb.
  { intros a b. unfold BinaryImage.in_bounds. by rewrite <- Hiw, <- Hih. }
  assert (FloodFillVisualizer.hover_safe v = true
          ↔ BinaryImage.get src hx hy = true
            ∧ BinaryImage.get (FloodFill.safety_mask_ engine) hx hy = true) as Hkey.
  { rewrite Hsafe, Hmask. split.
    - intros H. assert (BinaryImage.get src hx hy = true) as Hfg.
      { destruct (H 0 0 ltac:(nia)) as [_ H0]. by rewrite !Z.add_0_r in H0. }
      split; [done|]. intros dx dy Hd. destruct (H dx dy Hd) as [H1 H2].
      split; [by apply Hb|congruence].
    - intros [Hfg H] dx dy Hd. destruct (H dx dy Hd) as [H1 H2].
      split; [by apply Hb|congruence]. }
  split.
  { rewrite Hkey, Hfr. destruct (BinaryImage.get (FloodFill.safety_mask_ engine) hx hy);
      split; intros [? ?]; done. }
  split.
  { intros Hns Hfg.
    destruct (BinaryImage.get (FloodFill.safety_mask_ engine) hx hy) eqn:E.
    - assert (FloodFillVisualizer.hover_safe v = true) by (by apply Hkey).
      congruence.
    - split; [done|]. unfold FloodFill.isComplete. rewrite Hfr.
      rewrite Heng. by rewrite (inv_init _ _ _ _ (Inv_initialize _ src hx hy Hin)). }
  split.
  { intros Hbg. destruct (FloodFillVisualizer.hover_safe v) eqn:E; [|done].
    destruct (proj1 Hkey eq_refl) as [Hfg _]. congruence. }
  split.
  { intros H0. rewrite Hfr.
    replace (BinaryImage.get (FloodFill.safety_mask_ engine) hx hy) with true; [done|].
    symmetry. apply Hmask. intros dx dy Hd. rewrite H0 in Hd.
    assert (dx = 0 ∧ dy = 0) as [-> ->] by nia. by rewrite !Z.add_0_r. }
  intros Hpos. unfold FloodFill.getCirclePositions.
  rewrite Heng, initialize_disk.
  change (FloodFill.disk_offsets_
            (FloodFillVisualizer.new_engine (FloodFillVisualizer.controls_ v)))
    with (FloodFill.disk_offsets r).
  unfold FloodFill.disk_offsets. replace (r <=? 0) with false by lia. cbv zeta.
  unfold FloodFillVisualizer.hover_circle. cbv zeta.
  rewrite (preview_active v Hshow Hidle (proj1 Hhx)). fold r hx hy.
  rewrite fmap_bind_list. apply bind_ext_list. intros dy.
  rewrite fmap_bind_list. apply bind_ext_list. intros dx.
  by destruct (dx * dx + dy * dy <=? r * r).
Qed.

Lemma hover_preview_against_engine_witness :
  let c := FloodFillVisualizer.mkControls 1 0 1 true false (-1) (-1) 1 1 in
  let src := BinaryImage.make 3 3 true in
  let v := FloodFillVisualizer.mk 18 1 3 3 302 41 c src
             (FloodFillVisualizer.new_engine c) true false 0 in
  let engine := FloodFillVisualizer.floodfill_ (FloodFillVisualizer.startFillAt v 1 1) in
  FloodFillVisualizer.image_width_ v = BinaryImage.width src
  ∧ FloodFillVisualizer.image_height_ v = BinaryImage.height src
  ∧ 0 ≤ FloodFillVisualizer.safety_radius c
  ∧ FloodFillVisualizer.hover_safe v = true
  ∧ BinaryImage.get src 1 1 = true
  ∧ FloodFill.getFrontierPositions engine = [(1, 1)].
Proof.
  intros c src v engine.
  assert (0 ≤ FloodFillVisualizer.safety_radius c) as Hr by (simpl; lia).
  assert (0 ≤ FloodFillVisualizer.hover_x c < FloodFillVisualizer.image_width_ v)
    as Hx by (simpl; lia).
  assert (0 ≤ FloodFillVisualizer.hover_y c < FloodFillVisualizer.image_height_ v)
    as Hy by (simpl; lia).
  assert (FloodFillVisualizer.hover_safe v = true) as Hs by reflexivity.
  split; [reflexivity|]. split; [reflexivity|]. split; [exact Hr|].
  split; [exact Hs|].
  exact (proj1 (proj1 (hover_preview_against_engine v eq_refl eq_refl eq_refl eq_refl
                         Hr Hx Hy)) Hs).
Defined.
